(** * GitHub username validator: a shallow embedding of its core logic

    The development follows the TypeScript sources:

    - [src/app/page.tsx]: the client-side control loop ([extractUsername],
      [cleanUsername], [processUsernames], [processManualInput],
      [validateWithGitHub], and of [validateSpecificUsernames] and
      [retryFailedUsernames] the choice of endpoint, the request bodies,
      the chunk loop and the state updaters);
    - [src/app/api/validate-github-batch/route.ts]: the batch endpoint
      ([checkRateLimit], [validateUsernamesGraphQL], [validateUsernamesREST],
      [getCachedResult], [setCachedResult], [POST]);
    - [src/unnamed/part_000], the route the client calls as
      [/api/validate-github]: the plain endpoint ([checkRateLimit],
      [validateGitHubUsername], [POST]);
    - [src/app/api/check-repository-engagement/route.ts]: the engagement
      endpoint ([parseRepositoryUrl], [checkUserEngagement],
      [checkUsersEngagementGraphQL], [checkUsersEngagementREST], [POST]).

    Conventions of the model.

    - JavaScript strings are [string]s of 8-bit characters: the model covers
      text in the ASCII range, where [toLowerCase] and [trim] act as below.
    - JavaScript numbers that hold counts, HTTP codes and millisecond clocks
      are [Z].
    - The two module-level [Map]s of the batch endpoint are [gmap]s in an
      explicit server state; [Date.now()] reads a clock of that state; every
      [fetch] is logged in the state and answered by an oracle that may
      depend on how many calls were made before, so the remote side is
      arbitrary.
    - A rejected promise or a thrown exception is the [Threw] outcome of the
      [M] monad; the state changes made before the throw are kept. *)

From Stdlib Require Import ZArith Ascii String List Bool Lia.
From stdpp Require Import base option list gmap strings pretty.

Local Open Scope string_scope.
Local Open Scope Z_scope.

(* ===================================================================== *)
(** ** JavaScript string primitives (ASCII range) *)
(* ===================================================================== *)

Module Js.

Definition code (c : ascii) : nat := nat_of_ascii c.

Definition between (lo hi : nat) (c : ascii) : bool :=
  (lo <=? code c)%nat && (code c <=? hi)%nat.

Definition is_upper : ascii -> bool := between 65 90.
Definition is_lower : ascii -> bool := between 97 122.
Definition is_digit : ascii -> bool := between 48 57.

(** [\s] restricted to ASCII: TAB, LF, VT, FF, CR and SPACE. *)
Definition is_space (c : ascii) : bool :=
  between 9 13 c || (code c =? 32)%nat.

Definition lower_char (c : ascii) : ascii :=
  if is_upper c then ascii_of_nat (code c + 32) else c.

Definition chars : string -> list ascii := list_ascii_of_string.
Definition str : list ascii -> string := string_of_list_ascii.

(** [s.toLowerCase()] *)
Definition toLowerCase (s : string) : string :=
  str (map lower_char (chars s)).

Fixpoint drop_spaces (l : list ascii) : list ascii :=
  match l with
  | c :: l' => if is_space c then drop_spaces l' else l
  | [] => []
  end.

(** [s.trim()] *)
Definition trim (s : string) : string :=
  str (rev (drop_spaces (rev (drop_spaces (chars s))))).

(** [s.startsWith(p)] *)
Definition startsWith (p s : string) : bool := String.prefix p s.

(** [s.substring(1)] *)
Definition substring1 (s : string) : string :=
  match s with
  | EmptyString => EmptyString
  | String _ s' => s'
  end.

(** [s.includes(sub)] for a non-empty [sub]. *)
Definition includes (sub s : string) : bool :=
  match String.index 0 sub s with
  | Some _ => true
  | None => false
  end.

(** Truthiness of a string: the empty string is falsy. *)
Definition truthy (s : string) : bool :=
  match s with
  | EmptyString => false
  | _ => true
  end.

(** [s.split("\n")] *)
Fixpoint split_lines_aux (cur : list ascii) (l : list ascii) : list string :=
  match l with
  | [] => [str (rev cur)]
  | c :: l' =>
      if (code c =? 10)%nat
      then str (rev cur) :: split_lines_aux [] l'
      else split_lines_aux (c :: cur) l'
  end.

Definition split_lines (s : string) : list string :=
  split_lines_aux [] (chars s).

(** [`${n}`] for a non-negative integer. *)
Definition of_nat (n : nat) : string := pretty n.
Definition of_Z (z : Z) : string := pretty z.

End Js.

(* ===================================================================== *)
(** ** A backtracking matcher for the regular expressions of [page.tsx]

    Only the constructs that occur in the source are present.  The matcher
    is the usual backtracking one: alternatives left to right, greedy
    quantifiers, one capture group, and [search] tries the start positions
    left to right as [String.prototype.match] and [replace] do without the
    [g] flag. *)
(* ===================================================================== *)

Module Regex.

Inductive regex : Type :=
| Eps                                  (* empty pattern *)
| Lit (c : ascii)                      (* one literal character *)
| Class (p : ascii -> bool)            (* [...] *)
| AnyChar                              (* .  (no line terminator) *)
| Seq (r1 r2 : regex)
| Alt (r1 r2 : regex)                  (* r1|r2 *)
| Opt (r : regex)                      (* r? *)
| Star (r : regex)                     (* r* *)
| Plus (r : regex)                     (* r+ *)
| Group (r : regex)                    (* ( r ), group 1 *)
| Bol                                  (* ^ *)
| Eol.                                 (* $ *)

(** A literal word, character by character. *)
Fixpoint word_of (l : list ascii) : regex :=
  match l with
  | [] => Eps
  | [c] => Lit c
  | c :: l' => Seq (Lit c) (word_of l')
  end.

Definition Word (s : string) : regex := word_of (Js.chars s).

Definition alnum (c : ascii) : bool :=
  Js.is_lower c || Js.is_upper c || Js.is_digit c.

Definition alnum_dash (c : ascii) : bool :=
  alnum c || (Js.code c =? 45)%nat.

Definition line_terminator (c : ascii) : bool :=
  (Js.code c =? 10)%nat || (Js.code c =? 13)%nat.

Definition same_char (ci : bool) (a b : ascii) : bool :=
  if ci
  then (Js.code (Js.lower_char a) =? Js.code (Js.lower_char b))%nat
  else (Js.code a =? Js.code b)%nat.

Section Matcher.
Context {R : Type}.
(** [ci] is the [i] flag. *)
Variable ci : bool.

(** A continuation receives the position reached, the rest of the
    input and the text captured by group 1. *)
Definition cont : Type := nat -> list ascii -> option (list ascii) -> option R.

Definition orelse (a : option R) (b : unit -> option R) : option R :=
  match a with
  | Some x => Some x
  | None => b tt
  end.

Fixpoint run (r : regex) (pos : nat) (s : list ascii)
             (cap : option (list ascii)) (k : cont) {struct r} : option R :=
  match r with
  | Eps => k pos s cap
  | Lit c =>
      match s with
      | c' :: s' => if same_char ci c c' then k (S pos) s' cap else None
      | [] => None
      end
  | Class p =>
      match s with
      | c' :: s' => if p c' then k (S pos) s' cap else None
      | [] => None
      end
  | AnyChar =>
      match s with
      | c' :: s' => if line_terminator c' then None else k (S pos) s' cap
      | [] => None
      end
  | Seq r1 r2 =>
      run r1 pos s cap (fun pos' s' cap' => run r2 pos' s' cap' k)
  | Alt r1 r2 =>
      orelse (run r1 pos s cap k) (fun _ => run r2 pos s cap k)
  | Opt r1 =>
      orelse (run r1 pos s cap k) (fun _ => k pos s cap)
  | Star r1 =>
      (fix loop (fuel : nat) (pos : nat) (s : list ascii)
                (cap : option (list ascii)) {struct fuel} : option R :=
         match fuel with
         | O => k pos s cap
         | S fuel' =>
             orelse
               (run r1 pos s cap
                    (fun pos' s' cap' =>
                       if (pos <? pos')%nat then loop fuel' pos' s' cap' else None))
               (fun _ => k pos s cap)
         end) (S (length s)) pos s cap
  | Plus r1 =>
      run r1 pos s cap
          (fun pos1 s1 cap1 =>
             (fix loop (fuel : nat) (pos : nat) (s : list ascii)
                       (cap : option (list ascii)) {struct fuel} : option R :=
                match fuel with
                | O => k pos s cap
                | S fuel' =>
                    orelse
                      (run r1 pos s cap
                           (fun pos' s' cap' =>
                              if (pos <? pos')%nat then loop fuel' pos' s' cap' else None))
                      (fun _ => k pos s cap)
                end) (S (length s1)) pos1 s1 cap1)
  | Group r1 =>
      run r1 pos s cap
          (fun pos' s' _ => k pos' s' (Some (firstn (pos' - pos) s)))
  | Bol => if (pos =? 0)%nat then k pos s cap else None
  | Eol => match s with [] => k pos s cap | _ => None end
  end.
End Matcher.

(** A match: where it starts, where it ends, and group 1. *)
Record found : Type := Found {
  m_start : nat;
  m_end : nat;
  m_group1 : option (list ascii)
}.

Fixpoint search_from (ci : bool) (r : regex) (pos : nat) (s : list ascii)
  : option found :=
  match run ci r pos s None (fun e _ cap => Some (Found pos e cap)) with
  | Some m => Some m
  | None =>
      match s with
      | [] => None
      | _ :: s' => search_from ci r (S pos) s'
      end
  end.

(** [s.match(r)] *)
Definition exec (ci : bool) (r : regex) (s : string) : option found :=
  search_from ci r 0 (Js.chars s).

(** [r.test(s)] *)
Definition test (ci : bool) (r : regex) (s : string) : bool :=
  match exec ci r s with
  | Some _ => true
  | None => false
  end.

(** [s.replace(r, "")] *)
Definition remove_first (ci : bool) (r : regex) (s : string) : string :=
  match exec ci r s with
  | Some m =>
      Js.str (firstn (m_start m) (Js.chars s) ++ skipn (m_end m) (Js.chars s))
  | None => s
  end.

End Regex.

(* ===================================================================== *)
(** ** Shared data: profiles and verdicts *)
(* ===================================================================== *)

(** [profileData] of [ValidationResult] and [ProcessedUser].  The values
    are copied from a JSON document without a check: a property the document
    lacks stays [None] ([undefined]). *)
Record ProfileData : Type := {
  name : option string;
  bio : option string;
  public_repos : option Z;
  followers : option Z;
  following : option Z;
  created_at : option string
}.

(** The union of status strings of [ProcessedUser]; a [ValidationResult]
    uses ["valid"], ["invalid"], ["deleted"] and ["error"] of them. *)
Inductive Status : Type :=
| Valid | Invalid | Duplicate | Deleted | Processing | Pending | Error.

Definition Status_eqb (a b : Status) : bool :=
  match a, b with
  | Valid, Valid | Invalid, Invalid | Duplicate, Duplicate
  | Deleted, Deleted | Processing, Processing | Pending, Pending
  | Error, Error => true
  | _, _ => false
  end.

(* ===================================================================== *)
(** ** The control loop of [src/app/page.tsx] *)
(* ===================================================================== *)

Module Client.
Import Regex.

Record ParsedData : Type := {
  headers : list string;
  rows : list (list string)
}.

Record RepositoryEngagement : Type := {
  hasStarred : bool;
  hasFork : bool;
  repositoryUrl : string
}.

Record ProcessedUser : Type := {
  originalValue : string;
  username : option string;
  status : Status;
  error : option string;
  index : nat;
  profileData : option ProfileData;
  repositoryEngagement : option RepositoryEngagement
}.

(** Concatenation of a list of patterns. *)
Definition Cat (rs : list regex) : regex := fold_right Seq Eps rs.

(** [[a-zA-Z0-9](?:[a-zA-Z0-9-]*[a-zA-Z0-9])?] *)
Definition handle_re : regex :=
  Seq (Class alnum) (Opt (Seq (Star (Class alnum_dash)) (Class alnum))).

(** [(?:https?:\/\/)?] *)
Definition scheme_re : regex :=
  Opt (Cat [Word "http"; Opt (Lit "s"); Word "://"]).

(** The three [githubUrlPatterns], all with the [i] flag. *)
Definition githubUrlPatterns : list regex :=
  [ Cat [scheme_re; Opt (Word "www."); Word "github.com/"; Group handle_re;
         Opt (Lit "/"); Opt (Seq (Lit "?") (Star AnyChar));
         Opt (Seq (Lit "#") (Star AnyChar)); Eol];
    Cat [scheme_re; Group (Cat [handle_re; Word ".github.io"; Opt (Lit "/")])];
    Cat [Word "git@github.com:"; Group handle_re; Opt (Word ".git")] ].

(** [/\.git$/] *)
Definition git_suffix_re : regex := Cat [Word ".git"; Eol].
(** [/^(?:github:|gh:|git:)/i] *)
Definition prefix_re : regex :=
  Cat [Bol; Alt (Word "github:") (Alt (Word "gh:") (Word "git:"))].
(** [/\/+$/] *)
Definition trailing_slashes_re : regex := Cat [Plus (Lit "/"); Eol].
(** [/^[a-zA-Z0-9]([a-zA-Z0-9-]*[a-zA-Z0-9])?$/] *)
Definition username_re : regex :=
  Cat [Bol; Class alnum; Opt (Group (Seq (Star (Class alnum_dash)) (Class alnum))); Eol].

Definition cleanUsername (username : string) : option string :=
  if negb (Js.truthy username) then None
  else
    let username := Js.trim username in
    if negb (test false username_re username) then None
    else if (String.length username =? 0)%nat || (39 <? String.length username)%nat
         then None
         else Some username.

(** The [for] loop over the URL patterns: the first pattern that matches
    with a non-empty group 1 decides. *)
Fixpoint tryUrlPatterns (patterns : list regex) (value : string)
  : option (option string) :=
  match patterns with
  | [] => None
  | pattern :: rest =>
      match exec true pattern value with
      | Some (Found _ _ (Some (c :: g))) =>
          let username := Js.str (c :: g) in
          let username := remove_first false git_suffix_re username in
          Some (cleanUsername username)
      | _ => tryUrlPatterns rest value
      end
  end.

Definition extractUsername (value : string) : option string :=
  if negb (Js.truthy value) then None
  else
    let value := Js.trim value in
    if negb (Js.truthy value) then None
    else
      match tryUrlPatterns githubUrlPatterns value with
      | Some r => r
      | None =>
          let cleanedValue := value in
          let cleanedValue :=
            if Js.startsWith "@" cleanedValue
            then Js.substring1 cleanedValue else cleanedValue in
          let cleanedValue := remove_first true prefix_re cleanedValue in
          let cleanedValue := Js.trim (remove_first false trailing_slashes_re cleanedValue) in
          cleanUsername cleanedValue
      end.

(** [arr.forEach((x, index) => ...)] threading the variables the callback
    mutates. *)
Fixpoint forEach {A S : Type} (f : S -> A -> nat -> S) (l : list A)
                 (index : nat) (st : S) : S :=
  match l with
  | [] => st
  | x :: l' => forEach f l' (Datatypes.S index) (f st x index)
  end.

(** The local variables of [processUsernames]. *)
Record Pass : Type := {
  users : list ProcessedUser;
  seenUsernames : gmap string nat;
  duplicateUsernames : gset string;
  validUsernameCount : nat
}.

Definition set_duplicate (u : ProcessedUser) : ProcessedUser :=
  {| originalValue := originalValue u; username := username u;
     status := Duplicate; error := Some "Duplicate username found";
     index := index u; profileData := profileData u;
     repositoryEngagement := repositoryEngagement u |}.

(** [firstUser = users.find(u => u.index === firstIndex)] followed by the
    in-place update of that object when it is still pending. *)
Fixpoint markFirstOccurrence (firstIndex : nat) (us : list ProcessedUser)
  : list ProcessedUser :=
  match us with
  | [] => []
  | u :: rest =>
      if (index u =? firstIndex)%nat
      then (if Status_eqb (status u) Pending then set_duplicate u else u) :: rest
      else u :: markFirstOccurrence firstIndex rest
  end.

Definition newUser (originalValue : string) (username : option string)
           (status : Status) (error : option string) (index : nat) : ProcessedUser :=
  {| originalValue := originalValue; username := username; status := status;
     error := error; index := index; profileData := None;
     repositoryEngagement := None |}.

(** The handle a test [if (username)] lets through: neither [null] nor
    the empty string. *)
Definition truthyHandle (username : option string) : option string :=
  match username with
  | Some h => if Js.truthy h then Some h else None
  | None => None
  end.

(** The callback of [parsedData.rows.forEach] in [processUsernames]. *)
Definition processRow (columnIndex : nat) (st : Pass) (row : list string)
           (index : nat) : Pass :=
  let originalValue := nth columnIndex row "" in
  let username := extractUsername originalValue in
  match truthyHandle username with
  | Some h =>
      let lowerUsername := Js.toLowerCase h in
      match seenUsernames st !! lowerUsername with
      | Some firstIndex =>
          {| users := markFirstOccurrence firstIndex (users st)
                      ++ [newUser originalValue username Duplicate
                                  (Some "Duplicate username found") index];
             seenUsernames := seenUsernames st;
             duplicateUsernames := {[lowerUsername]} ∪ duplicateUsernames st;
             validUsernameCount := validUsernameCount st |}
      | None =>
          {| users := users st ++ [newUser originalValue username Pending None index];
             seenUsernames := <[lowerUsername := index]> (seenUsernames st);
             duplicateUsernames := duplicateUsernames st;
             validUsernameCount := Datatypes.S (validUsernameCount st) |}
      end
  | None =>
      {| users := users st
                  ++ [newUser originalValue username Invalid
                              (Some "Invalid username format or not found") index];
         seenUsernames := seenUsernames st;
         duplicateUsernames := duplicateUsernames st;
         validUsernameCount := validUsernameCount st |}
  end.

Definition emptyPass : Pass :=
  {| users := []; seenUsernames := ∅; duplicateUsernames := ∅;
     validUsernameCount := 0 |}.

(** [headers.indexOf(selectedColumn)], [None] for [-1]. *)
Fixpoint indexOf (x : string) (l : list string) : option nat :=
  match l with
  | [] => None
  | y :: l' => if String.eqb y x then Some O else Datatypes.S <$> indexOf x l'
  end.

(** [processUsernames]: [None] when it returns before [setProcessedUsers]. *)
Definition processUsernames (parsedData : option ParsedData)
           (selectedColumn : string) : option Pass :=
  match parsedData with
  | None => None
  | Some data =>
      if negb (Js.truthy selectedColumn) then None
      else
        match indexOf selectedColumn (headers data) with
        | None => None
        | Some columnIndex =>
            Some (forEach (processRow columnIndex) (rows data) 0 emptyPass)
        end
  end.

(** The first [forEach] of [processManualInput]; its [seenUsernames] is
    a [Set], here the keys of the map. *)
Definition processLine (st : Pass) (line : string) (index : nat) : Pass :=
  let originalValue := Js.trim line in
  let username := extractUsername originalValue in
  let st' :=
    match truthyHandle username with
    | Some h =>
        let lowerUsername := Js.toLowerCase h in
        if bool_decide (lowerUsername ∈ dom (seenUsernames st))
        then {| users := users st; seenUsernames := seenUsernames st;
                duplicateUsernames := {[lowerUsername]} ∪ duplicateUsernames st;
                validUsernameCount := validUsernameCount st |}
        else {| users := users st;
                seenUsernames := <[lowerUsername := index]> (seenUsernames st);
                duplicateUsernames := duplicateUsernames st;
                validUsernameCount := validUsernameCount st |}
    | None => st
    end in
  {| users := users st'
              ++ [newUser originalValue username
                          (match truthyHandle username with
                           | Some _ => Pending
                           | None => Invalid
                           end)
                          (match truthyHandle username with
                           | Some _ => None
                           | None => Some "Invalid username format"
                           end)
                          index];
     seenUsernames := seenUsernames st';
     duplicateUsernames := duplicateUsernames st';
     validUsernameCount := validUsernameCount st' |}.

(** The second [forEach] of [processManualInput]. *)
Definition flagDuplicate (dups : gset string) (user : ProcessedUser) : ProcessedUser :=
  match truthyHandle (username user) with
  | Some h =>
      if bool_decide (Js.toLowerCase h ∈ dups) then set_duplicate user else user
  | None => user
  end.

(** [manualInput.split("\n").filter((line) => line.trim())] *)
Definition manualLines (manualInput : string) : list string :=
  filter (fun line => Js.truthy (Js.trim line) = true) (Js.split_lines manualInput).

(** [processManualInput]: [None] when the input is blank. *)
Definition processManualInput (manualInput : string) : option (list ProcessedUser) :=
  if negb (Js.truthy (Js.trim manualInput)) then None
  else
    let st := forEach processLine (manualLines manualInput) 0 emptyPass in
    Some (map (flagDuplicate (duplicateUsernames st)) (users st)).

(** [usersToValidate] of [validateWithGitHub]. *)
Definition usersToValidate (processedUsers : list ProcessedUser) : list ProcessedUser :=
  filter (fun user =>
            Status_eqb (status user) Pending
            && bool_decide (is_Some (truthyHandle (username user))) = true)
         processedUsers.

(** [usersToValidate.map((user) => user.username!).filter(Boolean)]: the
    handles [validateWithGitHub] passes to [validateSpecificUsernames]. *)
Definition usernamesToSubmit (processedUsers : list ProcessedUser) : list string :=
  omap (fun user => truthyHandle (username user)) (usersToValidate processedUsers).

End Client.

(* ===================================================================== *)
(** ** The server side: state, effects and the remote API *)
(* ===================================================================== *)

Module Server.

(** What a [throw] or a rejected promise carries: an [Error] object with
    its message, or some other value. *)
Inductive Thrown : Type :=
| ErrorObject (message : string)
| OtherValue.

(** [error instanceof Error ? error.message : "Unknown error"] *)
Definition messageOf (e : Thrown) : string :=
  match e with
  | ErrorObject m => m
  | OtherValue => "Unknown error"
  end.

(** Outcome of [await response.json()]. *)
Inductive Json (A : Type) : Type :=
| JsonThrows (e : Thrown)
| JsonValue (a : A).
Arguments JsonThrows {A} e.
Arguments JsonValue {A} a.

Record Response (A : Type) : Type := {
  status : Z;
  statusText : string;
  json : Json A
}.
Arguments status {A} r.
Arguments statusText {A} r.
Arguments json {A} r.

(** [response.ok] *)
Definition ok {A : Type} (r : Response A) : bool :=
  (200 <=? status r) && (status r <=? 299).

(** Outcome of [await fetch(...)]: rejected, or a response. *)
Inductive Fetched (A : Type) : Type :=
| Rejected (e : Thrown)
| Resolved (r : Response A).
Arguments Rejected {A} e.
Arguments Resolved {A} r.

(** The JSON document of [GET /users/{username}]: a user document on
    success, an error document with [message] otherwise.  A property the
    document lacks is [None] ([undefined]). *)
Record UserJson : Type := {
  u_name : option string;
  u_bio : option string;
  u_public_repos : option Z;
  u_followers : option Z;
  u_following : option Z;
  u_created_at : option string;
  u_message : option string
}.

(** A user node of the GraphQL reply.  The selection set of the query
    fixes its shape: a node that is not [null] carries every selected
    field, and only [name] and [bio] are nullable. *)
Record GqlUser : Type := {
  g_login : string;
  g_name : option string;
  g_bio : option string;
  g_repositories_totalCount : Z;
  g_followers_totalCount : Z;
  g_following_totalCount : Z;
  g_createdAt : string
}.

(** An entry of the reply's [errors] array. *)
Record GqlError : Type := {
  e_message : option string;
  e_path : option (list string);
  e_type : option string
}.

(** The GraphQL reply: [data] maps an alias to its node (an alias that is
    [null] or missing has no binding), [errors] may be missing. *)
Record GqlBody : Type := {
  data : option (gmap string GqlUser);
  errors : option (list GqlError)
}.

(** Entries of the starred list and of the fork list. *)
Record StarredRepo : Type := {
  s_owner_login : option string;
  s_name : option string
}.

Record ParentRepo : Type := {
  p_owner_login : option string;
  p_name : option string
}.

Record ForkRepo : Type := {
  f_fork : bool;
  f_parent : option ParentRepo
}.

(** The requests the server sends to [api.github.com].  A GraphQL query
    is determined by the handles it aliases. *)
Inductive Call : Type :=
| GetUser (username : string) (authorization : option string)
| PostGraphQL (usernames : list string) (token : string)
| GetStarred (username : string) (authorization : option string)
| GetForks (username : string) (authorization : option string).

(** The remote side: the answer to the [n]-th request sent, and the time
    (in ms) it took. *)
Record Remote : Type := {
  getUser : nat -> string -> option string -> Fetched UserJson;
  postGraphQL : nat -> list string -> string -> Fetched GqlBody;
  getStarred : nat -> string -> option string -> Fetched (list StarredRepo);
  getForks : nat -> string -> option string -> Fetched (list ForkRepo);
  latency : nat -> Z
}.

(** [ValidationResult] *)
Record ValidationResult : Type := {
  username : string;
  vstatus : Status;
  error : option string;
  profileData : option ProfileData
}.

Record CacheEntry : Type := {
  result : ValidationResult;
  timestamp : Z
}.

Record RateLimitEntry : Type := {
  count : Z;
  resetTime : Z
}.

(** The process state: [validationCache], [rateLimitMap], the clock read
    by [Date.now()] and the log of requests sent, oldest first. *)
Record State : Type := {
  validationCache : gmap string CacheEntry;
  rateLimitMap : gmap string RateLimitEntry;
  clock : Z;
  calls : list Call
}.

Definition set_cache (f : gmap string CacheEntry -> gmap string CacheEntry)
           (s : State) : State :=
  {| validationCache := f (validationCache s); rateLimitMap := rateLimitMap s;
     clock := clock s; calls := calls s |}.

Definition set_rateLimitMap
           (f : gmap string RateLimitEntry -> gmap string RateLimitEntry)
           (s : State) : State :=
  {| validationCache := validationCache s; rateLimitMap := f (rateLimitMap s);
     clock := clock s; calls := calls s |}.

Definition tick (ms : Z) (s : State) : State :=
  {| validationCache := validationCache s; rateLimitMap := rateLimitMap s;
     clock := clock s + ms; calls := calls s |}.

Definition log (c : Call) (s : State) : State :=
  {| validationCache := validationCache s; rateLimitMap := rateLimitMap s;
     clock := clock s; calls := calls s ++ [c] |}.

(** *** The effect monad *)

Inductive Outcome (A : Type) : Type :=
| Returned (a : A)
| Threw (e : Thrown).
Arguments Returned {A} a.
Arguments Threw {A} e.

Definition M (A : Type) : Type := State -> Outcome A * State.

Definition ret {A : Type} (a : A) : M A := fun s => (Returned a, s).

Definition throw {A : Type} (e : Thrown) : M A := fun s => (Threw e, s).

Definition bind {A B : Type} (m : M A) (k : A -> M B) : M B :=
  fun s =>
    match m s with
    | (Returned a, s') => k a s'
    | (Threw e, s') => (Threw e, s')
    end.

(** [try { m } catch (e) { h e }] *)
Definition try_catch {A : Type} (m : M A) (h : Thrown -> M A) : M A :=
  fun s =>
    match m s with
    | (Returned a, s') => (Returned a, s')
    | (Threw e, s') => h e s'
    end.

Definition get : M State := fun s => (Returned s, s).
Definition modify (f : State -> State) : M unit := fun s => (Returned tt, f s).

Declare Scope m_scope.
Delimit Scope m_scope with M.
Notation "x <- c1 ;; c2" := (bind c1 (fun x => c2))
  (at level 100, c1 at next level, right associativity) : m_scope.
Notation "c1 ;; c2" := (bind c1 (fun _ => c2))
  (at level 100, right associativity) : m_scope.
Local Open Scope m_scope.

Fixpoint mapM {A B : Type} (f : A -> M B) (l : list A) : M (list B) :=
  match l with
  | [] => ret []
  | x :: l' => y <- f x ;; ys <- mapM f l' ;; ret (y :: ys)
  end.

(** [l.forEach(f)] for an effectful callback. *)
Fixpoint forEachM {A : Type} (f : A -> M unit) (l : list A) : M unit :=
  match l with
  | [] => ret tt
  | x :: l' => f x ;; forEachM f l'
  end.

(** [Date.now()] *)
Definition Date_now : M Z := fun s => (Returned (clock s), s).

(** [await new Promise((resolve) => setTimeout(resolve, ms))] *)
Definition sleep (ms : Z) : M unit := modify (tick ms).

(** [await fetch(...)]: the request is logged, the clock advances by the
    latency of the call, and the remote side answers. *)
Definition fetch {A : Type} (remote : Remote) (c : Call)
           (answer : nat -> Fetched A) : M (Response A) :=
  fun s =>
    let n := length (calls s) in
    let s' := tick (latency remote n) (log c s) in
    match answer n with
    | Rejected e => (Threw e, s')
    | Resolved r => (Returned r, s')
    end.

(** [await x.json()] for a request or a response [x]. *)
Definition await_json {A : Type} (j : Json A) : M A :=
  match j with
  | JsonThrows e => throw e
  | JsonValue a => ret a
  end.

Definition json_of {A : Type} (r : Response A) : M A := await_json (json r).

(** The loop [for (let i = 0; i < l.length; i += size) chunks.push(l.slice(i, i + size))]. *)
Fixpoint slices {A : Type} (fuel : nat) (size : nat) (l : list A) : list (list A) :=
  match fuel with
  | O => []
  | S fuel' =>
      match l with
      | [] => []
      | _ => take size l :: slices fuel' size (drop size l)
      end
  end.

Definition chunksOf {A : Type} (size : nat) (l : list A) : list (list A) :=
  slices (length l) size l.

(** Truthiness of an optional string ([githubToken], a header value). *)
Definition truthy (o : option string) : bool :=
  match o with
  | Some s => Js.truthy s
  | None => false
  end.

End Server.

(* ===================================================================== *)
(** ** The batch endpoint, [src/app/api/validate-github-batch/route.ts] *)
(* ===================================================================== *)

Module Batch.
Import Server.
Local Open Scope m_scope.

(** ["graphql" | "rest" | "auto"] *)
Inductive Method : Type := MGraphql | MRest | MAuto.

Definition Method_eqb (a b : Method) : bool :=
  match a, b with
  | MGraphql, MGraphql | MRest, MRest | MAuto, MAuto => true
  | _, _ => false
  end.

(** [ValidationRequest]; [usernames] is [None] when the property is not
    an array. *)
Record ValidationRequest : Type := {
  usernames : option (list string);
  githubToken : option string;
  method : option Method
}.

Record Request : Type := {
  x_forwarded_for : option string;
  body : Json ValidationRequest
}.

Definition CACHE_DURATION : Z := 5 * 60 * 1000.

Record RateLimitCheck : Type := {
  allowed : bool;
  remaining : Z;
  rl_resetTime : Z
}.

Definition checkRateLimit (ip : string) (hasToken : bool) : M RateLimitCheck :=
  now <- Date_now ;;
  s <- get ;;
  let limit := rateLimitMap s !! ip in
  let maxRequests := if hasToken then 5000 else 60 in
  let startWindow : M RateLimitCheck :=
    let resetTime := now + 60 * 60 * 1000 in
    modify (set_rateLimitMap <[ip := {| count := 1; resetTime := resetTime |}]>) ;;
    ret {| allowed := true; remaining := maxRequests - 1; rl_resetTime := resetTime |} in
  match limit with
  | None => startWindow
  | Some limit =>
      if now >? resetTime limit then startWindow
      else if count limit >=? maxRequests then
        ret {| allowed := false; remaining := 0; rl_resetTime := resetTime limit |}
      else
        let count' := count limit + 1 in
        modify (set_rateLimitMap
                  <[ip := {| count := count'; resetTime := resetTime limit |}]>) ;;
        ret {| allowed := true; remaining := maxRequests - count';
               rl_resetTime := resetTime limit |}
  end.

(** [`user${index}`] *)
Definition alias (index : nat) : string := "user" +:+ Js.of_nat index.

(** [errors.some((err) => err.path?.[0] === alias && err.type === "NOT_FOUND")] *)
Definition notFound (alias : string) (errors : list GqlError) : bool :=
  existsb (fun err =>
             match e_path err with
             | Some (p0 :: _) => String.eqb p0 alias
             | _ => false
             end
             && match e_type err with
                | Some t => String.eqb t "NOT_FOUND"
                | None => false
                end)
          errors.

(** The callback of [usernames.forEach] in [validateUsernamesGraphQL]. *)
Definition graphqlResult (data : GqlBody) (index : nat) (username : string)
  : ValidationResult :=
  let alias := alias index in
  let userData := Server.data data ≫= (fun d => d !! alias) in
  let errors := default [] (Server.errors data) in
  let notFound := notFound alias errors in
  match userData with
  | Some userData =>
      {| username := username; vstatus := Valid; error := None;
         profileData :=
           Some {| name := g_name userData; bio := g_bio userData;
                   public_repos := Some (g_repositories_totalCount userData);
                   followers := Some (g_followers_totalCount userData);
                   following := Some (g_following_totalCount userData);
                   created_at := Some (g_createdAt userData) |} |}
  | None =>
      if notFound then
        {| username := username; vstatus := Deleted;
           error := Some "User not found or account deleted"; profileData := None |}
      else
        {| username := username; vstatus := Error;
           error := Some "Unexpected GraphQL error"; profileData := None |}
  end.

Definition validateUsernamesGraphQL (remote : Remote) (usernames : list string)
           (githubToken : string) : M (list ValidationResult) :=
  try_catch
    (response <- fetch remote (PostGraphQL usernames githubToken)
                       (fun n => postGraphQL remote n usernames githubToken) ;;
     if negb (ok response) then
       throw (ErrorObject ("GraphQL request failed: " +:+ Js.of_Z (status response)))
     else
       data <- json_of response ;;
       ret (imap (graphqlResult data) usernames))
    (fun error => throw error).

(** The [Authorization] header of the REST requests. *)
Definition bearer (githubToken : option string) : option string :=
  match githubToken with
  | Some t => if Js.truthy t then Some ("Bearer " +:+ t) else None
  | None => None
  end.

(** The body of [chunk.map(async (username) => ...)] in
    [validateUsernamesREST]. *)
Definition validateOneREST (remote : Remote) (githubToken : option string)
           (username : string) : M ValidationResult :=
  let headers := bearer githubToken in
  try_catch
    (response <- fetch remote (GetUser username headers)
                       (fun n => getUser remote n username headers) ;;
     if status response =? 200 then
       userData <- json_of response ;;
       ret {| username := username; vstatus := Valid; error := None;
              profileData :=
                Some {| name := u_name userData; bio := u_bio userData;
                        public_repos := u_public_repos userData;
                        followers := u_followers userData;
                        following := u_following userData;
                        created_at := u_created_at userData |} |}
     else if status response =? 404 then
       ret {| username := username; vstatus := Deleted;
              error := Some "User not found or account deleted"; profileData := None |}
     else if status response =? 403 then
       ret {| username := username; vstatus := Error;
              error := Some "Rate limit exceeded - please wait"; profileData := None |}
     else
       ret {| username := username; vstatus := Error;
              error := Some ("HTTP " +:+ Js.of_Z (status response) +:+ ": "
                             +:+ statusText response);
              profileData := None |})
    (fun error =>
       ret {| username := username; vstatus := Error;
              error := Some (messageOf error); profileData := None |}).

(** The loop [for (const chunk of chunks)] of [validateUsernamesREST];
    a chunk that is not the last one is followed by a 100 ms pause. *)
Fixpoint restChunks (remote : Remote) (githubToken : option string)
         (chunks : list (list string)) (results : list ValidationResult)
  : M (list ValidationResult) :=
  match chunks with
  | [] => ret results
  | chunk :: rest =>
      chunkResults <- mapM (validateOneREST remote githubToken) chunk ;;
      let results := (results ++ chunkResults)%list in
      match rest with
      | [] => ret tt
      | _ => sleep 100
      end ;;
      restChunks remote githubToken rest results
  end.

Definition validateUsernamesREST (remote : Remote) (usernames : list string)
           (githubToken : option string) (concurrency : nat)
  : M (list ValidationResult) :=
  restChunks remote githubToken (chunksOf concurrency usernames) [].

Definition getCachedResult (username : string) : M (option ValidationResult) :=
  s <- get ;;
  match validationCache s !! username with
  | Some cached =>
      now <- Date_now ;;
      if now - timestamp cached <? CACHE_DURATION
      then ret (Some (result cached))
      else ret None
  | None => ret None
  end.

Definition setCachedResult (username : string) (result : ValidationResult) : M unit :=
  now <- Date_now ;;
  modify (set_cache <[username := {| result := result; timestamp := now |}]>).

(** The first [usernames.forEach] of [POST]: cache hits and misses. *)
Fixpoint lookupAll (usernames : list string)
         (cachedResults : list ValidationResult) (uncachedUsernames : list string)
  : M (list ValidationResult * list string) :=
  match usernames with
  | [] => ret (cachedResults, uncachedUsernames)
  | username :: rest =>
      cached <- getCachedResult username ;;
      match cached with
      | Some cached => lookupAll rest (cachedResults ++ [cached]) uncachedUsernames
      | None => lookupAll rest cachedResults (uncachedUsernames ++ [username])
      end
  end.

Definition cacheAll (results : list ValidationResult) : M unit :=
  forEachM (fun result => setCachedResult (username result) result) results.

(** The loop [for (const batch of batches)] of the GraphQL branch. *)
Fixpoint graphqlBatches (remote : Remote) (githubToken : string)
         (batches : list (list string)) (uncachedResults : list ValidationResult)
  : M (list ValidationResult) :=
  match batches with
  | [] => ret uncachedResults
  | batch :: rest =>
      batchResults <- validateUsernamesGraphQL remote batch githubToken ;;
      let uncachedResults := (uncachedResults ++ batchResults)%list in
      cacheAll batchResults ;;
      graphqlBatches remote githubToken rest uncachedResults
  end.

(** The flag [useGraphQL] (lines 292-295). *)
Definition useGraphQL (method : Method) (githubToken : option string)
           (misses : nat) : bool :=
  Method_eqb method MGraphql
  || (Method_eqb method MAuto && truthy githubToken && (10 <=? misses)%nat).

(** The block [if (uncachedUsernames.length > 0) { ... }] of [POST]
    (lines 289-330): the results for the cache misses and [useGraphQL]. *)
Definition validateUncached (remote : Remote) (method : Method)
           (githubToken : option string) (uncachedUsernames : list string)
  : M (list ValidationResult * bool) :=
  match uncachedUsernames with
  | [] => ret ([], false)
  | _ =>
      let useGraphQL := useGraphQL method githubToken (length uncachedUsernames) in
      uncachedResults <-
        try_catch
          (match githubToken with
           | Some token =>
               if useGraphQL && Js.truthy token then
                 graphqlBatches remote token (chunksOf 100 uncachedUsernames) []
               else
                 uncachedResults <- validateUsernamesREST remote uncachedUsernames githubToken 20 ;;
                 cacheAll uncachedResults ;;
                 ret uncachedResults
           | None =>
               uncachedResults <- validateUsernamesREST remote uncachedUsernames githubToken 20 ;;
               cacheAll uncachedResults ;;
               ret uncachedResults
           end)
          (fun error =>
             if useGraphQL then
               uncachedResults <- validateUsernamesREST remote uncachedUsernames githubToken 20 ;;
               cacheAll uncachedResults ;;
               ret uncachedResults
             else throw error) ;;
      ret (uncachedResults, useGraphQL)
  end.

(** [arr.find((r) => r.username === username)] *)
Definition findResult (username0 : string) (rs : list ValidationResult)
  : option ValidationResult :=
  List.find (fun r => String.eqb (username r) username0) rs.

Record RateLimitInfo : Type := {
  i_remaining : Z;
  i_resetTime : Z;
  i_limit : Z
}.

Record CacheStats : Type := {
  cached : nat;
  validated : nat;
  total : nat
}.

(** The body of the 200 reply; an element of [results] is [None] where
    the source pushes [undefined]. *)
Record ValidationResponse : Type := {
  results : list (option ValidationResult);
  rateLimit : RateLimitInfo;
  cacheStats : CacheStats;
  methodUsed : Method
}.

Inductive HttpResponse : Type :=
| Status200 (reply : ValidationResponse)
| Status400 (error : string)
| Status429 (error : string) (resetTime : Z) (remaining : Z)
| Status500 (error : string).

(** [request.headers.get("x-forwarded-for") || "unknown"] *)
Definition ipOf (request : Request) : string :=
  match x_forwarded_for request with
  | Some ip => if Js.truthy ip then ip else "unknown"
  | None => "unknown"
  end.

Definition POST (remote : Remote) (request : Request) : M HttpResponse :=
  try_catch
    (let ip := ipOf request in
     body <- await_json (body request) ;;
     let githubToken := githubToken body in
     let method := default MAuto (method body) in
     match usernames body with
     | None | Some [] =>
         ret (Status400 "Invalid request: usernames array is required")
     | Some usernames =>
         if (5000 <? length usernames)%nat then
           ret (Status400 "Too many usernames. Maximum 5000 per request.")
         else
           rateLimit <- checkRateLimit ip (truthy githubToken) ;;
           if negb (allowed rateLimit) then
             ret (Status429 "Rate limit exceeded. Please try again later."
                            (rl_resetTime rateLimit) (remaining rateLimit))
           else
             partition <- lookupAll usernames [] [] ;;
             let '(cachedResults, uncachedUsernames) := partition in
             validated <- validateUncached remote method githubToken uncachedUsernames ;;
             let '(uncachedResults, useGraphQL) := validated in
             let allResults :=
               map (fun username =>
                      match findResult username cachedResults with
                      | Some cached => Some cached
                      | None => findResult username uncachedResults
                      end) usernames in
             ret (Status200
                    {| results := allResults;
                       rateLimit := {| i_remaining := remaining rateLimit;
                                       i_resetTime := rl_resetTime rateLimit;
                                       i_limit := if truthy githubToken then 5000 else 60 |};
                       cacheStats := {| cached := length cachedResults;
                                        validated := length uncachedResults;
                                        total := length usernames |};
                       methodUsed := if useGraphQL then MGraphql else MRest |})
     end)
    (fun error => ret (Status500 "Internal server error")).

End Batch.

(* ===================================================================== *)
(** ** The plain endpoint, [src/unnamed/part_000] *)
(* ===================================================================== *)

Module Plain.
Import Server.
Local Open Scope m_scope.

(** The [Authorization] header of this endpoint. *)
Definition tokenHeader (githubToken : option string) : option string :=
  match githubToken with
  | Some t => if Js.truthy t then Some ("token " +:+ t) else None
  | None => None
  end.

(** [{}] *)
Definition emptyObject : UserJson :=
  {| u_name := None; u_bio := None; u_public_repos := None; u_followers := None;
     u_following := None; u_created_at := None; u_message := None |}.

Definition validateGitHubUsername (remote : Remote) (username : string)
           (githubToken : option string) : M ValidationResult :=
  try_catch
    (sleep 2500 ;;
     let headers := tokenHeader githubToken in
     response <- fetch remote (GetUser username headers)
                       (fun n => getUser remote n username headers) ;;
     if status response =? 200 then
       userData <- json_of response ;;
       ret {| username := username; vstatus := Valid; error := None;
              profileData :=
                Some {| name := u_name userData; bio := u_bio userData;
                        public_repos := u_public_repos userData;
                        followers := u_followers userData;
                        following := u_following userData;
                        created_at := u_created_at userData |} |}
     else if status response =? 404 then
       ret {| username := username; vstatus := Deleted;
              error := Some "User not found or account deleted"; profileData := None |}
     else if status response =? 403 then
       (* Check if it's rate limiting or other forbidden access *)
       errorData <- try_catch (json_of response) (fun _ => ret emptyObject) ;;
       if match u_message errorData with
          | Some message => Js.truthy message && Js.includes "rate limit" message
          | None => false
          end
       then
         ret {| username := username; vstatus := Error;
                error := Some "Rate limit exceeded - please wait"; profileData := None |}
       else
         ret {| username := username; vstatus := Error;
                error := Some "Access forbidden - may be private or suspended account";
                profileData := None |}
     else
       ret {| username := username; vstatus := Error;
              error := Some ("HTTP " +:+ Js.of_Z (status response) +:+ ": "
                             +:+ statusText response);
              profileData := None |})
    (fun error =>
       ret {| username := username; vstatus := Error;
              error := Some (messageOf error); profileData := None |}).

End Plain.

(* ===================================================================== *)
(** ** The engagement endpoint,
       [src/app/api/check-repository-engagement/route.ts] *)
(* ===================================================================== *)

Module Engagement.
Import Server.
Local Open Scope m_scope.

(** The value [checkUserEngagement] resolves to. *)
Record Flags : Type := {
  hasStarred : bool;
  hasForked : bool;
  error : option string
}.

(** [UserEngagement] *)
Record UserEngagement : Type := {
  username : string;
  u_hasStarred : bool;
  u_hasForked : bool;
  u_error : option string
}.

Definition bearer (token : option string) : option string :=
  match token with
  | Some t => if Js.truthy t then Some ("Bearer " +:+ t) else None
  | None => None
  end.

(** [x?.toLowerCase() === y.toLowerCase()] *)
Definition sameName (x : option string) (y : string) : bool :=
  match x with
  | Some x => String.eqb (Js.toLowerCase x) (Js.toLowerCase y)
  | None => false
  end.

Definition starredMatches (targetOwner targetRepo : string) (r : StarredRepo) : bool :=
  sameName (s_owner_login r) targetOwner && sameName (s_name r) targetRepo.

Definition forkMatches (targetOwner targetRepo : string) (r : ForkRepo) : bool :=
  f_fork r
  && match f_parent r with
     | Some parent =>
         sameName (p_owner_login parent) targetOwner
         && sameName (p_name parent) targetRepo
     | None => false
     end.

Definition checkUserEngagement (remote : Remote) (username targetOwner targetRepo : string)
           (token : option string) : M Flags :=
  let headers := bearer token in
  try_catch
    ((* Check starred repos *)
     hasStarred <-
       try_catch
         (starredRes <- fetch remote (GetStarred username headers)
                              (fun n => getStarred remote n username headers) ;;
          if ok starredRes then
            repos <- json_of starredRes ;;
            ret (existsb (starredMatches targetOwner targetRepo) repos)
          else ret false)
         (fun err => ret false) ;;
     (* Check forked repos *)
     hasForked <-
       try_catch
         (reposRes <- fetch remote (GetForks username headers)
                            (fun n => getForks remote n username headers) ;;
          if ok reposRes then
            repos <- json_of reposRes ;;
            ret (existsb (forkMatches targetOwner targetRepo) repos)
          else ret false)
         (fun err => ret false) ;;
     ret {| hasStarred := hasStarred; hasForked := hasForked; error := None |})
    (fun error =>
       ret {| hasStarred := false; hasForked := false;
              error := Some (messageOf error) |}).

(** The callback of [batch.map] in [checkUsersEngagementREST]. *)
Definition engagementOf (remote : Remote) (targetOwner targetRepo : string)
           (token : option string) (u : string) : M UserEngagement :=
  try_catch
    (r <- checkUserEngagement remote u targetOwner targetRepo token ;;
     ret {| username := u; u_hasStarred := hasStarred r;
            u_hasForked := hasForked r; u_error := error r |})
    (fun err =>
       ret {| username := u; u_hasStarred := false; u_hasForked := false;
              u_error := Some (messageOf err) |}).

(** One promise of [Promise.allSettled]: its value when fulfilled. *)
Definition settled {A : Type} (m : M A) : M (option A) :=
  try_catch (a <- m ;; ret (Some a)) (fun _ => ret None).

(** The loop [for (let i = 0; ...; i += batchSize)] over the slices. *)
Fixpoint engagementBatches (remote : Remote) (targetOwner targetRepo : string)
         (token : option string) (delayMs : Z)
         (batches : list (list string)) (results : list UserEngagement)
  : M (list UserEngagement) :=
  match batches with
  | [] => ret results
  | batch :: rest =>
      batchResults <-
        mapM (fun u => settled (engagementOf remote targetOwner targetRepo token u)) batch ;;
      let results := (results ++ omap id batchResults)%list in
      match rest with
      | [] => ret tt
      | _ => sleep delayMs
      end ;;
      engagementBatches remote targetOwner targetRepo token delayMs rest results
  end.

Definition checkUsersEngagementREST (remote : Remote) (usernames : list string)
           (targetOwner targetRepo : string) (token : option string)
  : M (list UserEngagement) :=
  let batchSize := if truthy token then 20%nat else 5%nat in
  let delayMs := if truthy token then 300 else 1000 in
  engagementBatches remote targetOwner targetRepo token delayMs
                    (chunksOf batchSize usernames) [].

End Engagement.

(* ===================================================================== *)
(** ** The handler of the plain endpoint, [src/unnamed/part_000]

    This module has a [rateLimitMap] of its own: a [State] is here the
    state of this module (its limiter map, the clock and the request log;
    it has no cache). *)
(* ===================================================================== *)

Module PlainRoute.
Import Server.
Local Open Scope m_scope.

Record ValidationRequest : Type := {
  usernames : option (list string);
  githubToken : option string
}.

Record Request : Type := {
  x_forwarded_for : option string;
  body : Json ValidationRequest
}.

Record RateLimitCheck : Type := {
  allowed : bool;
  remaining : Z;
  rl_resetTime : Z
}.

(** The conservative limiter: 30 requests per hour. *)
Definition checkRateLimit (ip : string) : M RateLimitCheck :=
  now <- Date_now ;;
  s <- get ;;
  let limit := rateLimitMap s !! ip in
  let startWindow : M RateLimitCheck :=
    let resetTime := now + 60 * 60 * 1000 in
    modify (set_rateLimitMap <[ip := {| count := 1; resetTime := resetTime |}]>) ;;
    ret {| allowed := true; remaining := 29; rl_resetTime := resetTime |} in
  match limit with
  | None => startWindow
  | Some limit =>
      if now >? resetTime limit then startWindow
      else if count limit >=? 30 then
        ret {| allowed := false; remaining := 0; rl_resetTime := resetTime limit |}
      else
        let count' := count limit + 1 in
        modify (set_rateLimitMap
                  <[ip := {| count := count'; resetTime := resetTime limit |}]>) ;;
        ret {| allowed := true; remaining := 30 - count';
               rl_resetTime := resetTime limit |}
  end.

(** The body of the 200 reply. *)
Record Reply : Type := {
  results : list ValidationResult;
  r_remaining : Z;
  r_resetTime : Z
}.

Inductive HttpResponse : Type :=
| Status200 (reply : Reply)
| Status400 (error : string)
| Status429 (error : string) (resetTime : Z) (remaining : Z)
| Status500 (error : string).

(** [request.headers.get('x-forwarded-for') || "unknown"] *)
Definition ipOf (request : Request) : string :=
  match x_forwarded_for request with
  | Some ip => if Js.truthy ip then ip else "unknown"
  | None => "unknown"
  end.

(** [POST]: the limiter is consulted first, then the body is read. *)
Definition POST (remote : Remote) (request : Request) : M HttpResponse :=
  try_catch
    (let ip := ipOf request in
     rateLimit <- checkRateLimit ip ;;
     if negb (allowed rateLimit) then
       ret (Status429 "Rate limit exceeded. Please try again later."
                      (rl_resetTime rateLimit) (remaining rateLimit))
     else
       body <- await_json (body request) ;;
       match usernames body with
       | None | Some [] =>
           ret (Status400 "Invalid request: usernames array is required")
       | Some usernames =>
           if (20 <? length usernames)%nat then
             ret (Status400 "Too many usernames. Maximum 20 per request.")
           else
             results <- mapM (fun username =>
                                Plain.validateGitHubUsername remote username
                                                             (githubToken body))
                             usernames ;;
             ret (Status200
                    {| results := results;
                       r_remaining := remaining rateLimit - Z.of_nat (length usernames);
                       r_resetTime := rl_resetTime rateLimit |})
       end)
    (fun error => ret (Status500 "Internal server error")).

End PlainRoute.

(* ===================================================================== *)
(** ** The rest of the engagement endpoint,
       [src/app/api/check-repository-engagement/route.ts] *)
(* ===================================================================== *)

Module EngagementRoute.
Import Server Regex Engagement.
Local Open Scope m_scope.

Record RepositoryRef : Type := {
  owner : string;
  repo : string
}.

(** [[^/]] *)
Definition notSlash (c : ascii) : bool := negb (Js.code c =? 47)%nat.

(** [[^/]+] *)
Definition segment_re : regex := Plus (Class notSlash).

(** [/github\.com\/([^/]+)\/([^/]+)/].  The matcher records one group:
    the two groups of the pattern are read by two runs of it, one with
    the first group marked and one with the second (marking a group does
    not change what the pattern matches). *)
Definition repositoryUrl_group1 : regex :=
  Client.Cat [Word "github.com/"; Group segment_re; Lit "/"; segment_re].

Definition repositoryUrl_group2 : regex :=
  Client.Cat [Word "github.com/"; segment_re; Lit "/"; Group segment_re].

(** [/\.git$/] *)
Definition dotGit_re : regex := Client.Cat [Word ".git"; Eol].

Definition parseRepositoryUrl (url : string) : option RepositoryRef :=
  match exec false repositoryUrl_group1 url, exec false repositoryUrl_group2 url with
  | Some (Found _ _ (Some g1)), Some (Found _ _ (Some g2)) =>
      Some {| owner := Js.str g1;
              repo := remove_first false dotGit_re (Js.str g2) |}
  | _, _ => None
  end.

(** The nodes of the GraphQL engagement reply, with the shape fixed by
    the selection set of the query. *)
Record ParentNode : Type := {
  pn_name : string;
  pn_owner_login : string
}.

Record RepositoryNode : Type := {
  rn_name : string;
  rn_owner_login : string;
  rn_parent : option ParentNode
}.

Record EngagementNode : Type := {
  en_login : string;
  en_starred : list string;             (* nameWithOwner of the starred nodes *)
  en_repositories : list RepositoryNode
}.

Record EngagementBody : Type := {
  eb_data : option (gmap string EngagementNode)
}.

(** The remote side of this endpoint: the REST calls of [Remote], and
    the answer to the [n]-th request when it is an engagement query. *)
Record EngagementRemote : Type := {
  rest : Remote;
  postEngagement : nat -> list string -> string -> Fetched EngagementBody
}.

(** The callback of [batch.map((username, idx) => ...)]. *)
Definition graphqlEngagement (targetRepoName : string) (data : EngagementBody)
           (idx : nat) (username : string) : UserEngagement :=
  match eb_data data ≫= (fun d => d !! ("user" +:+ Js.of_nat idx)) with
  | None =>
      {| username := username; u_hasStarred := false; u_hasForked := false;
         u_error := Some "User not found" |}
  | Some userData =>
      {| username := username;
         u_hasStarred :=
           existsb (fun nameWithOwner =>
                      String.eqb (Js.toLowerCase nameWithOwner) targetRepoName)
                   (en_starred userData);
         u_hasForked :=
           existsb (fun r =>
                      match rn_parent r with
                      | Some parent =>
                          String.eqb
                            (Js.toLowerCase (pn_owner_login parent +:+ "/" +:+ pn_name parent))
                            targetRepoName
                      | None => false
                      end)
                   (en_repositories userData);
         u_error := None |}
  end.

(** The task of one batch in [checkUsersEngagementGraphQL]; the request
    goes to the GraphQL endpoint and is logged as [PostGraphQL]. *)
Definition engagementBatch (remote : EngagementRemote) (batch : list string)
           (targetOwner targetRepo token : string) : M (list UserEngagement) :=
  try_catch
    (res <- fetch (rest remote) (PostGraphQL batch token)
                  (fun n => postEngagement remote n batch token) ;;
     if negb (ok res) then
       checkUsersEngagementREST (rest remote) batch targetOwner targetRepo (Some token)
     else
       data <- json_of res ;;
       let targetRepoName := Js.toLowerCase (targetOwner +:+ "/" +:+ targetRepo) in
       ret (imap (graphqlEngagement targetRepoName data) batch))
    (fun err =>
       checkUsersEngagementREST (rest remote) batch targetOwner targetRepo (Some token)).

(** [checkUsersEngagementGraphQL].  The tasks of the batches run under
    [pLimit(5)]; [Promise.all] returns their arrays in batch order
    whatever the interleaving, and the tasks share no variable, so the
    model runs them one after the other. *)
Definition checkUsersEngagementGraphQL (remote : EngagementRemote)
           (usernames : list string) (targetOwner targetRepo token : string)
  : M (list UserEngagement) :=
  let chunkSize := 30%nat in
  let batches := chunksOf chunkSize usernames in
  settled <- mapM (fun batch => engagementBatch remote batch targetOwner targetRepo token)
                  batches ;;
  ret (concat settled).

Record RepositoryEngagementRequest : Type := {
  repositoryUrl : option string;
  usernames : option (list string);
  githubToken : option string
}.

Record Summary : Type := {
  totalUsers : nat;
  starred : nat;
  forked : nat;
  errors : nat
}.

Record RepositoryEngagementResponse : Type := {
  repository : RepositoryRef;
  url : string;
  users : list UserEngagement;
  summary : Summary
}.

Inductive HttpResponse : Type :=
| Status200 (reply : RepositoryEngagementResponse)
| Status400 (error : string)
| Status500 (error : string) (details : string).

(** [users.filter(p).length] *)
Definition countIf (p : UserEngagement -> bool) (users : list UserEngagement) : nat :=
  length (List.filter p users).

Definition summaryOf (users : list UserEngagement) : Summary :=
  {| totalUsers := length users;
     starred := countIf u_hasStarred users;
     forked := countIf u_hasForked users;
     errors := countIf (fun u => truthy (u_error u)) users |}.

Definition POST (remote : EngagementRemote) (request : Json RepositoryEngagementRequest)
  : M HttpResponse :=
  try_catch
    (body <- await_json request ;;
     match repositoryUrl body, usernames body with
     | Some repositoryUrl, Some (u0 :: us) =>
         if negb (Js.truthy repositoryUrl) then
           ret (Status400 "Repository URL and usernames array are required")
         else
           let usernames := u0 :: us in
           match parseRepositoryUrl repositoryUrl with
           | None =>
               ret (Status400 ("Invalid GitHub repository URL: " +:+ repositoryUrl))
           | Some parsed =>
               users <-
                 match githubToken body with
                 | Some token =>
                     if Js.truthy token && (length usernames <=? 100)%nat then
                       try_catch
                         (checkUsersEngagementGraphQL remote usernames
                                                      (owner parsed) (repo parsed) token)
                         (fun err =>
                            checkUsersEngagementREST (rest remote) usernames
                                                     (owner parsed) (repo parsed)
                                                     (githubToken body))
                     else
                       checkUsersEngagementREST (rest remote) usernames
                                                (owner parsed) (repo parsed)
                                                (githubToken body)
                 | None =>
                     checkUsersEngagementREST (rest remote) usernames
                                              (owner parsed) (repo parsed)
                                              (githubToken body)
                 end ;;
               ret (Status200 {| repository := parsed; url := repositoryUrl;
                                 users := users; summary := summaryOf users |})
           end
     | _, _ => ret (Status400 "Repository URL and usernames array are required")
     end)
    (fun error => ret (Status500 "Internal server error" (messageOf error))).

End EngagementRoute.

(* ===================================================================== *)
(** ** The validation round of [src/app/page.tsx]
       ([validateSpecificUsernames], lines 402-608) *)
(* ===================================================================== *)

Module ControlLoop.
Import Client.

(** [usernames.length >= 10 || githubToken.trim()] *)
Definition useBatchAPI (usernames : list string) (githubToken : string) : bool :=
  (10 <=? length usernames)%nat || Js.truthy (Js.trim githubToken).

(** The [requestBody] sent to the batch endpoint, as the endpoint reads
    it back from JSON. *)
Definition requestBody (usernames : list string) (githubToken : string)
  : Batch.ValidationRequest :=
  {| Batch.usernames := Some usernames;
     Batch.githubToken :=
       if Js.truthy (Js.trim githubToken) then Some (Js.trim githubToken) else None;
     Batch.method :=
       Some (if Js.truthy (Js.trim githubToken) then Batch.MAuto else Batch.MRest) |}.

(** [usernames.includes(h)] *)
Definition includes (h : string) (usernames : list string) : bool :=
  existsb (String.eqb h) usernames.

(** The [repositoryEngagement] computed for a record whose result was
    found; [data] is [repositoryEngagementData.users] or [null]. *)
Definition engagementFor (data : option (list Engagement.UserEngagement))
           (repositoryUrl : string) (result : Server.ValidationResult) (h : string)
  : option RepositoryEngagement :=
  match data with
  | Some engagementUsers =>
      if Status_eqb (Server.vstatus result) Valid then
        match List.find (fun u => String.eqb (Js.toLowerCase (Engagement.username u))
                                             (Js.toLowerCase h))
                        engagementUsers with
        | Some engagementUser =>
            Some {| hasStarred := Engagement.u_hasStarred engagementUser;
                    hasFork := Engagement.u_hasForked engagementUser;
                    repositoryUrl := Js.trim repositoryUrl |}
        | None => None
        end
      else None
  | None => None
  end.

(** The callback of [prev.map] in the updater passed to
    [setProcessedUsers] after a batch round (lines 570-599). *)
Definition mergeResult (usernames : list string)
           (results : list Server.ValidationResult)
           (data : option (list Engagement.UserEngagement)) (repositoryUrl : string)
           (user : ProcessedUser) : ProcessedUser :=
  match truthyHandle (username user) with
  | Some h =>
      if includes h usernames then
        match Batch.findResult h results with
        | Some result =>
            {| originalValue := originalValue user;
               username := username user;
               status := Server.vstatus result;
               error := Server.error result;
               index := index user;
               profileData := Server.profileData result;
               repositoryEngagement := engagementFor data repositoryUrl result h |}
        | None => user
        end
      else user
  | None => user
  end.

Definition mergeResults (usernames : list string)
           (results : list Server.ValidationResult)
           (data : option (list Engagement.UserEngagement)) (repositoryUrl : string)
           (prev : list ProcessedUser) : list ProcessedUser :=
  map (mergeResult usernames results data repositoryUrl) prev.

(** [Math.min(300000, 30000 * Math.pow(2, Math.min(i, 4)))]: the pause
    before chunk [i] is sent again after a 429. *)
Definition waitTime (i : nat) : Z :=
  Z.min 300000 (30000 * 2 ^ Z.of_nat (Nat.min i 4)).

(** The chunks of the plain path: [chunkSize = 20]. *)
Definition plainChunks (usernames : list string) : list (list string) :=
  Server.chunksOf 20 usernames.

(** The [requestBody] of one chunk of the plain path. *)
Definition plainRequestBody (chunk : list string) (githubToken : string)
  : PlainRoute.ValidationRequest :=
  {| PlainRoute.usernames := Some chunk;
     PlainRoute.githubToken :=
       if Js.truthy (Js.trim githubToken) then Some (Js.trim githubToken) else None |}.

(** [failedUsers] of [retryFailedUsernames]. *)
Definition failedUsers (processedUsers : list ProcessedUser) : list ProcessedUser :=
  List.filter (fun user =>
                 Status_eqb (status user) Error
                 && match truthyHandle (username user) with Some _ => true | None => false end
                 && match error user with
                    | Some e => Js.includes "Rate limit exceeded" e
                    | None => false
                    end)
              processedUsers.

(** The updater of [retryFailedUsernames]: records with the handle of a
    failed record go back to [pending]. *)
Definition markForRetry (prev : list ProcessedUser) : list ProcessedUser :=
  let failed := failedUsers prev in
  map (fun user =>
         if existsb (fun f => match username f, username user with
                              | Some a, Some b => String.eqb a b
                              | None, None => true
                              | _, _ => false
                              end) failed
         then {| originalValue := originalValue user; username := username user;
                 status := Pending; error := None; index := index user;
                 profileData := profileData user;
                 repositoryEngagement := repositoryEngagement user |}
         else user)
      prev.

End ControlLoop.

(* ===================================================================== *)
(** * Specification vocabulary

    Invariants, observations on runs and the example inputs used below. *)
(* ===================================================================== *)

Module ClientSpec.
Import Client.

(** The in-place update of [markFirstOccurrence]. *)
Definition mark (u : ProcessedUser) : ProcessedUser :=
  if Status_eqb (status u) Pending then set_duplicate u else u.

(** The cell of row [i] that [processUsernames] reads. *)
Definition valueAt (columnIndex : nat) (rows : list (list string)) (i : nat)
  : option string :=
  (fun row => nth columnIndex row "") <$> rows !! i.

(** The invariant of the loop of [processUsernames] after [k] rows:
    records are numbered by position and copy their row; [seenUsernames]
    maps the lower-cased handle of every record to its first occurrence;
    a record that is not the first occurrence is [duplicate], and so is
    the first occurrence by then. *)
Record Inv (columnIndex : nat) (rows : list (list string)) (k : nat) (st : Pass)
  : Prop := {
  inv_length : length (users st) = k;
  inv_record : forall i u, users st !! i = Some u ->
    index u = i /\
    exists v, valueAt columnIndex rows i = Some v /\ originalValue u = v
              /\ username u = extractUsername v;
  inv_seen : forall i u h, users st !! i = Some u -> truthyHandle (username u) = Some h ->
    exists f, seenUsernames st !! Js.toLowerCase h = Some f /\ (f <= i)%nat /\
      ((f < i)%nat -> status u = Duplicate /\
               exists u0, users st !! f = Some u0 /\ status u0 = Duplicate);
  inv_first : forall l f, seenUsernames st !! l = Some f ->
    exists u0 h0, users st !! f = Some u0 /\ truthyHandle (username u0) = Some h0
                  /\ Js.toLowerCase h0 = l
                  /\ (status u0 = Pending \/ status u0 = Duplicate)
}.

(** The invariant of the first loop of [processManualInput] after [k]
    lines: every handle seen is in [seenUsernames], and a handle seen
    twice is in [duplicateUsernames]. *)
Record InvM (lines : list string) (k : nat) (st : Pass) : Prop := {
  invm_length : length (users st) = k;
  invm_record : forall i u, users st !! i = Some u ->
    index u = i /\
    exists line, lines !! i = Some line /\ originalValue u = Js.trim line
                 /\ username u = extractUsername (Js.trim line);
  invm_seen : forall i u h, users st !! i = Some u -> truthyHandle (username u) = Some h ->
    Js.toLowerCase h ∈ dom (seenUsernames st);
  invm_dups : forall i j ui uj hi hj, (i < j)%nat ->
    users st !! i = Some ui -> users st !! j = Some uj ->
    truthyHandle (username ui) = Some hi -> truthyHandle (username uj) = Some hj ->
    Js.toLowerCase hi = Js.toLowerCase hj ->
    Js.toLowerCase hj ∈ duplicateUsernames st
}.

(** The record lists either entry point hands to [setProcessedUsers]. *)
Definition processed (us : list ProcessedUser) : Prop :=
  (exists data selectedColumn p,
      processUsernames (Some data) selectedColumn = Some p /\ us = users p)
  \/ (exists manualInput, processManualInput manualInput = Some us).

End ClientSpec.

Module ServerSpec.
Import Server.

(** The part of the state a remote call cannot touch. *)
Definition same_maps (s s' : State) : Prop :=
  validationCache s' = validationCache s /\ rateLimitMap s' = rateLimitMap s.

(** The verdicts a validation pass can produce. *)
Definition terminal (r : ValidationResult) : Prop :=
  vstatus r = Valid \/ vstatus r = Deleted \/ vstatus r = Error.

(** An entry filed under the handle of its result, holding a verdict. *)
Definition entry_ok (k : string) (e : CacheEntry) : Prop :=
  username (result e) = k /\ terminal (result e).

(** The cache invariant: it holds for the empty cache and [POST] keeps
    it. *)
Definition cache_wf (s : State) : Prop :=
  forall k e, validationCache s !! k = Some e -> entry_ok k e.

(** The last result for handle [u] in a list of results. *)
Definition latest (u : string) (rs : list ValidationResult) : option ValidationResult :=
  last (filter (fun r => username r = u) rs).

(** The state after the request [c] was sent and answered. *)
Definition sent (remote : Remote) (c : Call) (s : State) : State :=
  tick (latency remote (length (calls s))) (log c s).

(** What [getCachedResult] finds: the result of a fresh entry. *)
Definition freshResult (s : State) (u : string) : option ValidationResult :=
  match validationCache s !! u with
  | Some e => if clock s - timestamp e <? Batch.CACHE_DURATION then Some (result e) else None
  | None => None
  end.

(** A later state keeps the old cache entries or files new ones under the
    handle of their result. *)
Definition cache_grows (s s' : State) : Prop :=
  forall k e, validationCache s' !! k = Some e ->
              validationCache s !! k = Some e \/ entry_ok k e.

End ServerSpec.

Module BatchSpec.
Import Server ServerSpec Batch.
Local Open Scope m_scope.

(** The entry [setCachedResult] writes at time [now]. *)
Definition stored (now : Z) (r : ValidationResult) : CacheEntry :=
  {| result := r; timestamp := now |}.

(** The cache after a run of [cacheAll]. *)
Definition cachedAll (now : Z) (rs : list ValidationResult)
           (c : gmap string CacheEntry) : gmap string CacheEntry :=
  foldl (fun c r => <[username r := stored now r]> c) c rs.

(** What one GraphQL request resolves to, as a function of the answer. *)
Definition graphqlOutcome (remote : Remote) (us : list string) (tok : string) (n : nat)
  : Outcome (list ValidationResult) :=
  match postGraphQL remote n us tok with
  | Rejected e => Threw e
  | Resolved r =>
      if ok r then
        match json r with
        | JsonThrows e => Threw e
        | JsonValue body => Returned (imap (graphqlResult body) us)
        end
      else Threw (ErrorObject ("GraphQL request failed: " +:+ Js.of_Z (status r)))
  end.

(** The block "REST, then cache every result" that is the REST branch
    and the fallback of [POST]. *)
Definition restAndCache (remote : Remote) (us : list string) (tok : option string)
  : M (list ValidationResult) :=
  uncachedResults <- validateUsernamesREST remote us tok 20 ;;
  cacheAll uncachedResults ;;
  ret uncachedResults.

(** The test of line 298: the path the orchestrator runs first. *)
Definition batchPathTaken (method : Method) (tok : option string) (misses : nat) : bool :=
  useGraphQL method tok misses && truthy tok.

(** The arrays [cachedResults] and [uncachedUsernames] of a request. *)
Definition hitsOf (s : State) (us : list string) : list ValidationResult :=
  omap (freshResult s) us.

Definition missesOf (s : State) (us : list string) : list string :=
  filter (fun u => freshResult s u = None) us.

(** The array [allResults]. *)
Definition allResultsOf (us : list string)
           (cachedResults uncachedResults : list ValidationResult)
  : list (option ValidationResult) :=
  map (fun u => match findResult u cachedResults with
                | Some cached => Some cached
                | None => findResult u uncachedResults
                end) us.

(** The body of the 200 reply. *)
Definition replyOf (b : ValidationRequest) (us : list string) (rl : RateLimitCheck)
           (cachedResults uncachedResults : list ValidationResult) (flag : bool)
  : ValidationResponse :=
  {| results := allResultsOf us cachedResults uncachedResults;
     rateLimit := {| i_remaining := remaining rl; i_resetTime := rl_resetTime rl;
                     i_limit := if truthy (githubToken b) then 5000 else 60 |};
     cacheStats := {| cached := length cachedResults;
                      validated := length uncachedResults;
                      total := length us |};
     methodUsed := if flag then MGraphql else MRest |}.

(** The states the batch endpoint can be in: it starts with an empty
    cache, serves requests, and time passes. *)
Inductive served (remote : Remote) : State -> Prop :=
| served_start s : validationCache s = ∅ -> served remote s
| served_POST s request : served remote s -> served remote (POST remote request s).2
| served_wait s ms : served remote s -> served remote (tick ms s).

(** The statement of the specification on cache hits: a request whose
    handles are all fresh cache hits sends nothing and leaves the limiter
    alone. *)
Definition hits_leave_quota_untouched : Prop :=
  forall remote request b us s,
    body request = JsonValue b -> usernames b = Some us ->
    (forall u, u ∈ us -> is_Some (freshResult s u)) ->
    calls (POST remote request s).2 = calls s
    /\ rateLimitMap (POST remote request s).2 = rateLimitMap s.

(** The rule of the specification for the strategy: batch exactly when
    the method is ["graphql"], or it is ["auto"] with credentials and at
    least ten misses. *)
Definition claimedBatch (method : Method) (credentials : bool) (missCount : nat) : bool :=
  match method with
  | MGraphql => true
  | MAuto => credentials && (10 <=? missCount)%nat
  | MRest => false
  end.

(** The statement of the specification: the first request sent for the
    misses follows that rule. *)
Definition strategy_follows_rule : Prop :=
  forall remote method tok u0 rest s,
    exists l,
      calls (validateUncached remote method tok (u0 :: rest) s).2
      = (calls s
         ++ (if claimedBatch method (truthy tok) (length (u0 :: rest))
             then PostGraphQL (take 100 (u0 :: rest)) (default "" tok)
             else GetUser u0 (bearer tok)) :: l)%list.

(** The reply lists an error of type [NOT_FOUND] whose path starts with
    the alias. *)
Definition flaggedNotFound (alias : string) (body : GqlBody) : Prop :=
  exists err rest,
    err ∈ default [] (errors body)
    /\ e_path err = Some (alias :: rest) /\ e_type err = Some "NOT_FOUND".

(** The 403 body speaks of a rate limit, as the plain endpoint reads it. *)
Definition rateLimitMessage (resp : Response UserJson) : bool :=
  match json resp with
  | JsonValue d =>
      match u_message d with
      | Some message => Js.truthy message && Js.includes "rate limit" message
      | None => false
      end
  | JsonThrows _ => false
  end.

End BatchSpec.

Module EngagementSpec.
Import Server Engagement.

(** The list a call yields when it succeeds: [None] for a rejected
    fetch, a non-2xx status or a body that does not parse. *)
Definition listed {A : Type} (f : Fetched A) : option A :=
  match f with
  | Resolved r =>
      if ok r then
        match json r with
        | JsonValue a => Some a
        | JsonThrows _ => None
        end
      else None
  | Rejected _ => None
  end.

(** The statement of the specification: a handle whose two calls both
    fault gets an [error] field. *)
Definition both_faults_carry_error : Prop :=
  forall remote targetOwner targetRepo tok u s e1 e2,
    getStarred remote (length (calls s)) u (bearer tok) = Rejected e1 ->
    getForks remote (S (length (calls s))) u (bearer tok) = Rejected e2 ->
    exists r s',
      engagementOf remote targetOwner targetRepo tok u s = (Returned r, s')
      /\ is_Some (u_error r).

End EngagementSpec.

(* ===================================================================== *)
(** * Example inputs *)
(* ===================================================================== *)

Module Scenario.
Import Client.

Definition tooLong : string := "this_is_way_too_long_to_be_a_valid_handle_over_39_chars".

Definition inputList : list string := ["octocat"; "OCTOCAT"; tooLong].

(** The input list as one column of an uploaded file. *)
Definition asFile : ParsedData :=
  {| headers := ["username"]; rows := map (fun v => [v]) inputList |}.

Definition newline : string := String (ascii_of_nat 10) EmptyString.

(** The input list as text typed into the manual input, one per line. *)
Definition asText : string := "octocat" +:+ newline +:+ "OCTOCAT" +:+ newline +:+ tooLong.

(** The records [processUsernames] builds for the file. *)
Definition fileRecords : list ProcessedUser :=
  match processUsernames (Some asFile) "username" with
  | Some p => users p
  | None => []
  end.

(** The scenario as the specification words it: the first record is
    [pending] (and goes on to validation), the second [duplicate], the
    third [invalid]. *)
Definition scenario_as_specified : Prop :=
  map status fileRecords = [Pending; Duplicate; Invalid].

End Scenario.

Module Demo.
Import Server Batch.

Definition emptyState : State :=
  {| validationCache := ∅; rateLimitMap := ∅; clock := 0; calls := [] |}.

(** A remote side that is unreachable: every request is rejected. *)
Definition unreachable : Remote :=
  {| getUser := fun _ _ _ => Rejected (ErrorObject "fetch failed");
     postGraphQL := fun _ _ _ => Rejected (ErrorObject "fetch failed");
     getStarred := fun _ _ _ => Rejected (ErrorObject "fetch failed");
     getForks := fun _ _ _ => Rejected (ErrorObject "fetch failed");
     latency := fun _ => 0 |}.

Definition requestOf (us : list string) (tok : option string) (m : option Method) : Request :=
  {| x_forwarded_for := None;
     body := JsonValue {| usernames := Some us; githubToken := tok; method := m |} |}.

Definition torvalds : ValidationResult :=
  {| username := "torvalds"; vstatus := Valid; error := None; profileData := None |}.

(** A cache seeded with a verdict for [torvalds], one second old. *)
Definition seeded : State :=
  {| validationCache := {["torvalds" := {| result := torvalds; timestamp := 0 |}]};
     rateLimitMap := ∅; clock := 1000; calls := [] |}.

(** A remote side whose GraphQL endpoint is down (502) while the REST
    endpoint knows [octocat] and nobody else. *)
Definition graphqlDown : Remote :=
  {| getUser := fun _ u _ =>
       if String.eqb u "octocat" then
         Resolved {| status := 200; statusText := "OK";
                     json := JsonValue {| u_name := Some "The Octocat"; u_bio := None;
                                          u_public_repos := Some 8; u_followers := Some 9;
                                          u_following := Some 9;
                                          u_created_at := Some "2011-01-25T18:44:36Z";
                                          u_message := None |} |}
       else
         Resolved {| status := 404; statusText := "Not Found";
                     json := JsonValue {| u_name := None; u_bio := None;
                                          u_public_repos := None; u_followers := None;
                                          u_following := None; u_created_at := None;
                                          u_message := Some "Not Found" |} |};
     postGraphQL := fun _ _ _ =>
       Resolved {| status := 502; statusText := "Bad Gateway";
                   json := JsonThrows (ErrorObject "Unexpected token <") |};
     getStarred := fun _ _ _ => Rejected (ErrorObject "fetch failed");
     getForks := fun _ _ _ => Rejected (ErrorObject "fetch failed");
     latency := fun _ => 40 |}.

(** A remote side that answers the first GraphQL request (with no user
    found) and rejects every later request. *)
Definition secondChunkFails : Remote :=
  {| getUser := fun _ _ _ => Rejected (ErrorObject "fetch failed");
     postGraphQL := fun n _ _ =>
       match n with
       | O => Resolved {| status := 200; statusText := "OK";
                          json := JsonValue {| data := Some ∅; errors := None |} |}
       | _ => Rejected (ErrorObject "socket hang up")
       end;
     getStarred := fun _ _ _ => Rejected (ErrorObject "fetch failed");
     getForks := fun _ _ _ => Rejected (ErrorObject "fetch failed");
     latency := fun _ => 0 |}.

(** 101 distinct handles: [u0], ..., [u100]. *)
Definition handles101 : list string :=
  map (fun i => "u" +:+ Js.of_nat i) (seq 0 101).


Definition octocatNode : GqlUser :=
  {| g_login := "octocat"; g_name := Some "The Octocat"; g_bio := None;
     g_repositories_totalCount := 8; g_followers_totalCount := 9;
     g_following_totalCount := 9; g_createdAt := "2011-01-25T18:44:36Z" |}.

(** A GraphQL reply for three aliases: [user0] has data, [user1] is
    reported [NOT_FOUND], [user2] is [null] without an error. *)
Definition mixedReply : GqlBody :=
  {| data := Some {[ "user0" := octocatNode ]};
     errors := Some [ {| e_message := Some "Could not resolve to a User";
                         e_path := Some ["user1"]; e_type := Some "NOT_FOUND" |} ] |}.

Definition mixedRemote : Remote :=
  {| getUser := fun _ _ _ => Rejected (ErrorObject "fetch failed");
     postGraphQL := fun _ _ _ =>
       Resolved {| status := 200; statusText := "OK"; json := JsonValue mixedReply |};
     getStarred := fun _ _ _ => Rejected (ErrorObject "fetch failed");
     getForks := fun _ _ _ => Rejected (ErrorObject "fetch failed");
     latency := fun _ => 0 |}.

(** The answer 403 whose message does not speak of a rate limit. *)
Definition forbiddenResponse : Response UserJson :=
  {| status := 403; statusText := "Forbidden";
     json := JsonValue {| u_name := None; u_bio := None; u_public_repos := None;
                          u_followers := None; u_following := None;
                          u_created_at := None;
                          u_message := Some "Repository access blocked" |} |}.

Definition forbidden : Remote :=
  {| getUser := fun _ _ _ => Resolved forbiddenResponse;
     postGraphQL := fun _ _ _ => Rejected (ErrorObject "fetch failed");
     getStarred := fun _ _ _ => Rejected (ErrorObject "fetch failed");
     getForks := fun _ _ _ => Rejected (ErrorObject "fetch failed");
     latency := fun _ => 0 |}.

End Demo.

(* ===================================================================== *)
(** ** What the patterns match

    The language of a pattern, as a relation: [Match ci r pos w rest cap
    cap'] says that [r] matches the text [w] at offset [pos], with [rest]
    following it, and takes the capture from [cap] to [cap']. *)
(* ===================================================================== *)

Module RegexSpec.
Import Regex.

Inductive Match (ci : bool)
  : regex -> nat -> list ascii -> list ascii
    -> option (list ascii) -> option (list ascii) -> Prop :=
| MEps pos rest cap : Match ci Eps pos [] rest cap cap
| MLit c c' pos rest cap :
    same_char ci c c' = true -> Match ci (Lit c) pos [c'] rest cap cap
| MClass p c' pos rest cap :
    p c' = true -> Match ci (Class p) pos [c'] rest cap cap
| MAnyChar c' pos rest cap :
    line_terminator c' = false -> Match ci AnyChar pos [c'] rest cap cap
| MSeq r1 r2 pos w1 w2 rest cap cap1 cap2 :
    Match ci r1 pos w1 (w2 ++ rest) cap cap1 ->
    Match ci r2 (pos + length w1) w2 rest cap1 cap2 ->
    Match ci (Seq r1 r2) pos (w1 ++ w2) rest cap cap2
| MAltL r1 r2 pos w rest cap cap' :
    Match ci r1 pos w rest cap cap' -> Match ci (Alt r1 r2) pos w rest cap cap'
| MAltR r1 r2 pos w rest cap cap' :
    Match ci r2 pos w rest cap cap' -> Match ci (Alt r1 r2) pos w rest cap cap'
| MOptSome r pos w rest cap cap' :
    Match ci r pos w rest cap cap' -> Match ci (Opt r) pos w rest cap cap'
| MOptNone r pos rest cap : Match ci (Opt r) pos [] rest cap cap
| MStarNil r pos rest cap : Match ci (Star r) pos [] rest cap cap
| MStarCons r pos w1 w2 rest cap cap1 cap2 :
    w1 <> [] ->
    Match ci r pos w1 (w2 ++ rest) cap cap1 ->
    Match ci (Star r) (pos + length w1) w2 rest cap1 cap2 ->
    Match ci (Star r) pos (w1 ++ w2) rest cap cap2
| MPlus r pos w1 w2 rest cap cap1 cap2 :
    Match ci r pos w1 (w2 ++ rest) cap cap1 ->
    Match ci (Star r) (pos + length w1) w2 rest cap1 cap2 ->
    Match ci (Plus r) pos (w1 ++ w2) rest cap cap2
| MGroup r pos w rest cap cap1 :
    Match ci r pos w rest cap cap1 -> Match ci (Group r) pos w rest cap (Some w)
| MBol rest cap : Match ci Bol 0 [] rest cap cap
| MEol pos cap : Match ci Eol pos [] [] cap cap.

(** The loop of [run] for [r*] and [r+], by name. *)
Definition star_loop {R : Type} (ci : bool) (r : regex) (k : @cont R)
  : nat -> nat -> list ascii -> option (list ascii) -> option R :=
  fix loop (fuel : nat) (pos : nat) (s : list ascii)
           (cap : option (list ascii)) {struct fuel} : option R :=
    match fuel with
    | O => k pos s cap
    | S fuel' =>
        orelse
          (run ci r pos s cap
               (fun pos' s' cap' =>
                  if (pos <? pos')%nat then loop fuel' pos' s' cap' else None))
          (fun _ => k pos s cap)
    end.

(** The matcher is sound for [r]: a result comes from a match of [r]
    followed by a success of the continuation. *)
Definition sound_for {R : Type} (ci : bool) (r : regex) : Prop :=
  forall pos s cap (k : @cont R) x,
    run ci r pos s cap k = Some x ->
    exists w rest cap', s = (w ++ rest)%list /\ Match ci r pos w rest cap cap'
                        /\ k (pos + length w)%nat rest cap' = Some x.

(** [must c r]: every text [r] matches holds the character [c]. *)
Fixpoint must (ci : bool) (c : ascii) (r : regex) : bool :=
  match r with
  | Lit c0 => same_char ci c0 c
  | Seq r1 r2 => must ci c r1 || must ci c r2
  | Alt r1 r2 => must ci c r1 && must ci c r2
  | Plus r1 | Group r1 => must ci c r1
  | _ => false
  end.

(** The text [rest] does not go on with a character of the class [p]. *)
Definition stops (p : ascii -> bool) (rest : list ascii) : bool :=
  match rest with
  | [] => true
  | c :: _ => negb (p c)
  end.

(** GitHub's rule for a handle: 1 to 39 letters, digits or hyphens, no
    hyphen at either end. *)
Definition wellFormed (h : string) : bool :=
  match Js.chars h with
  | [] => false
  | c :: l =>
      alnum c && forallb alnum_dash l && alnum (List.last l c)
      && (length (c :: l) <=? 39)%nat
  end.

End RegexSpec.

Module EngagementRouteSpec.
Import Regex EngagementRoute.

(** A path segment: not empty, no slash. *)
Definition isSegment (s : string) : bool :=
  match Js.chars s with
  | [] => false
  | l => forallb notSlash l
  end.

(** The text the pattern of [parseRepositoryUrl] matches, whichever group
    is marked: [github.com/], an owner, a slash, a name. *)
Definition repositoryText (w o n : list ascii) : Prop :=
  w = (Js.chars "github.com/" ++ o ++ "/"%char :: n)%list
  /\ o <> [] /\ forallb notSlash o = true
  /\ n <> [] /\ forallb notSlash n = true.

(** [s.endsWith(".git") ? s.slice(0, -4) : s], what
    [s.replace(/\.git$/, "")] comes to. *)
Definition stripGit (s : string) : string :=
  let l := Js.chars s in
  let n := (length l - 4)%nat in
  if (4 <=? length l)%nat && bool_decide (drop n l = Js.chars ".git")
  then Js.str (take n l) else s.

End EngagementRouteSpec.

Module LimiterSpec.
Import Server.
Local Open Scope m_scope.

(** The length of a limiter window: one hour, in ms. *)
Definition window : Z := 60 * 60 * 1000.

(** Requests of one client, each after a pause (in ms) since the one
    before: what each check of the limiter answers. *)
Definition requestsAt {A : Type} (check : M A) (pauses : list Z) : M (list A) :=
  mapM (fun ms => sleep ms ;; check) pauses.

(** The answer to the check number [i] (from 0) of a window that ends at
    [resetTime], under a ceiling of [max] requests:
    (allowed, remaining, resetTime). *)
Definition admission (max resetTime : Z) (i : nat) : bool * Z * Z :=
  (Z.of_nat i <? max, Z.max 0 (max - (Z.of_nat i + 1)), resetTime).

Definition batchAnswer (c : Batch.RateLimitCheck) : bool * Z * Z :=
  (Batch.allowed c, Batch.remaining c, Batch.rl_resetTime c).

Definition plainAnswer (c : PlainRoute.RateLimitCheck) : bool * Z * Z :=
  (PlainRoute.allowed c, PlainRoute.remaining c, PlainRoute.rl_resetTime c).

(** The client [ip] has no open window at time [now]. *)
Definition noWindow (s : State) (ip : string) (now : Z) : Prop :=
  match rateLimitMap s !! ip with
  | None => True
  | Some e => resetTime e < now
  end.

End LimiterSpec.

Module RouteSpec.
Import Server.

(** The handles a request to GitHub names. *)
Definition handlesOf (c : Call) : list string :=
  match c with
  | GetUser u _ | GetStarred u _ | GetForks u _ => [u]
  | PostGraphQL us _ => us
  end.

(** The time the remote side takes to answer the [n] requests sent from
    request number [from] on. *)
Definition elapsed (remote : Remote) (from n : nat) : Z :=
  foldr (fun i acc => latency remote i + acc) 0 (seq from n).

(** The requests sent between two states. *)
Definition newCalls (s s' : State) : list Call := drop (length (calls s)) (calls s').

End RouteSpec.

Module RoundSpec.
Import Client ControlLoop.

(** How a record is classified: [invalid] when no handle could be read,
    [pending] or [duplicate] when one could. *)
Definition classified (u : ProcessedUser) : Prop :=
  match truthyHandle (username u) with
  | None => status u = Invalid
  | Some _ => status u = Pending \/ status u = Duplicate
  end.

(** The handle of a record was read from some text by
    [extractUsername]. *)
Definition extracted (u : ProcessedUser) : Prop :=
  exists v, username u = extractUsername v.

Definition recordOk (u : ProcessedUser) : Prop := extracted u /\ classified u.

(** The record at position [i] has a twin: another record whose handle
    is the same up to case. *)
Definition twin (us : list ProcessedUser) (i : nat) : Prop :=
  exists j u u' h h',
    j <> i /\ us !! i = Some u /\ us !! j = Some u'
    /\ truthyHandle (username u) = Some h /\ truthyHandle (username u') = Some h'
    /\ Js.toLowerCase h = Js.toLowerCase h'.

(** No record is flagged [duplicate] without a twin. *)
Definition duplicatesReal (us : list ProcessedUser) : Prop :=
  forall i u, us !! i = Some u -> status u = Duplicate -> twin us i.

(** The invariant of the first loop of [processManualInput] after [k]
    lines, for the flags: nothing is flagged yet, a handle in
    [seenUsernames] belongs to a record, a handle in
    [duplicateUsernames] to two. *)
Definition manualReal (k : nat) (st : Pass) : Prop :=
  length (users st) = k
  /\ (forall i u, users st !! i = Some u -> status u <> Duplicate)
  /\ (forall l, l ∈ dom (seenUsernames st) ->
        exists i u h, users st !! i = Some u /\ truthyHandle (username u) = Some h
                      /\ Js.toLowerCase h = l)
  /\ (forall l, l ∈ duplicateUsernames st ->
        exists i j ui uj hi hj,
          i <> j /\ users st !! i = Some ui /\ users st !! j = Some uj
          /\ truthyHandle (username ui) = Some hi /\ truthyHandle (username uj) = Some hj
          /\ Js.toLowerCase hi = l /\ Js.toLowerCase hj = l).

(** Two records are the same entry of the list: same text, same handle,
    same position. *)
Definition sameEntry (u u' : ProcessedUser) : Prop :=
  originalValue u' = originalValue u /\ username u' = username u /\ index u' = index u.

(** The test of [failedUsers]. *)
Definition isFailed (user : ProcessedUser) : bool :=
  Status_eqb (status user) Error
  && match truthyHandle (username user) with Some _ => true | None => false end
  && match error user with
     | Some e => Js.includes "Rate limit exceeded" e
     | None => false
     end.

(** [{ ...user, status: "pending", error: undefined }] *)
Definition backToPending (user : ProcessedUser) : ProcessedUser :=
  {| originalValue := originalValue user; username := username user;
     status := Pending; error := None; index := index user;
     profileData := profileData user;
     repositoryEngagement := repositoryEngagement user |}.

(** The request the client sends to the batch endpoint. *)
Definition batchRequest (ip : option string) (usernames : list string)
           (githubToken : string) : Batch.Request :=
  {| Batch.x_forwarded_for := ip;
     Batch.body := Server.JsonValue (requestBody usernames githubToken) |}.

(** The request the client sends to the plain endpoint for one chunk. *)
Definition plainRequest (ip : option string) (chunk : list string)
           (githubToken : string) : PlainRoute.Request :=
  {| PlainRoute.x_forwarded_for := ip;
     PlainRoute.body := Server.JsonValue (plainRequestBody chunk githubToken) |}.

End RoundSpec.

(* ===================================================================== *)
(** * More example inputs *)
(* ===================================================================== *)

Module MoreDemo.
Import Server.

(** A column with a handle, a profile URL, text that is no handle, the
    second handle again in another case, and a handle with [@]. *)
Definition mixedInput : list string :=
  ["octocat"; "https://github.com/torvalds"; "not a handle"; "Torvalds"; "@defunkt"].

Definition mixedFile : Client.ParsedData :=
  {| Client.headers := ["login"]; Client.rows := map (fun v => [v]) mixedInput |}.

Definition mixedRecords : list Client.ProcessedUser :=
  match Client.processUsernames (Some mixedFile) "login" with
  | Some p => Client.users p
  | None => []
  end.

(** Verdicts for the two handles [mixedRecords] submits: one valid, one
    that ran into the rate limit. *)
Definition mixedVerdicts : list ValidationResult :=
  [ {| username := "octocat"; vstatus := Valid; error := None; profileData := None |};
    {| username := "defunkt"; vstatus := Error;
       error := Some "Rate limit exceeded - please wait"; profileData := None |} ].

(** A remote side that knows [octocat] when it is asked for the first
    time and cannot be reached afterwards. *)
Definition firstCallOnly : Remote :=
  {| getUser := fun n u tok =>
       if (n =? 0)%nat then getUser Demo.graphqlDown n u tok
       else Rejected (ErrorObject "fetch failed");
     postGraphQL := fun _ _ _ => Rejected (ErrorObject "fetch failed");
     getStarred := fun _ _ _ => Rejected (ErrorObject "fetch failed");
     getForks := fun _ _ _ => Rejected (ErrorObject "fetch failed");
     latency := fun _ => 40 |}.

(** A request to the batch endpoint whose body cannot be read. *)
Definition unreadable : Batch.Request :=
  {| Batch.x_forwarded_for := Some "10.0.0.1";
     Batch.body := JsonThrows (ErrorObject "Unexpected end of JSON input") |}.

Definition plainUnreadable : PlainRoute.Request :=
  {| PlainRoute.x_forwarded_for := Some "10.0.0.1";
     PlainRoute.body := JsonThrows (ErrorObject "Unexpected end of JSON input") |}.

Definition plainRequestOf (us : list string) : PlainRoute.Request :=
  {| PlainRoute.x_forwarded_for := Some "10.0.0.1";
     PlainRoute.body :=
       JsonValue {| PlainRoute.usernames := Some us; PlainRoute.githubToken := None |} |}.

(** The engagement endpoint with GitHub unreachable. *)
Definition engagementUnreachable : EngagementRoute.EngagementRemote :=
  {| EngagementRoute.rest := Demo.unreachable;
     EngagementRoute.postEngagement := fun _ _ _ => Rejected (ErrorObject "fetch failed") |}.

Definition engagementRequest (token : option string)
  : Json EngagementRoute.RepositoryEngagementRequest :=
  JsonValue {| EngagementRoute.repositoryUrl := Some "https://github.com/vercel/next.js";
               EngagementRoute.usernames := Some ["octocat"; "ghost"];
               EngagementRoute.githubToken := token |}.

End MoreDemo.

(* ===================================================================== *)
(** * The control loop: duplicates and the three-record scenario *)
(* ===================================================================== *)

Module ClientFacts.
Import Client ClientSpec.

Lemma Status_eqb_eq a b : Status_eqb a b = true <-> a = b.
Proof. destruct a, b; simpl; split; congruence. Qed.

Lemma cleanUsername_truthy u h : cleanUsername u = Some h -> Js.truthy h = true.
Proof.
  unfold cleanUsername.
  destruct (negb (Js.truthy u)); [done|].
  destruct (negb (Regex.test false username_re (Js.trim u))); [done|].
  destruct (Js.trim u) as [|c t] eqn:Et; simpl; [done|].
  destruct (39 <? _)%nat; [done|].
  by intros [= <-].
Qed.

Lemma tryUrlPatterns_truthy ps v h :
  tryUrlPatterns ps v = Some (Some h) -> Js.truthy h = true.
Proof.
  induction ps as [|p ps IH]; simpl; [done|].
  destruct (Regex.exec true p v) as [[? ? [[|c g]|]]|]; try exact IH.
  intros [= H]. by apply cleanUsername_truthy in H.
Qed.

Lemma truthyHandle_Some o h : truthyHandle o = Some h -> o = Some h.
Proof.
  unfold truthyHandle. destruct o as [x|]; [|done].
  destruct (Js.truthy x); [|done]. by intros [= ->].
Qed.

Lemma extractUsername_truthy v h : extractUsername v = Some h -> Js.truthy h = true.
Proof.
  unfold extractUsername.
  destruct (negb (Js.truthy v)); [done|].
  destruct (negb (Js.truthy (Js.trim v))); [done|].
  destruct (tryUrlPatterns _ _) as [r|] eqn:E.
  - intros ->. by apply tryUrlPatterns_truthy in E.
  - apply cleanUsername_truthy.
Qed.

Lemma truthyHandle_extract v h :
  extractUsername v = Some h -> truthyHandle (extractUsername v) = Some h.
Proof.
  intros H. rewrite H. unfold truthyHandle.
  by rewrite (extractUsername_truthy v h H).
Qed.

(** Induction principle for [forEach]: a property of the loop variables
    that every call of the callback preserves. *)
Lemma forEach_invariant {A S : Type} (f : S -> A -> nat -> S)
      (P : nat -> S -> Prop) (l : list A) :
  (forall i x st, l !! i = Some x -> P i st -> P (Datatypes.S i) (f st x i)) ->
  forall st, P O st -> P (length l) (forEach f l 0 st).
Proof.
  intros Hstep.
  assert (G : forall l2 l1 st, l = (l1 ++ l2)%list -> P (length l1) st ->
              P (length l) (forEach f l2 (length l1) st)).
  { induction l2 as [|x l2 IH]; intros l1 st -> HP; simpl.
    - by rewrite app_nil_r.
    - specialize (IH (l1 ++ [x])%list (f st x (length l1))).
      rewrite length_app in IH. simpl in IH.
      replace (length l1 + 1)%nat with (Datatypes.S (length l1)) in IH by lia.
      rewrite <- app_assoc in IH. simpl in IH.
      apply IH; [done|].
      apply Hstep; [|done].
      rewrite lookup_app_r by lia. by rewrite Nat.sub_diag. }
  intros st HP. by apply (G l [] st).
Qed.

(** *** [processUsernames] *)

Lemma mark_fields u :
  username (mark u) = username u /\ index (mark u) = index u
  /\ originalValue (mark u) = originalValue u.
Proof. unfold mark. by destruct (Status_eqb _ _). Qed.

Lemma mark_status u :
  status u = Pending \/ status u = Duplicate -> status (mark u) = Duplicate.
Proof. unfold mark. intros [H|H]; rewrite H; done. Qed.

Lemma mark_status_keep u : status u = Duplicate -> status (mark u) = Duplicate.
Proof. intros H. apply mark_status. by right. Qed.

(** With the records numbered by position, the search by [index] updates
    the record at that position. *)
Lemma markFirstOccurrence_alter us off j :
  (forall i u, us !! i = Some u -> index u = (off + i)%nat) ->
  markFirstOccurrence (off + j) us = alter mark j us.
Proof.
  revert off j. induction us as [|u us IH]; intros off j Hidx; [done|].
  simpl. pose proof (Hidx O u eq_refl) as H0. rewrite Nat.add_0_r in H0.
  rewrite H0. destruct j as [|j].
  - rewrite Nat.add_0_r, Nat.eqb_refl. done.
  - replace (off =? off + Datatypes.S j)%nat with false
      by (symmetry; apply Nat.eqb_neq; lia).
    simpl. f_equal.
    replace (off + Datatypes.S j)%nat with (Datatypes.S off + j)%nat by lia.
    apply IH. intros i u' Hi. rewrite (Hidx (Datatypes.S i) u' Hi). lia.
Qed.

Section ProcessUsernames.
Variable columnIndex : nat.
Variable rows : list (list string).

Lemma Inv_empty : Inv columnIndex rows 0 emptyPass.
Proof. split; simpl; intros; try done. Qed.

Lemma Inv_step k row st :
  rows !! k = Some row -> Inv columnIndex rows k st ->
  Inv columnIndex rows (Datatypes.S k) (processRow columnIndex st row k).
Proof.
  intros Hrow [Hlen Hrec Hseen Hfirst].
  assert (Hval : valueAt columnIndex rows k = Some (nth columnIndex row "")).
  { unfold valueAt. by rewrite Hrow. }
  unfold processRow.
  destruct (truthyHandle (extractUsername (nth columnIndex row ""))) as [h|] eqn:Eh.
  - destruct (seenUsernames st !! Js.toLowerCase h) as [f|] eqn:Ef.
    + (* a later duplicate: the first occurrence is flagged too *)
      destruct (Hfirst _ _ Ef) as (u0 & h0 & Hu0 & Hh0 & Hl0 & Hs0).
      assert (Hf : (f < k)%nat) by (rewrite <- Hlen; by eapply lookup_lt_Some).
      assert (Hm : markFirstOccurrence f (users st) = alter mark f (users st)).
      { apply (markFirstOccurrence_alter (users st) 0 f).
        intros i u Hi. by destruct (Hrec i u Hi). }
      rewrite Hm. clear Hm.
      split; simpl.
      * rewrite length_app, length_alter. simpl. lia.
      * intros i u Hi.
        destruct (decide (i = k)) as [->|Hne].
        -- rewrite lookup_app_r in Hi by (rewrite length_alter; lia).
           rewrite length_alter, Hlen, Nat.sub_diag in Hi.
           injection Hi as <-. simpl. split; [done|]. eauto.
        -- assert (i < k)%nat.
           { apply lookup_lt_Some in Hi. rewrite length_app, length_alter in Hi.
             simpl in Hi. lia. }
           rewrite lookup_app_l in Hi by (rewrite length_alter; lia).
           destruct (decide (i = f)) as [->|Hnf].
           ++ rewrite list_lookup_alter_eq, Hu0 in Hi. simpl in Hi. injection Hi as <-.
              destruct (mark_fields u0) as (-> & -> & ->). by apply Hrec.
           ++ rewrite list_lookup_alter_ne in Hi by done. by apply Hrec.
      * intros i u h' Hi Hu.
        destruct (decide (i = k)) as [->|Hne].
        -- rewrite lookup_app_r in Hi by (rewrite length_alter; lia).
           rewrite length_alter, Hlen, Nat.sub_diag in Hi.
           injection Hi as <-. cbn [username newUser] in Hu.
           rewrite Eh in Hu. injection Hu as <-.
           exists f. split; [done|]. split; [lia|]. intros _. split; [done|].
           exists (mark u0). split.
           ++ rewrite lookup_app_l by (rewrite length_alter; lia).
              by rewrite list_lookup_alter_eq, Hu0.
           ++ by apply mark_status.
        -- assert (i < k)%nat.
           { apply lookup_lt_Some in Hi. rewrite length_app, length_alter in Hi.
             simpl in Hi. lia. }
           rewrite lookup_app_l in Hi by (rewrite length_alter; lia).
           assert (exists u', users st !! i = Some u'
                              /\ truthyHandle (username u') = Some h'
                              /\ (status u' = Duplicate -> status u = Duplicate))
             as (u' & Hu' & Hn' & Hst').
           { destruct (decide (i = f)) as [->|Hnf].
             - rewrite list_lookup_alter_eq, Hu0 in Hi. simpl in Hi. injection Hi as <-.
               exists u0. destruct (mark_fields u0) as (E & _ & _).
               rewrite E in Hu. split; [done|]. split; [done|]. apply mark_status_keep.
             - rewrite list_lookup_alter_ne in Hi by done. eauto. }
           destruct (Hseen i u' h' Hu' Hn') as (f' & Hf' & Hle & Hdup).
           exists f'. split; [done|]. split; [done|]. intros Hlt.
           destruct (Hdup Hlt) as (Hd & u1 & Hu1 & Hd1). split; [by apply Hst'|].
           assert (f' < k)%nat by lia.
           rewrite lookup_app_l by (rewrite length_alter; lia).
           destruct (decide (f' = f)) as [->|Hnf].
           ++ exists (mark u1). rewrite list_lookup_alter_eq, Hu1. split; [done|].
              by apply mark_status_keep.
           ++ exists u1. by rewrite list_lookup_alter_ne.
      * intros l f' Hl. destruct (Hfirst l f' Hl) as (u1 & h1 & Hu1 & Hh1 & Hl1 & Hs1).
        assert (f' < k)%nat by (rewrite <- Hlen; by eapply lookup_lt_Some).
        rewrite lookup_app_l by (rewrite length_alter; lia).
        destruct (decide (f' = f)) as [->|Hnf].
        -- exists (mark u1), h1. rewrite list_lookup_alter_eq, Hu1.
           destruct (mark_fields u1) as (-> & _ & _).
           split; [done|]. split; [done|]. split; [done|]. right. by apply mark_status.
        -- exists u1, h1. by rewrite list_lookup_alter_ne.
    + (* first occurrence *)
      split; simpl.
      * rewrite length_app. simpl. lia.
      * intros i u Hi.
        destruct (decide (i = k)) as [->|Hne].
        -- rewrite lookup_app_r in Hi by lia.
           rewrite Hlen, Nat.sub_diag in Hi. injection Hi as <-. simpl.
           split; [done|]. eauto.
        -- assert (i < k)%nat.
           { apply lookup_lt_Some in Hi. rewrite length_app in Hi. simpl in Hi. lia. }
           rewrite lookup_app_l in Hi by lia. by apply Hrec.
      * intros i u h' Hi Hu.
        destruct (decide (i = k)) as [->|Hne].
        -- rewrite lookup_app_r in Hi by lia.
           rewrite Hlen, Nat.sub_diag in Hi. injection Hi as <-.
           cbn [username newUser] in Hu. rewrite Eh in Hu. injection Hu as <-.
           exists k. rewrite lookup_insert_eq. split; [done|]. split; [lia|]. lia.
        -- assert (i < k)%nat.
           { apply lookup_lt_Some in Hi. rewrite length_app in Hi. simpl in Hi. lia. }
           rewrite lookup_app_l in Hi by lia.
           destruct (Hseen i u h' Hi Hu) as (f' & Hf' & Hle & Hdup).
           exists f'. rewrite lookup_insert_ne by congruence.
           split; [done|]. split; [done|]. intros Hlt.
           destruct (Hdup Hlt) as (Hd & u1 & Hu1 & Hd1). split; [done|].
           exists u1. by rewrite lookup_app_l by lia.
      * intros l f' Hl.
        destruct (decide (Js.toLowerCase h = l)) as [<-|Hnl].
        -- rewrite lookup_insert_eq in Hl. injection Hl as <-.
           eexists _, h. rewrite lookup_app_r by lia.
           rewrite Hlen, Nat.sub_diag. simpl. split; [done|]. by eauto.
        -- rewrite lookup_insert_ne in Hl by done.
           destruct (Hfirst l f' Hl) as (u1 & h1 & Hu1 & Hrest).
           exists u1, h1. split; [|done].
           apply lookup_app_l_Some. done.
  - (* no handle: invalid *)
    split; simpl.
    * rewrite length_app. simpl. lia.
    * intros i u Hi.
      destruct (decide (i = k)) as [->|Hne].
      -- rewrite lookup_app_r in Hi by lia.
         rewrite Hlen, Nat.sub_diag in Hi. injection Hi as <-. simpl.
         split; [done|]. eauto.
      -- assert (i < k)%nat.
         { apply lookup_lt_Some in Hi. rewrite length_app in Hi. simpl in Hi. lia. }
         rewrite lookup_app_l in Hi by lia. by apply Hrec.
    * intros i u h' Hi Hu.
      destruct (decide (i = k)) as [->|Hne].
      -- rewrite lookup_app_r in Hi by lia.
         rewrite Hlen, Nat.sub_diag in Hi. injection Hi as <-.
         cbn [username newUser] in Hu. by rewrite Eh in Hu.
      -- assert (i < k)%nat.
         { apply lookup_lt_Some in Hi. rewrite length_app in Hi. simpl in Hi. lia. }
         rewrite lookup_app_l in Hi by lia.
         destruct (Hseen i u h' Hi Hu) as (f' & Hf' & Hle & Hdup).
         exists f'. split; [done|]. split; [done|]. intros Hlt.
         destruct (Hdup Hlt) as (Hd & u1 & Hu1 & Hd1). split; [done|].
         exists u1. by rewrite lookup_app_l by lia.
    * intros l f' Hl. destruct (Hfirst l f' Hl) as (u1 & h1 & Hu1 & Hrest).
      exists u1, h1. split; [|done]. by apply lookup_app_l_Some.
Qed.

Lemma Inv_final :
  Inv columnIndex rows (length rows) (forEach (processRow columnIndex) rows 0 emptyPass).
Proof.
  apply (forEach_invariant (processRow columnIndex) (Inv columnIndex rows) rows).
  - intros i x st Hx HI. by apply Inv_step.
  - apply Inv_empty.
Qed.
End ProcessUsernames.

(** [processUsernames] builds one record per row, in order, with the
    handle extracted from the selected cell. *)
Lemma processUsernames_records data selectedColumn p :
  processUsernames (Some data) selectedColumn = Some p ->
  exists columnIndex,
    indexOf selectedColumn (headers data) = Some columnIndex
    /\ length (users p) = length (rows data)
    /\ forall i row, rows data !! i = Some row ->
         exists u, users p !! i = Some u /\ index u = i
                   /\ originalValue u = nth columnIndex row ""
                   /\ username u = extractUsername (nth columnIndex row "").
Proof.
  unfold processUsernames.
  destruct (negb (Js.truthy selectedColumn)); [done|].
  destruct (indexOf selectedColumn (headers data)) as [ci|]; [|done].
  intros [= <-]. exists ci. split; [done|].
  destruct (Inv_final ci (rows data)) as [Hlen Hrec _ _].
  split; [done|]. intros i row Hrow.
  destruct (lookup_lt_is_Some_2 (users (forEach (processRow ci) (rows data) 0 emptyPass)) i)
    as [u Hu].
  { rewrite Hlen. by eapply lookup_lt_Some. }
  exists u. split; [done|].
  destruct (Hrec i u Hu) as (Hi & v & Hv & Ho & Hn).
  unfold valueAt in Hv. rewrite Hrow in Hv. simpl in Hv. injection Hv as <-. done.
Qed.

(** Two records of [processUsernames] at different positions whose handles
    agree up to case are both flagged. *)
Lemma processUsernames_pair data selectedColumn p a b ua ub ha hb :
  processUsernames (Some data) selectedColumn = Some p ->
  a <> b ->
  users p !! a = Some ua -> users p !! b = Some ub ->
  username ua = Some ha -> username ub = Some hb ->
  Js.toLowerCase ha = Js.toLowerCase hb ->
  status ua = Duplicate.
Proof.
  unfold processUsernames.
  destruct (negb (Js.truthy selectedColumn)); [done|].
  destruct (indexOf selectedColumn (headers data)) as [ci|]; [|done].
  intros [= <-] Hab Ha Hb Hua Hub Hl.
  destruct (Inv_final ci (rows data)) as [_ Hrec Hseen _].
  assert (Hta : truthyHandle (username ua) = Some ha).
  { destruct (Hrec a ua Ha) as (_ & v & _ & _ & Hx). rewrite Hx in Hua |- *.
    by apply truthyHandle_extract. }
  assert (Htb : truthyHandle (username ub) = Some hb).
  { destruct (Hrec b ub Hb) as (_ & v & _ & _ & Hx). rewrite Hx in Hub |- *.
    by apply truthyHandle_extract. }
  destruct (Hseen a ua ha Ha Hta) as (fa & Hfa & Hlea & Hda).
  destruct (Hseen b ub hb Hb Htb) as (fb & Hfb & Hleb & Hdb).
  rewrite Hl, Hfb in Hfa. injection Hfa as <-.
  destruct (decide (fb < a)%nat) as [Hlt|Hge]; [by destruct (Hda Hlt)|].
  assert (fb = a) as -> by lia.
  assert (Hlt : (a < b)%nat) by lia.
  destruct (Hdb Hlt) as (_ & u0 & Hu0 & Hs0). congruence.
Qed.

(** *** [processManualInput] *)

Section ProcessManualInput.
Variable lines : list string.

Lemma InvM_empty : InvM lines 0 emptyPass.
Proof. split; simpl; intros; done. Qed.

Lemma lookup_snoc_inv {A : Type} (l : list A) (x y : A) (i : nat) :
  (l ++ [x])%list !! i = Some y ->
  (i < length l /\ l !! i = Some y)%nat \/ (i = length l /\ y = x).
Proof.
  intros H. destruct (decide (i < length l)%nat) as [Hlt|Hge].
  - left. by rewrite lookup_app_l in H.
  - right. rewrite lookup_app_r in H by lia.
    destruct (i - length l)%nat as [|n] eqn:E; simpl in H; [|done].
    injection H as <-. split; [lia|done].
Qed.

Lemma InvM_step k line st :
  lines !! k = Some line -> InvM lines k st ->
  InvM lines (Datatypes.S k) (processLine st line k).
Proof.
  intros Hline [Hlen Hrec Hseen Hdups].
  unfold processLine.
  destruct (truthyHandle (extractUsername (Js.trim line))) as [h|] eqn:Eh.
  - case_bool_decide as Hin; split; cbn [users seenUsernames duplicateUsernames].
    + rewrite length_app. simpl. lia.
    + intros i u Hi. apply lookup_snoc_inv in Hi as [[Hlt Hi]|[-> ->]].
      * by apply Hrec.
      * simpl. split; [done|]. rewrite Hlen. eauto.
    + intros i u h' Hi Hu. apply lookup_snoc_inv in Hi as [[Hlt Hi]|[-> ->]].
      * by apply (Hseen i u h').
      * cbn [username newUser] in Hu. rewrite Eh in Hu. by injection Hu as <-.
    + intros i j ui uj hi hj Hij Hi Hj Hui Huj Hl.
      apply lookup_snoc_inv in Hj as [[Hlt Hj]|[-> ->]].
      * apply lookup_snoc_inv in Hi as [[Hlt' Hi]|[-> ->]]; [|lia].
        apply elem_of_union_r. by apply (Hdups i j ui uj hi hj).
      * cbn [username newUser] in Huj. rewrite Eh in Huj. injection Huj as <-.
        apply elem_of_union_l. by apply elem_of_singleton.
    + rewrite length_app. simpl. lia.
    + intros i u Hi. apply lookup_snoc_inv in Hi as [[Hlt Hi]|[-> ->]].
      * by apply Hrec.
      * simpl. split; [done|]. rewrite Hlen. eauto.
    + intros i u h' Hi Hu. rewrite dom_insert_L.
      apply lookup_snoc_inv in Hi as [[Hlt Hi]|[-> ->]].
      * apply elem_of_union_r. by apply (Hseen i u h').
      * cbn [username newUser] in Hu. rewrite Eh in Hu. injection Hu as <-.
        apply elem_of_union_l. by apply elem_of_singleton.
    + intros i j ui uj hi hj Hij Hi Hj Hui Huj Hl.
      apply lookup_snoc_inv in Hj as [[Hlt Hj]|[-> ->]].
      * apply lookup_snoc_inv in Hi as [[Hlt' Hi]|[-> ->]]; [|lia].
        by apply (Hdups i j ui uj hi hj).
      * cbn [username newUser] in Huj. rewrite Eh in Huj. injection Huj as <-.
        apply lookup_snoc_inv in Hi as [[Hlt' Hi]|[-> ->]]; [|lia].
        exfalso. apply Hin. rewrite <- Hl. by apply (Hseen i ui hi).
  - split; simpl.
    + rewrite length_app. simpl. lia.
    + intros i u Hi. apply lookup_snoc_inv in Hi as [[Hlt Hi]|[-> ->]].
      * by apply Hrec.
      * simpl. split; [done|]. rewrite Hlen. eauto.
    + intros i u h' Hi Hu. apply lookup_snoc_inv in Hi as [[Hlt Hi]|[-> ->]].
      * by apply (Hseen i u h').
      * cbn [username newUser] in Hu. by rewrite Eh in Hu.
    + intros i j ui uj hi hj Hij Hi Hj Hui Huj Hl.
      apply lookup_snoc_inv in Hj as [[Hlt Hj]|[-> ->]];
        [|cbn [username newUser] in Huj; by rewrite Eh in Huj].
      apply lookup_snoc_inv in Hi as [[Hlt' Hi]|[-> ->]]; [|lia].
      by apply (Hdups i j ui uj hi hj).
Qed.

Lemma InvM_final : InvM lines (length lines) (forEach processLine lines 0 emptyPass).
Proof.
  apply (forEach_invariant processLine (InvM lines) lines).
  - intros i x st Hx HI. by apply InvM_step.
  - apply InvM_empty.
Qed.
End ProcessManualInput.

Lemma flagDuplicate_username dups u : username (flagDuplicate dups u) = username u.
Proof.
  unfold flagDuplicate. destruct (truthyHandle (username u)) as [h|]; [|done].
  by case_bool_decide.
Qed.

Lemma processManualInput_pair manualInput us a b ua ub ha hb :
  processManualInput manualInput = Some us ->
  a <> b ->
  us !! a = Some ua -> us !! b = Some ub ->
  username ua = Some ha -> username ub = Some hb ->
  Js.toLowerCase ha = Js.toLowerCase hb ->
  status ua = Duplicate.
Proof.
  unfold processManualInput.
  destruct (negb (Js.truthy (Js.trim manualInput))); [done|].
  intros [= <-] Hab Ha Hb Hua Hub Hl.
  destruct (InvM_final (manualLines manualInput)) as [_ Hrec _ Hdups].
  rewrite list_lookup_fmap in Ha, Hb.
  destruct (users _ !! a) as [ua0|] eqn:Ea; [|done].
  destruct (users _ !! b) as [ub0|] eqn:Eb; [|done].
  simpl in Ha, Hb. injection Ha as <-. injection Hb as <-.
  rewrite flagDuplicate_username in Hua, Hub.
  assert (Hta : truthyHandle (username ua0) = Some ha).
  { destruct (Hrec a ua0 Ea) as (_ & line & _ & _ & Hx). rewrite Hx in Hua |- *.
    by apply truthyHandle_extract. }
  assert (Htb : truthyHandle (username ub0) = Some hb).
  { destruct (Hrec b ub0 Eb) as (_ & line & _ & _ & Hx). rewrite Hx in Hub |- *.
    by apply truthyHandle_extract. }
  assert (Hd : Js.toLowerCase ha
               ∈ duplicateUsernames (forEach processLine (manualLines manualInput) 0 emptyPass)).
  { destruct (decide (a < b)%nat) as [Hlt|Hge].
    - rewrite Hl. by apply (Hdups a b ua0 ub0 ha hb).
    - assert (Hlt : (b < a)%nat) by lia. by apply (Hdups b a ub0 ua0 hb ha). }
  unfold flagDuplicate. rewrite Hta.
  by rewrite bool_decide_eq_true_2.
Qed.

Lemma processed_pair us a b ua ub ha hb :
  processed us -> a <> b ->
  us !! a = Some ua -> us !! b = Some ub ->
  username ua = Some ha -> username ub = Some hb ->
  Js.toLowerCase ha = Js.toLowerCase hb ->
  status ua = Duplicate.
Proof.
  intros [(data & col & p & Hp & ->)|(text & Hp)].
  - by apply (processUsernames_pair data col p a b ua ub ha hb).
  - by apply (processManualInput_pair text us a b ua ub ha hb).
Qed.

Lemma not_submitted us a b ua ub ha hb :
  processed us -> a <> b ->
  us !! a = Some ua -> us !! b = Some ub ->
  username ua = Some ha -> username ub = Some hb ->
  Js.toLowerCase ha = Js.toLowerCase hb ->
  ha ∉ usernamesToSubmit us.
Proof.
  intros Hp Hab Ha Hb Hua Hub Hl Hin.
  unfold usernamesToSubmit in Hin.
  apply list_elem_of_omap in Hin as (u & Hu & Hun).
  apply truthyHandle_Some in Hun.
  apply list_elem_of_filter in Hu as [Hpend Hu].
  apply andb_prop in Hpend as [Hpend _]. apply Status_eqb_eq in Hpend.
  apply list_elem_of_lookup in Hu as [c Hc].
  assert (status u = Duplicate); [|congruence].
  destruct (decide (c = a)) as [->|Hca].
  - assert (u = ua) as -> by congruence.
    by apply (processed_pair us a b ua ub ha hb).
  - by apply (processed_pair us c a u ua ha ha).
Qed.
End ClientFacts.

Module ClientClaims.
Import Client ClientSpec ClientFacts Scenario.

(** C6: in the records either entry point builds, two records whose
    handles are equal up to case are both flagged [duplicate], the first
    occurrence included, and neither handle is among those submitted for
    validation. *)
Theorem C6_duplicates_flag_first_occurrence_too us i j ui uj hi hj :
  processed us ->
  (i < j)%nat ->
  us !! i = Some ui -> us !! j = Some uj ->
  username ui = Some hi -> username uj = Some hj ->
  Js.toLowerCase hi = Js.toLowerCase hj ->
  status ui = Duplicate /\ status uj = Duplicate
  /\ (hi ∉ usernamesToSubmit us) /\ (hj ∉ usernamesToSubmit us).
Proof.
  intros Hp Hij Hi Hj Hui Huj Hl.
  assert (Hne : i <> j) by lia.
  split; [by apply (processed_pair us i j ui uj hi hj)|].
  split; [by apply (processed_pair us j i uj ui hj hi)|].
  split.
  - by apply (not_submitted us i j ui uj hi hj).
  - by apply (not_submitted us j i uj ui hj hi).
Qed.

Lemma fileRecords_processed : processed fileRecords.
Proof.
  left. exists asFile, "username".
  destruct (processUsernames (Some asFile) "username") as [p|] eqn:E.
  - exists p. split; [reflexivity|]. unfold fileRecords. by rewrite E.
  - vm_compute in E. discriminate.
Qed.

Lemma C6_duplicates_flag_first_occurrence_too_witness :
  exists ui uj,
    fileRecords !! 0%nat = Some ui /\ fileRecords !! 1%nat = Some uj
    /\ username ui = Some "octocat" /\ username uj = Some "OCTOCAT"
    /\ status ui = Duplicate /\ status uj = Duplicate
    /\ ("octocat" ∉ usernamesToSubmit fileRecords)
    /\ ("OCTOCAT" ∉ usernamesToSubmit fileRecords).
Proof.
  eexists _, _.
  split; [vm_compute; reflexivity|]. split; [vm_compute; reflexivity|].
  split; [reflexivity|]. split; [reflexivity|].
  apply (C6_duplicates_flag_first_occurrence_too fileRecords 0 1 _ _ "octocat" "OCTOCAT"
           fileRecords_processed).
  - lia.
  - vm_compute. reflexivity.
  - vm_compute. reflexivity.
  - reflexivity.
  - reflexivity.
  - vm_compute. reflexivity.
Defined.

Lemma scenario_file_records :
  map (fun u => (username u, status u)) fileRecords
  = [(Some "octocat", Duplicate); (Some "OCTOCAT", Duplicate); (None, Invalid)].
Proof. vm_compute. reflexivity. Qed.

(** C7, counterexample: the first record is flagged [duplicate] as soon
    as the second one is seen. *)
Lemma C7_first_record_is_flagged_duplicate : ~ scenario_as_specified.
Proof.
  unfold scenario_as_specified. intros H. vm_compute in H. discriminate.
Qed.

(** C7, amended: for the input [octocat], [OCTOCAT] and the 55-character
    handle, records 1 and 2 are both [duplicate] (a case-insensitive
    match of each other), record 3 is [invalid] because it has no
    well-formed handle, and no handle is submitted for validation; the
    manual input classifies the three lines the same way. *)
Theorem C7_scenario_records :
  map (fun u => (username u, status u)) fileRecords
  = [(Some "octocat", Duplicate); (Some "OCTOCAT", Duplicate); (None, Invalid)]
  /\ usernamesToSubmit fileRecords = []
  /\ cleanUsername tooLong = None
  /\ String.length tooLong = 55%nat
  /\ exists us,
      processManualInput asText = Some us
      /\ map (fun u => (username u, status u)) us
         = [(Some "octocat", Duplicate); (Some "OCTOCAT", Duplicate); (None, Invalid)]
      /\ usernamesToSubmit us = [].
Proof.
  split; [exact scenario_file_records|].
  split; [vm_compute; reflexivity|].
  split; [vm_compute; reflexivity|].
  split; [reflexivity|].
  eexists. split; [vm_compute; reflexivity|].
  split; vm_compute; reflexivity.
Qed.
End ClientClaims.

(* ===================================================================== *)
(** * The server: runs of the effectful code *)
(* ===================================================================== *)

Module ServerFacts.
Import Server ServerSpec.
Local Open Scope m_scope.

Lemma bind_run {A B} (m : M A) (k : A -> M B) s a s1 :
  m s = (Returned a, s1) -> bind m k s = k a s1.
Proof. unfold bind. by intros ->. Qed.

Lemma bind_run_throw {A B} (m : M A) (k : A -> M B) s e s1 :
  m s = (Threw e, s1) -> bind m k s = (Threw e, s1).
Proof. unfold bind. by intros ->. Qed.

Lemma try_catch_run {A} (m : M A) (h : Thrown -> M A) s a s1 :
  m s = (Returned a, s1) -> try_catch m h s = (Returned a, s1).
Proof. unfold try_catch. by intros ->. Qed.

Lemma try_catch_run_throw {A} (m : M A) (h : Thrown -> M A) s e s1 :
  m s = (Threw e, s1) -> try_catch m h s = h e s1.
Proof. unfold try_catch. by intros ->. Qed.

(** *** Slices *)

Lemma slices_concat {A} (size : nat) (l : list A) fuel :
  (0 < size)%nat -> (length l <= fuel)%nat -> concat (slices fuel size l) = l.
Proof.
  intros Hsize. revert l. induction fuel as [|fuel IH]; intros l Hl.
  - destruct l; [done|simpl in Hl; lia].
  - destruct l as [|x l]; [done|].
    change (slices (S fuel) size (x :: l))
      with (take size (x :: l) :: slices fuel size (drop size (x :: l))).
    simpl concat. rewrite IH.
    + apply take_drop.
    + rewrite length_drop. simpl in *. lia.
Qed.

Lemma chunksOf_concat {A} (size : nat) (l : list A) :
  (0 < size)%nat -> concat (chunksOf size l) = l.
Proof. intros H. by apply slices_concat. Qed.

Lemma slices_nonempty {A} (size : nat) (l : list A) fuel :
  (0 < size)%nat -> forall c, c ∈ slices fuel size l -> c <> [] /\ (length c <= size)%nat.
Proof.
  intros Hsize. revert l. induction fuel as [|fuel IH]; intros l c Hc.
  - by apply elem_of_nil in Hc.
  - destruct l as [|x l]; [by apply elem_of_nil in Hc|].
    change (slices (S fuel) size (x :: l))
      with (take size (x :: l) :: slices fuel size (drop size (x :: l))) in Hc.
    apply elem_of_cons in Hc as [->|Hc]; [|by eapply IH].
    split.
    + destruct size; [lia|done].
    + rewrite length_take. lia.
Qed.

(** *** Frame facts *)

Lemma sent_cache remote c s : validationCache (sent remote c s) = validationCache s.
Proof. done. Qed.
Lemma sent_rateLimitMap remote c s : rateLimitMap (sent remote c s) = rateLimitMap s.
Proof. done. Qed.
Lemma sent_calls remote c s : calls (sent remote c s) = (calls s ++ [c])%list.
Proof. done. Qed.

Lemma same_maps_refl s : same_maps s s.
Proof. done. Qed.

Lemma same_maps_trans s1 s2 s3 : same_maps s1 s2 -> same_maps s2 s3 -> same_maps s1 s3.
Proof. intros [? ?] [? ?]. split; congruence. Qed.

Lemma cache_grows_refl s : cache_grows s s.
Proof. intros k e H. by left. Qed.

Lemma cache_grows_trans s1 s2 s3 :
  cache_grows s1 s2 -> cache_grows s2 s3 -> cache_grows s1 s3.
Proof.
  intros H12 H23 k e H. destruct (H23 k e H) as [H2|H2]; [|by right].
  by apply H12.
Qed.

Lemma same_maps_grows s s' : same_maps s s' -> cache_grows s s'.
Proof. intros [Hc _] k e H. left. by rewrite <- Hc. Qed.

Lemma cache_wf_grows s s' : cache_wf s -> cache_grows s s' -> cache_wf s'.
Proof. intros Hwf Hg k e H. destruct (Hg k e H) as [H'|H']; [by apply Hwf|done]. Qed.
End ServerFacts.

Module BatchFacts.
Import Server ServerSpec ServerFacts Batch BatchSpec.
Local Open Scope m_scope.

(** *** The single-resource path *)

Lemma validateOneREST_spec remote tok u s :
  exists r, validateOneREST remote tok u s
            = (Returned r, sent remote (GetUser u (bearer tok)) s)
            /\ username r = u /\ terminal r.
Proof.
  unfold validateOneREST, try_catch, bind, fetch, sent, json_of, await_json, terminal.
  destruct (getUser remote (length (calls s)) u (bearer tok)) as [e|resp]; simpl.
  - eexists. split; [reflexivity|]. simpl. auto.
  - destruct (status resp =? 200).
    + destruct (json resp); eexists; (split; [reflexivity|]); simpl; auto.
    + destruct (status resp =? 404); [eexists; split; [reflexivity|]; simpl; auto|].
      destruct (status resp =? 403); eexists; (split; [reflexivity|]); simpl; auto.
Qed.

Lemma mapM_validateOneREST remote tok us s :
  exists rs s', mapM (validateOneREST remote tok) us s = (Returned rs, s')
                /\ map username rs = us
                /\ Forall terminal rs
                /\ same_maps s s'
                /\ calls s' = (calls s ++ map (fun u => GetUser u (bearer tok)) us)%list.
Proof.
  revert s. induction us as [|u us IH]; intros s.
  - exists [], s. simpl. rewrite app_nil_r. done.
  - destruct (validateOneREST_spec remote tok u s) as (r & Hr & Hu & Ht).
    destruct (IH (sent remote (GetUser u (bearer tok)) s))
      as (rs & s' & Hrs & Hus & Hts & Hm & Hc).
    exists (r :: rs), s'. simpl. unfold bind at 1. rewrite Hr.
    unfold bind at 1. rewrite Hrs. unfold ret.
    split; [done|]. split; [simpl; congruence|]. split; [by constructor|]. split.
    + done.
    + rewrite Hc, sent_calls, <- app_assoc. done.
Qed.

Lemma restChunks_spec remote tok chunks acc s :
  exists rs s', restChunks remote tok chunks acc s = (Returned (acc ++ rs)%list, s')
                /\ map username rs = concat chunks
                /\ Forall terminal rs
                /\ same_maps s s'
                /\ calls s' = (calls s ++ map (fun u => GetUser u (bearer tok)) (concat chunks))%list.
Proof.
  revert acc s. induction chunks as [|chunk rest IH]; intros acc s.
  - exists [], s. simpl. rewrite !app_nil_r. done.
  - destruct (mapM_validateOneREST remote tok chunk s)
      as (rs1 & s1 & H1 & Hu1 & Ht1 & Hm1 & Hc1).
    set (s2 := match rest with [] => s1 | _ => tick 100 s1 end).
    destruct (IH (acc ++ rs1)%list s2) as (rs2 & s' & H2 & Hu2 & Ht2 & Hm2 & Hc2).
    exists (rs1 ++ rs2)%list, s'.
    assert (Hs2 : same_maps s1 s2 /\ calls s2 = calls s1).
    { unfold s2. by destruct rest. }
    destruct Hs2 as [Hm12 Hc12].
    split.
    + simpl. unfold bind at 1. rewrite H1. unfold bind at 1.
      replace ((match rest with [] => ret tt | _ :: _ => sleep 100 end) s1)
        with (Returned tt, s2) by (unfold s2; by destruct rest).
      rewrite H2. by rewrite app_assoc.
    + split; [simpl; rewrite map_app; congruence|].
      split; [by apply Forall_app|]. split.
      * eapply same_maps_trans; [exact Hm1|]. eapply same_maps_trans; [exact Hm12|done].
      * simpl. rewrite Hc2, Hc12, Hc1, map_app, app_assoc. done.
Qed.

Lemma validateUsernamesREST_spec remote tok us n s :
  (0 < n)%nat ->
  exists rs s', validateUsernamesREST remote us tok n s = (Returned rs, s')
                /\ map username rs = us
                /\ Forall terminal rs
                /\ same_maps s s'
                /\ calls s' = (calls s ++ map (fun u => GetUser u (bearer tok)) us)%list.
Proof.
  intros Hn. unfold validateUsernamesREST.
  destruct (restChunks_spec remote tok (chunksOf n us) [] s)
    as (rs & s' & H & Hu & Ht & Hm & Hc).
  rewrite chunksOf_concat in Hu, Hc by done. eauto 10.
Qed.

(** *** The cache *)

Lemma getCachedResult_run u s :
  getCachedResult u s = (Returned (freshResult s u), s).
Proof.
  unfold getCachedResult, freshResult, bind, get, Date_now, ret.
  destruct (validationCache s !! u) as [e|]; [|done].
  by destruct (clock s - timestamp e <? CACHE_DURATION).
Qed.

Lemma setCachedResult_run u r s :
  setCachedResult u r s
  = (Returned tt, set_cache <[u := stored (clock s) r]> s).
Proof. done. Qed.

Lemma cacheAll_run rs s :
  cacheAll rs s = (Returned tt, set_cache (cachedAll (clock s) rs) s).
Proof.
  revert s. induction rs as [|r rs IH]; intros s.
  - by destruct s.
  - unfold cacheAll in *. simpl. unfold bind at 1. rewrite setCachedResult_run.
    rewrite IH. by destruct s.
Qed.

Lemma latest_app u rs1 rs2 :
  latest u (rs1 ++ rs2)
  = match latest u rs2 with Some r => Some r | None => latest u rs1 end.
Proof.
  unfold latest. rewrite filter_app.
  destruct (filter _ rs2) as [|x l] eqn:E using rev_ind.
  - by rewrite app_nil_r.
  - clear IHl. rewrite app_assoc, !last_snoc. done.
Qed.

Lemma latest_username u rs r : latest u rs = Some r -> username r = u /\ r ∈ rs.
Proof.
  unfold latest. intros H. apply last_Some_elem_of in H.
  apply list_elem_of_filter in H. done.
Qed.

Lemma latest_is_Some u rs r : r ∈ rs -> username r = u -> is_Some (latest u rs).
Proof.
  intros Hin Hu. unfold latest.
  assert (H : r ∈ filter (fun r => username r = u) rs) by by apply list_elem_of_filter.
  destruct (filter _ rs) as [|x l] using rev_ind.
  - by apply elem_of_nil in H.
  - rewrite last_snoc. eauto.
Qed.

Lemma cachedAll_lookup now rs c u :
  cachedAll now rs c !! u
  = match latest u rs with
    | Some r => Some (stored now r)
    | None => c !! u
    end.
Proof.
  revert c. induction rs as [|r rs IH] using rev_ind; intros c; [done|].
  unfold cachedAll in *. rewrite foldl_app. simpl.
  rewrite latest_app. unfold latest at 1.
  destruct (decide (username r = u)) as [<-|Hne].
  - rewrite filter_cons_True by done. rewrite filter_nil. simpl.
    by rewrite lookup_insert_eq.
  - rewrite filter_cons_False by done. rewrite filter_nil. simpl.
    rewrite lookup_insert_ne by done. apply IH.
Qed.

Lemma cacheAll_grows rs s :
  Forall terminal rs -> cache_grows s (set_cache (cachedAll (clock s) rs) s).
Proof.
  intros Ht k e. simpl. rewrite cachedAll_lookup.
  destruct (latest k rs) as [r|] eqn:E; [|by left].
  intros [= <-]. right. apply latest_username in E as [? Hin].
  split; [done|]. simpl. rewrite Forall_forall in Ht. by apply Ht.
Qed.

(** *** The batch-query path *)

Lemma validateUsernamesGraphQL_run remote us tok s :
  validateUsernamesGraphQL remote us tok s
  = (graphqlOutcome remote us tok (length (calls s)), sent remote (PostGraphQL us tok) s).
Proof.
  unfold validateUsernamesGraphQL, graphqlOutcome, try_catch, bind, fetch, sent,
    json_of, await_json.
  destruct (postGraphQL remote (length (calls s)) us tok) as [e|r]; simpl; [done|].
  destruct (ok r); simpl; [|done]. by destruct (json r).
Qed.

Lemma graphqlResult_username body i u : username (graphqlResult body i u) = u.
Proof.
  unfold graphqlResult. destruct (data body ≫= _); [done|].
  by destruct (notFound _ _).
Qed.

Lemma imap_graphqlResult_usernames body us :
  map username (imap (graphqlResult body) us) = us.
Proof.
  apply list_eq. intros i.
  change (map username (imap (graphqlResult body) us))
    with (username <$> imap (graphqlResult body) us).
  rewrite list_lookup_fmap, list_lookup_imap.
  destruct (us !! i) as [u|]; [|done]. simpl. by rewrite graphqlResult_username.
Qed.

Lemma graphqlResult_terminal body i u : terminal (graphqlResult body i u).
Proof.
  unfold graphqlResult, terminal. destruct (data body ≫= _); simpl; [auto|].
  destruct (notFound _ _); simpl; auto.
Qed.

Lemma graphqlOutcome_usernames remote us tok n rs :
  graphqlOutcome remote us tok n = Returned rs ->
  map username rs = us /\ Forall terminal rs.
Proof.
  unfold graphqlOutcome. destruct (postGraphQL remote n us tok) as [e|r]; [done|].
  destruct (ok r); [|done]. destruct (json r) as [e|body]; [done|].
  intros [= <-]. split; [apply imap_graphqlResult_usernames|].
  apply Forall_forall. intros r' Hr'.
  apply list_elem_of_lookup in Hr' as [i Hi].
  rewrite list_lookup_imap in Hi. destruct (us !! i); [|done].
  simpl in Hi. injection Hi as <-. apply graphqlResult_terminal.
Qed.

Lemma graphqlBatches_spec remote tok batches acc s :
  exists o s', graphqlBatches remote tok batches acc s = (o, s')
    /\ rateLimitMap s' = rateLimitMap s
    /\ cache_grows s s'
    /\ (exists l, calls s' = (calls s ++ l)%list
                  /\ match batches with
                     | [] => l = []
                     | b :: _ => exists l', l = PostGraphQL b tok :: l'
                     end)
    /\ match o with
       | Returned rs =>
           exists new, rs = (acc ++ new)%list
             /\ map username new = concat batches
             /\ Forall terminal new
             /\ (forall u r, latest u new = Some r ->
                   exists e, validationCache s' !! u = Some e /\ result e = r)
             /\ (forall u, latest u new = None ->
                   validationCache s' !! u = validationCache s !! u)
       | Threw _ => True
       end.
Proof.
  revert acc s. induction batches as [|b rest IH]; intros acc s.
  - exists (Returned acc), s. simpl. split; [done|]. split; [done|].
    split; [apply cache_grows_refl|]. split; [exists []; by rewrite app_nil_r|].
    exists []. rewrite app_nil_r. done.
  - simpl. unfold bind at 1. rewrite validateUsernamesGraphQL_run.
    set (s1 := sent remote (PostGraphQL b tok) s).
    destruct (graphqlOutcome remote b tok (length (calls s))) as [rs1|e] eqn:E1.
    + apply graphqlOutcome_usernames in E1 as [Hu1 Ht1].
      unfold bind at 1. rewrite cacheAll_run.
      set (s2 := set_cache (cachedAll (clock s1) rs1) s1).
      destruct (IH (acc ++ rs1)%list s2) as (o & s' & Hrun & Hrl & Hg & (l & Hl & _) & Ho).
      exists o, s'. split; [done|]. split; [by rewrite Hrl|]. split.
      { eapply cache_grows_trans; [|exact Hg]. by apply (cacheAll_grows rs1 s1). }
      split.
      { exists (PostGraphQL b tok :: l). split; [|eauto].
        rewrite Hl. simpl. by rewrite <- app_assoc. }
      destruct o as [rs|e]; [|done].
      destruct Ho as (new & -> & Hu & Ht & Hlate & Hnone).
      exists (rs1 ++ new)%list. split; [by rewrite app_assoc|]. split.
      { rewrite map_app, Hu. by f_equal. }
      split; [by apply Forall_app|]. split.
      * intros u r. rewrite latest_app.
        destruct (latest u new) as [r'|] eqn:En.
        -- intros [= <-]. by apply Hlate.
        -- intros Hr. rewrite (Hnone u En). simpl. rewrite cachedAll_lookup, Hr. eauto.
      * intros u. rewrite latest_app.
        destruct (latest u new) as [r'|] eqn:En; [done|]. intros Hr.
        rewrite (Hnone u En). simpl. by rewrite cachedAll_lookup, Hr.
    + exists (Threw e), s1. split; [done|]. split; [done|].
      split; [apply same_maps_grows; done|]. split; [|done].
      exists [PostGraphQL b tok]. split; [done|eauto].
Qed.

Lemma restAndCache_spec remote us tok s :
  exists rs s', restAndCache remote us tok s = (Returned rs, s')
    /\ map username rs = us
    /\ Forall terminal rs
    /\ rateLimitMap s' = rateLimitMap s
    /\ cache_grows s s'
    /\ calls s' = (calls s ++ map (fun u => GetUser u (bearer tok)) us)%list
    /\ (forall u r, latest u rs = Some r ->
          validationCache s' !! u = Some (stored (clock s') r))
    /\ (forall u, latest u rs = None -> validationCache s' !! u = validationCache s !! u).
Proof.
  destruct (validateUsernamesREST_spec remote tok us 20 s)
    as (rs & s1 & H1 & Hu & Ht & [Hc Hr] & Hcalls); [lia|].
  exists rs, (set_cache (cachedAll (clock s1) rs) s1).
  unfold restAndCache. unfold bind at 1. rewrite H1. unfold bind at 1.
  rewrite cacheAll_run. split; [done|]. split; [done|]. split; [done|].
  split; [done|]. split.
  { eapply cache_grows_trans; [apply same_maps_grows; by split|by apply cacheAll_grows]. }
  split; [done|]. split.
  - intros u r Hl. simpl. by rewrite cachedAll_lookup, Hl.
  - intros u Hl. simpl. by rewrite cachedAll_lookup, Hl, Hc.
Qed.

(** *** The orchestrator *)

Lemma validateUncached_unfold remote method tok u0 rest s :
  validateUncached remote method tok (u0 :: rest) s
  = let misses := u0 :: rest in
    let flag := useGraphQL method tok (length misses) in
    match (if batchPathTaken method tok (length misses)
           then graphqlBatches remote (default "" tok) (chunksOf 100 misses) []
           else restAndCache remote misses tok) s with
    | (Returned rs, s') => (Returned (rs, flag), s')
    | (Threw e, s1) =>
        if flag then
          match restAndCache remote misses tok s1 with
          | (Returned rs, s') => (Returned (rs, flag), s')
          | (Threw e', s') => (Threw e', s')
          end
        else (Threw e, s1)
    end.
Proof.
  unfold validateUncached, batchPathTaken, restAndCache. cbv zeta.
  set (flag := useGraphQL method tok (length (u0 :: rest))).
  unfold bind at 1. unfold try_catch at 1.
  destruct tok as [token|]; cbn [truthy default from_option id].
  - destruct (flag && Js.truthy token) eqn:E.
    + destruct (graphqlBatches _ _ _ _ s) as [[rs|e] s1]; [done|].
      destruct flag; [|done].
      by destruct (bind _ _ s1) as [[rs|e'] s'].
    + destruct (bind _ _ s) as [[rs|e] s1]; [done|].
      destruct flag; [|done].
      by destruct (bind _ _ s1) as [[rs|e'] s'].
  - rewrite andb_false_r.
    destruct (bind _ _ s) as [[rs|e] s1]; [done|].
    destruct flag; [|done].
    by destruct (bind _ _ s1) as [[rs|e'] s'].
Qed.

Lemma validateUncached_spec remote method tok misses s :
  exists rs flag s',
    validateUncached remote method tok misses s = (Returned (rs, flag), s')
    /\ map username rs = misses
    /\ Forall terminal rs
    /\ rateLimitMap s' = rateLimitMap s
    /\ cache_grows s s'
    /\ (forall u r, latest u rs = Some r ->
          exists e, validationCache s' !! u = Some e /\ result e = r)
    /\ flag = match misses with
              | [] => false
              | _ => useGraphQL method tok (length misses)
              end
    /\ (misses = [] -> s' = s).
Proof.
  destruct misses as [|u0 rest].
  { exists [], false, s. repeat split; try done. apply cache_grows_refl. }
  rewrite validateUncached_unfold. cbv zeta.
  set (misses := u0 :: rest).
  set (flag := useGraphQL method tok (length misses)).
  destruct (batchPathTaken method tok (length misses)) eqn:Epath.
  - destruct (graphqlBatches_spec remote (default "" tok) (chunksOf 100 misses) [] s)
      as (o & s1 & Hrun & Hrl & Hg & _ & Ho).
    rewrite Hrun. destruct o as [rs|e].
    + destruct Ho as (new & -> & Hu & Ht & Hlate & _).
      exists new, flag, s1. rewrite chunksOf_concat in Hu by lia.
      repeat split; try done.
    + assert (flag = true) as Hflag.
      { unfold batchPathTaken in Epath. by apply andb_prop in Epath as [? _]. }
      rewrite Hflag.
      destruct (restAndCache_spec remote misses tok s1)
        as (rs & s' & Hr & Hu & Ht & Hrl' & Hg' & _ & Hlate & _).
      rewrite Hr. exists rs, true, s'. repeat split; try done.
      * congruence.
      * by eapply cache_grows_trans.
      * intros u r Hl. rewrite (Hlate u r Hl). eauto.
  - destruct (restAndCache_spec remote misses tok s)
      as (rs & s' & Hr & Hu & Ht & Hrl' & Hg' & _ & Hlate & _).
    rewrite Hr. exists rs, flag, s'. repeat split; try done.
    intros u r Hl. rewrite (Hlate u r Hl). eauto.
Qed.

(** The first request the orchestrator sends for a non-empty list of
    misses. *)
Lemma validateUncached_first_call remote method tok u0 rest s :
  exists l,
    calls (validateUncached remote method tok (u0 :: rest) s).2
    = (calls s
       ++ (if batchPathTaken method tok (length (u0 :: rest))
           then PostGraphQL (take 100 (u0 :: rest)) (default "" tok)
           else GetUser u0 (bearer tok)) :: l)%list.
Proof.
  rewrite validateUncached_unfold. cbv zeta.
  set (misses := u0 :: rest).
  destruct (batchPathTaken method tok (length misses)) eqn:Epath.
  - destruct (graphqlBatches_spec remote (default "" tok) (chunksOf 100 misses) [] s)
      as (o & s1 & Hrun & _ & _ & (l & Hl & Hfirst) & _).
    rewrite Hrun.
    change (chunksOf 100 misses)
      with (take 100 misses :: slices (length rest) 100 (drop 100 misses)) in Hfirst.
    destruct Hfirst as (l' & ->).
    destruct o as [rs|e]; [by exists l'|].
    destruct (useGraphQL method tok (length misses)); [|by exists l'].
    destruct (restAndCache_spec remote misses tok s1)
      as (rs & s' & Hr & _ & _ & _ & _ & Hc & _).
    rewrite Hr. simpl. rewrite Hc, Hl. rewrite <- app_assoc. simpl. eauto.
  - destruct (restAndCache_spec remote misses tok s)
      as (rs & s' & Hr & _ & _ & _ & _ & Hc & _).
    rewrite Hr. simpl. rewrite Hc. simpl. eauto.
Qed.

(** *** Cache lookups of a request *)

Lemma lookupAll_run us c m s :
  lookupAll us c m s = (Returned ((c ++ hitsOf s us)%list, (m ++ missesOf s us)%list), s).
Proof.
  revert c m. induction us as [|u us IH]; intros c m.
  - simpl. by rewrite !app_nil_r.
  - simpl. unfold bind at 1. rewrite getCachedResult_run.
    unfold hitsOf, missesOf. simpl.
    destruct (freshResult s u) as [r|] eqn:E.
    + rewrite IH. rewrite filter_cons_False by (rewrite E; done).
      unfold hitsOf, missesOf. by rewrite <- app_assoc.
    + rewrite IH. rewrite filter_cons_True by done.
      unfold hitsOf, missesOf. by rewrite <- app_assoc.
Qed.

(** *** The limiter *)

Lemma checkRateLimit_spec ip tok s :
  exists rl s1, checkRateLimit ip tok s = (Returned rl, s1)
    /\ validationCache s1 = validationCache s
    /\ clock s1 = clock s
    /\ calls s1 = calls s
    /\ (if allowed rl then rateLimitMap s1 <> rateLimitMap s else s1 = s).
Proof.
  unfold checkRateLimit, bind, Date_now, get, modify, ret. simpl.
  destruct (rateLimitMap s !! ip) as [limit|] eqn:El.
  - destruct (clock s >? resetTime limit) eqn:Ex.
    + eexists _, _. split; [reflexivity|]. simpl. repeat split; try done.
      intros Heq. pose proof (f_equal (fun m => m !! ip) Heq) as H. simpl in H.
      rewrite lookup_insert_eq, El in H. injection H as <-. simpl in Ex. lia.
    + destruct (count limit >=? _) eqn:Ec.
      * eexists _, _. split; [reflexivity|]. simpl. repeat split; try done.
      * eexists _, _. split; [reflexivity|]. simpl. repeat split; try done.
        intros Heq. pose proof (f_equal (fun m => m !! ip) Heq) as H. simpl in H.
        rewrite lookup_insert_eq, El in H. injection H as H.
        destruct limit as [c r]. simpl in H. injection H as H. lia.
  - eexists _, _. split; [reflexivity|]. simpl. repeat split; try done.
    intros Heq. pose proof (f_equal (fun m => m !! ip) Heq) as H. simpl in H.
    by rewrite lookup_insert_eq, El in H.
Qed.

(** *** The handler *)

Lemma POST_run remote request b us s :
  body request = JsonValue b -> usernames b = Some us ->
  us <> [] -> (length us <= 5000)%nat ->
  exists rl s1,
    checkRateLimit (ipOf request) (truthy (githubToken b)) s = (Returned rl, s1)
    /\ if allowed rl then
         exists rs flag s',
           validateUncached remote (default MAuto (method b)) (githubToken b)
                            (missesOf s1 us) s1 = (Returned (rs, flag), s')
           /\ POST remote request s
              = (Returned (Status200 (replyOf b us rl (hitsOf s1 us) rs flag)), s')
       else
         POST remote request s
         = (Returned (Status429 "Rate limit exceeded. Please try again later."
                                (rl_resetTime rl) (remaining rl)), s1).
Proof.
  intros Hb Hus Hne Hlen.
  destruct (checkRateLimit_spec (ipOf request) (truthy (githubToken b)) s)
    as (rl & s1 & Hrl & _).
  exists rl, s1. split; [done|].
  assert (Hbig : (5000 <? length us)%nat = false) by (apply Nat.ltb_ge; lia).
  destruct us as [|u0 us']; [done|].
  destruct (allowed rl) eqn:Eal.
  - destruct (validateUncached_spec remote (default MAuto (method b)) (githubToken b)
                (missesOf s1 (u0 :: us')) s1) as (rs & flag & s' & Hv & _).
    exists rs, flag, s'. split; [done|].
    unfold POST. apply try_catch_run.
    rewrite (bind_run _ _ s b s) by (by rewrite Hb).
    cbv beta. rewrite Hus, Hbig.
    rewrite (bind_run _ _ s rl s1 Hrl). cbv beta. rewrite Eal. change (negb true) with false. cbv iota.
    rewrite (bind_run _ _ s1 _ s1 (lookupAll_run _ _ _ _)). cbv beta iota.
    simpl app. rewrite (bind_run _ _ s1 _ s' Hv). done.
  - unfold POST. apply try_catch_run.
    rewrite (bind_run _ _ s b s) by (by rewrite Hb).
    cbv beta. rewrite Hus, Hbig.
    rewrite (bind_run _ _ s rl s1 Hrl). cbv beta. by rewrite Eal.
Qed.

Lemma findResult_Some u rs r : findResult u rs = Some r -> username r = u /\ r ∈ rs.
Proof.
  unfold findResult. intros H. apply find_some in H as [Hin Heq].
  apply String.eqb_eq in Heq. split; [done|]. by apply list_elem_of_In.
Qed.

Lemma findResult_None u rs : findResult u rs = None -> u ∉ map username rs.
Proof.
  unfold findResult. intros H Hin.
  change (map username rs) with (username <$> rs) in Hin.
  apply list_elem_of_fmap in Hin as (r & -> & Hr).
  apply list_elem_of_In in Hr.
  pose proof (find_none _ _ H r Hr) as Hf. simpl in Hf.
  by rewrite String.eqb_refl in Hf.
Qed.

Lemma freshResult_wf s u r : cache_wf s -> freshResult s u = Some r -> username r = u /\ terminal r.
Proof.
  unfold freshResult. intros Hwf.
  destruct (validationCache s !! u) as [e|] eqn:E; [|done].
  destruct (_ <? _); [|done]. intros [= <-]. by apply Hwf.
Qed.

(** Every submitted handle is a hit or a miss. *)
Lemma hit_or_miss s us u :
  cache_wf s -> u ∈ us -> u ∈ map username (hitsOf s us) \/ u ∈ missesOf s us.
Proof.
  intros Hwf Hin. destruct (freshResult s u) as [r|] eqn:E.
  - left. change (map username (hitsOf s us)) with (username <$> hitsOf s us).
    apply list_elem_of_fmap. exists r.
    split; [by apply freshResult_wf in E as [-> _]|].
    unfold hitsOf. apply list_elem_of_omap. eauto.
  - right. unfold missesOf. by apply list_elem_of_filter.
Qed.

Lemma hitsOf_terminal s us : cache_wf s -> Forall terminal (hitsOf s us).
Proof.
  intros Hwf. apply Forall_forall. intros r Hr.
  unfold hitsOf in Hr. apply list_elem_of_omap in Hr as (u & _ & Hu).
  by apply freshResult_wf in Hu as [_ ?].
Qed.

(** [allResults] holds, at each position, a verdict for the handle at
    that position. *)
Lemma allResultsOf_aligned s us rs :
  cache_wf s -> map username rs = missesOf s us -> Forall terminal rs ->
  forall i u, us !! i = Some u ->
    exists r, allResultsOf us (hitsOf s us) rs !! i = Some (Some r)
              /\ username r = u /\ terminal r.
Proof.
  intros Hwf Hrs Ht i u Hi. unfold allResultsOf.
  change (map ?f us) with (f <$> us). rewrite list_lookup_fmap, Hi. simpl.
  destruct (findResult u (hitsOf s us)) as [c|] eqn:Ec.
  - exists c. split; [done|]. apply findResult_Some in Ec as [Hu Hin].
    split; [done|]. pose proof (hitsOf_terminal s us Hwf) as Hh.
    rewrite Forall_forall in Hh. by apply Hh.
  - apply findResult_None in Ec.
    assert (Hin : u ∈ us) by (apply list_elem_of_lookup; eauto).
    destruct (hit_or_miss s us u Hwf Hin) as [?|Hm]; [done|].
    rewrite <- Hrs in Hm.
    destruct (findResult u rs) as [r|] eqn:Er.
    + exists r. split; [done|]. apply findResult_Some in Er as [Hu Hr].
      split; [done|]. rewrite Forall_forall in Ht. by apply Ht.
    + by apply findResult_None in Er.
Qed.

(** A result that is fresh at two moments of the same cache is the same
    result: a re-submission inside the freshness window reads what the
    first submission read. *)
Lemma freshResult_later s s' u :
  validationCache s' = validationCache s ->
  is_Some (freshResult s u) -> is_Some (freshResult s' u) ->
  freshResult s' u = freshResult s u.
Proof.
  unfold freshResult. intros ->.
  destruct (validationCache s !! u) as [e|]; [|by intros [? ?]].
  destruct (_ <? _); [|by intros [? ?]].
  destruct (_ <? _); [done|by intros _ [? ?]].
Qed.

Lemma freshResult_same s s1 u :
  validationCache s1 = validationCache s -> clock s1 = clock s ->
  freshResult s1 u = freshResult s u.
Proof. unfold freshResult. by intros -> ->. Qed.

Lemma hitsOf_same s s1 us :
  validationCache s1 = validationCache s -> clock s1 = clock s ->
  hitsOf s1 us = hitsOf s us.
Proof.
  intros Hc Hk. unfold hitsOf. apply list_omap_ext, Forall2_same_length_lookup.
  split; [done|]. intros i x y Hx Hy. assert (x = y) as -> by congruence.
  by apply freshResult_same.
Qed.

Lemma missesOf_same s s1 us :
  validationCache s1 = validationCache s -> clock s1 = clock s ->
  missesOf s1 us = missesOf s us.
Proof.
  intros Hc Hk. unfold missesOf. apply list_filter_iff. intros u.
  by rewrite (freshResult_same s s1 u Hc Hk).
Qed.

Lemma missesOf_all_fresh s us :
  (forall u, u ∈ us -> is_Some (freshResult s u)) -> missesOf s us = [].
Proof.
  intros Hall. unfold missesOf. induction us as [|u us IH]; [done|].
  rewrite filter_cons_False.
  - apply IH. intros x Hx. apply Hall. by right.
  - destruct (Hall u) as [r Hr]; [by left|]. by rewrite Hr.
Qed.

Lemma findResult_hits s us u :
  cache_wf s -> (forall x, x ∈ us -> is_Some (freshResult s x)) -> u ∈ us ->
  findResult u (hitsOf s us) = freshResult s u.
Proof.
  intros Hwf. induction us as [|x us IH]; intros Hall Hin.
  - by apply elem_of_nil in Hin.
  - destruct (Hall x) as [r Hr]; [by left|].
    unfold hitsOf. simpl. rewrite Hr. simpl.
    apply freshResult_wf in Hr as Hx; [|done]. destruct Hx as [Hx _].
    unfold findResult. simpl. rewrite Hx.
    destruct (String.eqb x u) eqn:E.
    + apply String.eqb_eq in E as ->. done.
    + apply String.eqb_neq in E.
      apply elem_of_cons in Hin as [->|Hin]; [done|].
      apply IH; [|done]. intros y Hy. apply Hall. by right.
Qed.

Lemma allResultsOf_all_hits s us :
  cache_wf s -> (forall x, x ∈ us -> is_Some (freshResult s x)) ->
  allResultsOf us (hitsOf s us) [] = map (freshResult s) us.
Proof.
  intros Hwf Hall. unfold allResultsOf. apply map_ext_in. intros u Hu.
  apply list_elem_of_In in Hu.
  rewrite (findResult_hits s us u Hwf Hall Hu).
  destruct (Hall u Hu) as [r ->]. done.
Qed.

Lemma hitsOf_length_all_fresh s us :
  (forall x, x ∈ us -> is_Some (freshResult s x)) -> length (hitsOf s us) = length us.
Proof.
  induction us as [|x us IH]; intros Hall; [done|].
  destruct (Hall x) as [r Hr]; [by left|]. unfold hitsOf. simpl. rewrite Hr. simpl.
  f_equal. apply IH. intros y Hy. apply Hall. by right.
Qed.

Lemma cache_wf_empty s : validationCache s = ∅ -> cache_wf s.
Proof. intros H k e. by rewrite H, lookup_empty. Qed.

(** [POST] keeps the cache well-formed: the invariant holds in every
    state the server can reach from an empty cache. *)
Lemma POST_preserves_cache_wf remote request s :
  cache_wf s -> cache_wf (POST remote request s).2.
Proof.
  intros Hwf.
  destruct (body request) as [e|b] eqn:Eb.
  { unfold POST, try_catch, bind. by rewrite Eb. }
  destruct (usernames b) as [[|u0 us]|] eqn:Eus.
  1, 3: unfold POST, try_catch, bind; rewrite Eb; simpl; by rewrite Eus.
  destruct (5000 <? length (u0 :: us))%nat eqn:Ebig.
  { unfold POST, try_catch, bind. rewrite Eb. simpl. by rewrite Eus, Ebig. }
  destruct (POST_run remote request b (u0 :: us) s Eb Eus)
    as (rl & s1 & Hrl & Hrest); [done|by apply Nat.ltb_ge|].
  destruct (checkRateLimit_spec (ipOf request) (truthy (githubToken b)) s)
    as (rl' & s1' & Hrl' & Hc & _).
  rewrite Hrl in Hrl'. injection Hrl' as <- <-.
  assert (Hwf1 : cache_wf s1) by (intros k e; rewrite Hc; apply Hwf).
  destruct (allowed rl).
  - destruct Hrest as (rs & flag & s' & Hv & ->). simpl.
    destruct (validateUncached_spec remote (default MAuto (method b)) (githubToken b)
                (missesOf s1 (u0 :: us)) s1)
      as (rs' & flag' & s'' & Hv' & _ & _ & _ & Hg & _).
    rewrite Hv in Hv'. injection Hv' as <- <- <-.
    by apply (cache_wf_grows s1 s').
  - by rewrite Hrest.
Qed.

Lemma served_cache_wf remote s : served remote s -> cache_wf s.
Proof.
  induction 1 as [s H|s request _ IH|s ms _ IH].
  - by apply cache_wf_empty.
  - by apply POST_preserves_cache_wf.
  - exact IH.
Qed.
End BatchFacts.

Module BatchClaims.
Import Server ServerSpec ServerFacts Batch BatchSpec BatchFacts Demo.

Lemma seeded_wf : cache_wf seeded.
Proof.
  intros k e H. simpl in H. apply lookup_singleton_Some in H as [<- <-].
  split; [done|]. by left.
Qed.

Lemma seeded_fresh u : u ∈ ["torvalds"] -> is_Some (freshResult seeded u).
Proof. intros Hu. apply list_elem_of_singleton in Hu as ->. by eexists. Qed.

(** C1, counterexample: with [torvalds] fresh in the cache, the request
    [["torvalds"]] sends nothing but the limiter records it. *)
Lemma C1_limiter_counts_cached_request : ~ hits_leave_quota_untouched.
Proof.
  intros H.
  destruct (H unreachable (requestOf ["torvalds"] None None) _ ["torvalds"] seeded
              eq_refl eq_refl seeded_fresh) as [_ Hrl].
  vm_compute in Hrl. discriminate.
Qed.

Lemma emptyState_wf : cache_wf emptyState.
Proof. by apply cache_wf_empty. Qed.

(** C3: a well-formed request is answered with 429 by the limiter or
    with a [results] array that has the length of the input and holds, at
    every position, one terminal verdict for the handle at that position;
    the remote side is arbitrary, so this covers a GraphQL chunk that
    throws and is served by the REST fallback. *)
Theorem C3_results_follow_input remote request b us s :
  cache_wf s ->
  body request = JsonValue b -> usernames b = Some us ->
  us <> [] -> (length us <= 5000)%nat ->
  exists response s',
    POST remote request s = (Returned response, s')
    /\ match response with
       | Status200 reply =>
           length (results reply) = length us
           /\ forall i u, us !! i = Some u ->
                exists r, results reply !! i = Some (Some r)
                          /\ username r = u /\ terminal r
       | Status429 _ _ _ =>
           exists rl s1,
             checkRateLimit (ipOf request) (truthy (githubToken b)) s = (Returned rl, s1)
             /\ allowed rl = false
       | _ => False
       end.
Proof.
  intros Hwf Hb Hus Hne Hlen.
  destruct (POST_run remote request b us s Hb Hus Hne Hlen) as (rl & s1 & Hrl & Hrest).
  destruct (checkRateLimit_spec (ipOf request) (truthy (githubToken b)) s)
    as (rl' & s1' & Hrl' & Hc & _).
  rewrite Hrl in Hrl'. injection Hrl' as <- <-.
  assert (Hwf1 : cache_wf s1) by (intros k e; rewrite Hc; apply Hwf).
  destruct (allowed rl) eqn:Eal.
  - destruct Hrest as (rs & flag & s' & Hv & HP).
    destruct (validateUncached_spec remote (default MAuto (method b)) (githubToken b)
                (missesOf s1 us) s1) as (rs' & flag' & s'' & Hv' & Hu & Ht & _).
    rewrite Hv in Hv'. injection Hv' as <- <- <-.
    eexists _, s'. split; [exact HP|]. simpl. split.
    + unfold allResultsOf. by rewrite length_map.
    + by apply allResultsOf_aligned.
  - eexists _, s1. split; [exact Hrest|]. simpl. eauto.
Qed.

Lemma C3_results_follow_input_witness :
  exists response s',
    POST graphqlDown (requestOf ["octocat"; "ghost"; "octocat"] (Some "t") (Some MGraphql))
         emptyState = (Returned response, s')
    /\ match response with
       | Status200 reply =>
           length (results reply) = 3%nat
           /\ forall i u, ["octocat"; "ghost"; "octocat"] !! i = Some u ->
                exists r, results reply !! i = Some (Some r)
                          /\ username r = u /\ terminal r
       | Status429 _ _ _ =>
           exists rl s1,
             checkRateLimit "unknown" true emptyState = (Returned rl, s1)
             /\ allowed rl = false
       | _ => False
       end.
Proof.
  apply (C3_results_follow_input
           graphqlDown (requestOf ["octocat"; "ghost"; "octocat"] (Some "t") (Some MGraphql))
           {| usernames := Some ["octocat"; "ghost"; "octocat"];
              githubToken := Some "t"; method := Some MGraphql |}
           ["octocat"; "ghost"; "octocat"] emptyState emptyState_wf eq_refl eq_refl).
  - discriminate.
  - simpl. lia.
Defined.

(** The run of the witness above, evaluated. *)
Example fallback_run_statuses :
  match (POST graphqlDown
              (requestOf ["octocat"; "ghost"; "octocat"] (Some "t") (Some MGraphql))
              emptyState).1 with
  | Returned (Status200 reply) =>
      map (option_map (fun r => (username r, vstatus r))) (results reply)
      = [Some ("octocat", Valid); Some ("ghost", Deleted); Some ("octocat", Valid)]
  | _ => False
  end.
Proof. vm_compute. reflexivity. Qed.

(** C4, counterexample: method ["graphql"] without a token; the handle is
    fetched over REST. *)
Lemma C4_graphql_without_token_runs_rest : ~ strategy_follows_rule.
Proof.
  intros H. destruct (H unreachable MGraphql None "octocat" [] emptyState) as [l Hl].
  vm_compute in Hl. discriminate.
Qed.

Lemma useGraphQL_claimed method tok n :
  useGraphQL method tok n = claimedBatch method (truthy tok) n.
Proof. unfold useGraphQL, claimedBatch. by destruct method. Qed.

(** C4, amended: for a non-empty list of misses the orchestrator runs the
    batch-query path exactly when credentials are present and the method
    is ["graphql"], or ["auto"] with at least ten misses; otherwise it
    runs the single-resource path.  The flag it reports follows the rule
    without the credentials guard.  With credentials and ["auto"], 15
    misses take the batch path and 5 take the single-resource path. *)
Theorem C4_batch_path_needs_credentials remote method tok u0 rest s :
  (exists rs s',
      validateUncached remote method tok (u0 :: rest) s
      = (Returned (rs, claimedBatch method (truthy tok) (length (u0 :: rest))), s')
      /\ exists l,
          calls s'
          = (calls s
             ++ (if truthy tok && claimedBatch method (truthy tok) (length (u0 :: rest))
                 then PostGraphQL (take 100 (u0 :: rest)) (default "" tok)
                 else GetUser u0 (bearer tok)) :: l)%list)
  /\ truthy (Some "t") && claimedBatch MAuto (truthy (Some "t")) 15 = true
  /\ truthy (Some "t") && claimedBatch MAuto (truthy (Some "t")) 5 = false.
Proof.
  split; [|done].
  destruct (validateUncached_spec remote method tok (u0 :: rest) s)
    as (rs & flag & s' & Hv & _ & _ & _ & _ & _ & Hflag & _).
  destruct (validateUncached_first_call remote method tok u0 rest s) as [l Hl].
  rewrite Hv in Hl. simpl in Hl.
  exists rs, s'. rewrite <- useGraphQL_claimed. split; [by rewrite <- Hflag|].
  exists l. rewrite Hl. unfold batchPathTaken. by rewrite andb_comm.
Qed.

(** C2: when the batch-query path is taken and the loop over the chunks
    throws, in whichever chunk, the fallback validates every cache miss
    of the request over REST, the handles of the chunks that had
    succeeded included. *)
Theorem C2_fallback_restarts_every_miss remote method tok u0 rest s e s1 :
  batchPathTaken method tok (length (u0 :: rest)) = true ->
  graphqlBatches remote (default "" tok) (chunksOf 100 (u0 :: rest)) [] s = (Threw e, s1) ->
  exists rs s',
    validateUncached remote method tok (u0 :: rest) s = (Returned (rs, true), s')
    /\ calls s' = (calls s1 ++ map (fun u => GetUser u (bearer tok)) (u0 :: rest))%list.
Proof.
  intros Hpath Hg. rewrite validateUncached_unfold. cbv zeta.
  rewrite Hpath, Hg.
  assert (useGraphQL method tok (length (u0 :: rest)) = true) as ->.
  { unfold batchPathTaken in Hpath. by apply andb_prop in Hpath as [? _]. }
  destruct (restAndCache_spec remote (u0 :: rest) tok s1)
    as (rs & s' & Hr & _ & _ & _ & _ & Hc & _).
  rewrite Hr. eauto.
Qed.

(** 101 misses: the first chunk of 100 succeeds, the second chunk of one
    handle fails, and all 101 handles are then fetched over REST. *)
Lemma C2_fallback_restarts_every_miss_witness :
  exists rs s',
    validateUncached secondChunkFails MAuto (Some "t") handles101 emptyState
    = (Returned (rs, true), s')
    /\ calls s'
       = ([PostGraphQL (take 100 handles101) "t"; PostGraphQL (drop 100 handles101) "t"]
          ++ map (fun u => GetUser u (Some "Bearer t")) handles101)%list.
Proof.
  apply (C2_fallback_restarts_every_miss
           secondChunkFails MAuto (Some "t") "u0" (tail handles101) emptyState
           (ErrorObject "socket hang up")
           (graphqlBatches secondChunkFails "t" (chunksOf 100 handles101) [] emptyState).2).
  - vm_compute. reflexivity.
  - vm_compute. reflexivity.
Defined.
End BatchClaims.

Module RemoteClaims.
Import Server ServerSpec ServerFacts Batch BatchSpec BatchFacts Demo.

Lemma notFound_flagged alias body :
  notFound alias (default [] (errors body)) = true <-> flaggedNotFound alias body.
Proof.
  unfold notFound, flaggedNotFound. rewrite existsb_exists. split.
  - intros (err & Hin & Hc). apply andb_prop in Hc as [Hp Ht].
    destruct (e_path err) as [[|p0 rest]|] eqn:Ep; try done.
    destruct (e_type err) as [t|] eqn:Et; [|done].
    apply String.eqb_eq in Hp as ->. apply String.eqb_eq in Ht as ->.
    exists err, rest. rewrite <- list_elem_of_In in Hin. done.
  - intros (err & rest & Hin & Hp & Ht). exists err.
    rewrite <- list_elem_of_In. split; [done|].
    by rewrite Hp, Ht, !String.eqb_refl.
Qed.

(** C5: when the GraphQL request of a chunk is answered, the result at
    each position carries the handle of that position and is [valid]
    with the parsed profile if the reply has data under the handle's
    alias, [deleted] if it has none and lists a [NOT_FOUND] error for
    the alias, and [error] with "Unexpected GraphQL error" if it has
    neither. *)
Theorem C5_graphql_verdict_per_alias remote us tok s resp body i u :
  postGraphQL remote (length (calls s)) us tok = Resolved resp ->
  ok resp = true -> json resp = JsonValue body ->
  us !! i = Some u ->
  exists rs s',
    validateUsernamesGraphQL remote us tok s = (Returned rs, s')
    /\ length rs = length us
    /\ exists r,
        rs !! i = Some r /\ username r = u
        /\ match data body ≫= (fun d => d !! alias i) with
           | Some node =>
               vstatus r = Valid /\ error r = None
               /\ profileData r
                  = Some {| name := g_name node; bio := g_bio node;
                            public_repos := Some (g_repositories_totalCount node);
                            followers := Some (g_followers_totalCount node);
                            following := Some (g_following_totalCount node);
                            created_at := Some (g_createdAt node) |}
           | None =>
               (flaggedNotFound (alias i) body -> vstatus r = Deleted)
               /\ (~ flaggedNotFound (alias i) body ->
                   vstatus r = Error /\ error r = Some "Unexpected GraphQL error")
           end.
Proof.
  intros Hresp Hok Hjson Hi.
  rewrite validateUsernamesGraphQL_run. unfold graphqlOutcome.
  rewrite Hresp, Hok, Hjson.
  eexists _, _. split; [reflexivity|]. split; [by rewrite length_imap|].
  exists (graphqlResult body i u). split; [by rewrite list_lookup_imap, Hi|].
  split; [apply graphqlResult_username|].
  unfold graphqlResult.
  destruct (data body ≫= (fun d => d !! alias i)) as [node|]; [done|].
  destruct (notFound (alias i) (default [] (errors body))) eqn:En.
  - split; [done|]. intros Hn. apply notFound_flagged in En. done.
  - split; [|done]. intros Hf. apply notFound_flagged in Hf. congruence.
Qed.

Lemma C5_graphql_verdict_per_alias_witness :
  exists rs s',
    validateUsernamesGraphQL mixedRemote ["octocat"; "ghost"; "odd"] "t" emptyState
    = (Returned rs, s')
    /\ length rs = 3%nat
    /\ exists r,
        rs !! 1%nat = Some r /\ username r = "ghost"
        /\ (flaggedNotFound "user1" mixedReply -> vstatus r = Deleted)
        /\ (~ flaggedNotFound "user1" mixedReply ->
            vstatus r = Error /\ error r = Some "Unexpected GraphQL error").
Proof.
  exact (C5_graphql_verdict_per_alias
           mixedRemote ["octocat"; "ghost"; "odd"] "t" emptyState
           {| status := 200; statusText := "OK"; json := JsonValue mixedReply |}
           mixedReply 1 "ghost" eq_refl eq_refl eq_refl eq_refl).
Defined.

(** The three verdicts of the reply above. *)
Example mixedReply_verdicts :
  match (validateUsernamesGraphQL mixedRemote ["octocat"; "ghost"; "odd"] "t" emptyState).1 with
  | Returned rs =>
      map (fun r => (username r, vstatus r, error r)) rs
      = [("octocat", Valid, None);
         ("ghost", Deleted, Some "User not found or account deleted");
         ("odd", Error, Some "Unexpected GraphQL error")]
  | Threw _ => False
  end.
Proof. vm_compute. reflexivity. Qed.

(** The plain endpoint tells the two 403 cases apart. *)
Lemma validateGitHubUsername_403 remote tok u s resp :
  getUser remote (length (calls s)) u (Plain.tokenHeader tok) = Resolved resp ->
  status resp = 403 ->
  exists r s',
    Plain.validateGitHubUsername remote u tok s = (Returned r, s')
    /\ username r = u /\ vstatus r = Error
    /\ error r = Some (if rateLimitMessage resp
                       then "Rate limit exceeded - please wait"
                       else "Access forbidden - may be private or suspended account").
Proof.
  intros Hresp Hst.
  unfold Plain.validateGitHubUsername, try_catch, bind, sleep, modify, fetch,
    json_of, await_json, rateLimitMessage. simpl.
  rewrite Hresp, Hst. simpl.
  destruct (json resp) as [e|d]; simpl.
  - eexists _, _. split; [reflexivity|done].
  - destruct (u_message d) as [m|]; [|eexists _, _; split; [reflexivity|done]].
    destruct (Js.truthy m && Js.includes "rate limit" m);
      eexists _, _; (split; [reflexivity|done]).
Qed.

(** C8: in the batch endpoint the single-resource validator answers
    every 403 with "Rate limit exceeded - please wait", whatever the
    body says; a 403 that is not about the rate limit is not reported
    as access forbidden. *)
Theorem C8_batch_rest_conflates_403 remote tok u s resp :
  getUser remote (length (calls s)) u (bearer tok) = Resolved resp ->
  status resp = 403 ->
  exists r s',
    validateOneREST remote tok u s = (Returned r, s')
    /\ username r = u /\ vstatus r = Error
    /\ error r = Some "Rate limit exceeded - please wait".
Proof.
  intros Hresp Hst.
  unfold validateOneREST, try_catch, bind, fetch, json_of, await_json.
  rewrite Hresp, Hst. simpl. eexists _, _. split; [reflexivity|done].
Qed.

Lemma C8_batch_rest_conflates_403_witness :
  rateLimitMessage forbiddenResponse = false
  /\ exists r s',
      validateOneREST forbidden None "ghost" emptyState = (Returned r, s')
      /\ username r = "ghost" /\ vstatus r = Error
      /\ error r = Some "Rate limit exceeded - please wait".
Proof.
  split; [reflexivity|].
  exact (C8_batch_rest_conflates_403 forbidden None "ghost" emptyState
           forbiddenResponse eq_refl eq_refl).
Defined.

(** The same answer through both endpoints. *)
Example forbidden_through_both_endpoints :
  match (validateUsernamesREST forbidden ["ghost"] None 20 emptyState).1 with
  | Returned [r] => error r = Some "Rate limit exceeded - please wait"
  | _ => False
  end
  /\ match (Plain.validateGitHubUsername forbidden "ghost" None emptyState).1 with
     | Returned r => error r = Some "Access forbidden - may be private or suspended account"
     | Threw _ => False
     end.
Proof. vm_compute. done. Qed.
End RemoteClaims.

Module EngagementClaims.
Import Server ServerSpec ServerFacts Engagement EngagementSpec Demo.

(** C9, counterexample: both calls are rejected and the result has no
    [error] field. *)
Lemma C9_both_faults_no_error_field : ~ both_faults_carry_error.
Proof.
  intros H.
  destruct (H unreachable "vercel" "next.js" None "octocat" emptyState
              (ErrorObject "fetch failed") (ErrorObject "fetch failed")
              eq_refl eq_refl) as (r & s' & Hrun & [m Hm]).
  vm_compute in Hrun. injection Hrun as <- _. discriminate.
Qed.

Lemma checkUserEngagement_run remote u targetOwner targetRepo tok s :
  let n := length (calls s) in
  checkUserEngagement remote u targetOwner targetRepo tok s
  = (Returned
       {| hasStarred := match listed (getStarred remote n u (bearer tok)) with
                        | Some repos => existsb (starredMatches targetOwner targetRepo) repos
                        | None => false
                        end;
          hasForked := match listed (getForks remote (S n) u (bearer tok)) with
                       | Some repos => existsb (forkMatches targetOwner targetRepo) repos
                       | None => false
                       end;
          error := None |},
     sent remote (GetForks u (bearer tok)) (sent remote (GetStarred u (bearer tok)) s)).
Proof.
  cbv zeta.
  assert (Hn : length (calls s ++ [GetStarred u (bearer tok)])%list = S (length (calls s))).
  { rewrite length_app. simpl. lia. }
  unfold checkUserEngagement, listed, try_catch, bind, fetch, json_of, await_json,
    ret, throw, sent, tick, log.
  destruct (getStarred remote (length (calls s)) u (bearer tok)) as [e1|r1];
    [|destruct (ok r1); [destruct (json r1)|]];
    cbn [calls clock validationCache rateLimitMap]; rewrite Hn;
    (destruct (getForks remote (S (length (calls s))) u (bearer tok)) as [e2|r2];
     [|destruct (ok r2); [destruct (json r2)|]]); reflexivity.
Qed.

Lemma engagementOf_run remote targetOwner targetRepo tok u s :
  engagementOf remote targetOwner targetRepo tok u s
  = (Returned
       {| username := u;
          u_hasStarred :=
            match listed (getStarred remote (length (calls s)) u (bearer tok)) with
            | Some repos => existsb (starredMatches targetOwner targetRepo) repos
            | None => false
            end;
          u_hasForked :=
            match listed (getForks remote (S (length (calls s))) u (bearer tok)) with
            | Some repos => existsb (forkMatches targetOwner targetRepo) repos
            | None => false
            end;
          u_error := None |},
     sent remote (GetForks u (bearer tok)) (sent remote (GetStarred u (bearer tok)) s)).
Proof.
  unfold engagementOf.
  pose proof (checkUserEngagement_run remote u targetOwner targetRepo tok s) as Hrun.
  cbv zeta in Hrun.
  apply try_catch_run. by rewrite (bind_run _ _ _ _ _ Hrun).
Qed.

Lemma mapM_settled_engagementOf remote targetOwner targetRepo tok us s :
  exists rs s',
    mapM (fun u => settled (engagementOf remote targetOwner targetRepo tok u)) us s
    = (Returned (Some <$> rs), s')
    /\ map username rs = us /\ Forall (fun r => u_error r = None) rs.
Proof.
  revert s. induction us as [|u us IH]; intros s.
  - by exists [], s.
  - destruct (IH (sent remote (GetForks u (bearer tok))
                       (sent remote (GetStarred u (bearer tok)) s)))
      as (rs & s' & Hrs & Hus & He).
    eexists (_ :: rs), s'. split.
    + cbn [mapM]. unfold settled at 1.
      rewrite (bind_run _ _ s _ _
                 (try_catch_run _ _ s _ _
                    (bind_run _ _ s _ _ (engagementOf_run remote targetOwner targetRepo tok u s)))).
      rewrite (bind_run _ _ _ _ _ Hrs). reflexivity.
    + split; [simpl; by rewrite Hus|]. by constructor.
Qed.

Lemma omap_id_Some {A : Type} (l : list A) : omap id (Some <$> l) = l.
Proof. induction l as [|x l IH]; [done|]. rewrite fmap_cons. cbn. by f_equal. Qed.

Lemma engagementBatches_spec remote targetOwner targetRepo tok delayMs batches acc s :
  exists rs s',
    engagementBatches remote targetOwner targetRepo tok delayMs batches acc s
    = (Returned (acc ++ rs)%list, s')
    /\ map username rs = concat batches /\ Forall (fun r => u_error r = None) rs.
Proof.
  revert acc s. induction batches as [|batch rest IH]; intros acc s.
  - exists [], s. simpl. by rewrite app_nil_r.
  - destruct (mapM_settled_engagementOf remote targetOwner targetRepo tok batch s)
      as (rs1 & s1 & H1 & Hu1 & He1).
    set (s2 := match rest with [] => s1 | _ => tick delayMs s1 end).
    destruct (IH (acc ++ rs1)%list s2) as (rs2 & s' & H2 & Hu2 & He2).
    exists (rs1 ++ rs2)%list, s'. split.
    + cbn [engagementBatches]. rewrite (bind_run _ _ _ _ _ H1). cbv beta.
      rewrite omap_id_Some.
      rewrite (bind_run _ _ s1 tt s2) by (unfold s2; by destruct rest).
      rewrite H2. by rewrite app_assoc.
    + split; [simpl; by rewrite map_app, Hu1, Hu2|]. by apply Forall_app.
Qed.

(** The single-resource engagement path returns one result per handle,
    in order, and none of them carries an [error] field. *)
Lemma checkUsersEngagementREST_no_error remote us targetOwner targetRepo tok s :
  exists rs s',
    checkUsersEngagementREST remote us targetOwner targetRepo tok s = (Returned rs, s')
    /\ map username rs = us /\ Forall (fun r => u_error r = None) rs.
Proof.
  unfold checkUsersEngagementREST.
  destruct (engagementBatches_spec remote targetOwner targetRepo tok
              (if truthy tok then 300 else 1000)
              (chunksOf (if truthy tok then 20%nat else 5%nat) us) [] s)
    as (rs & s' & H & Hu & He).
  rewrite chunksOf_concat in Hu by (destruct (truthy tok); lia). eauto.
Qed.

(** C9, amended: in the single-resource engagement path a call that is
    rejected, answers with a non-success status or sends an unreadable
    body leaves its flag [false]; the handle's result never carries an
    [error] field, also when both calls fault, and then reports
    [hasStarred = false] and [hasForked = false]. *)
Theorem C9_engagement_faults_leave_flags_false remote targetOwner targetRepo tok u s :
  exists r s',
    engagementOf remote targetOwner targetRepo tok u s = (Returned r, s')
    /\ username r = u
    /\ u_error r = None
    /\ u_hasStarred r
       = match listed (getStarred remote (length (calls s)) u (bearer tok)) with
         | Some repos => existsb (starredMatches targetOwner targetRepo) repos
         | None => false
         end
    /\ u_hasForked r
       = match listed (getForks remote (S (length (calls s))) u (bearer tok)) with
         | Some repos => existsb (forkMatches targetOwner targetRepo) repos
         | None => false
         end.
Proof. eexists _, _. split; [apply engagementOf_run|done]. Qed.
End EngagementClaims.
Module RegexFacts.
Import Regex RegexSpec.

Lemma run_Star {R} ci r pos s cap (k : @cont R) :
  run ci (Star r) pos s cap k = star_loop ci r k (S (length s)) pos s cap.
Proof. reflexivity. Qed.

Lemma run_Plus {R} ci r pos s cap (k : @cont R) :
  run ci (Plus r) pos s cap k
  = run ci r pos s cap
        (fun pos1 s1 cap1 => star_loop ci r k (S (length s1)) pos1 s1 cap1).
Proof. reflexivity. Qed.

Lemma orelse_Some {R} (a : option R) b x :
  orelse a b = Some x -> a = Some x \/ (a = None /\ b tt = Some x).
Proof. destruct a; simpl; intros H; [left | right]; auto. Qed.

Lemma star_loop_sound {R} ci r (k : @cont R) :
  sound_for (R:=R) ci r ->
  forall fuel pos s cap x,
    star_loop ci r k fuel pos s cap = Some x ->
    exists w rest cap', s = (w ++ rest)%list /\ Match ci (Star r) pos w rest cap cap'
                        /\ k (pos + length w)%nat rest cap' = Some x.
Proof.
  intros IH fuel. induction fuel as [|fuel IHf]; intros pos s cap x H.
  - simpl in H. exists [], s, cap. rewrite Nat.add_0_r. repeat split; auto. constructor.
  - simpl in H. apply orelse_Some in H as [H | [_ H]].
    + apply IH in H as (w1 & rest1 & cap1 & -> & Hm & Hk).
      destruct (Nat.ltb_spec pos (pos + length w1)) as [Hlt|]; [|discriminate].
      apply IHf in Hk as (w2 & rest & cap2 & -> & Hm2 & Hk).
      exists (w1 ++ w2)%list, rest, cap2. rewrite <- app_assoc. split; [done|]. split.
      * eapply MStarCons; eauto. intros ->. simpl in Hlt. lia.
      * rewrite length_app, Nat.add_assoc. done.
    + exists [], s, cap. rewrite Nat.add_0_r. repeat split; auto. constructor.
Qed.

Lemma run_sound {R} ci r : sound_for (R:=R) ci r.
Proof.
  induction r; intros pos s cap k x H; simpl in H.
  - exists [], s, cap. rewrite Nat.add_0_r. repeat split; auto. constructor.
  - destruct s as [|c' s']; [discriminate|].
    destruct (same_char ci c c') eqn:E; [|discriminate].
    exists [c'], s', cap. simpl. rewrite Nat.add_1_r. repeat split; auto. by constructor.
  - destruct s as [|c' s']; [discriminate|].
    destruct (p c') eqn:E; [|discriminate].
    exists [c'], s', cap. simpl. rewrite Nat.add_1_r. repeat split; auto. by constructor.
  - destruct s as [|c' s']; [discriminate|].
    destruct (line_terminator c') eqn:E; [discriminate|].
    exists [c'], s', cap. simpl. rewrite Nat.add_1_r. repeat split; auto. by constructor.
  - apply IHr1 in H as (w1 & rest1 & cap1 & -> & Hm1 & H).
    apply IHr2 in H as (w2 & rest & cap2 & -> & Hm2 & H).
    exists (w1 ++ w2)%list, rest, cap2. rewrite <- app_assoc. split; [done|]. split.
    + econstructor; eauto.
    + rewrite length_app, Nat.add_assoc. done.
  - apply orelse_Some in H as [H | [_ H]].
    + apply IHr1 in H as (w & rest & cap' & -> & Hm & H).
      exists w, rest, cap'. repeat split; auto. by apply MAltL.
    + apply IHr2 in H as (w & rest & cap' & -> & Hm & H).
      exists w, rest, cap'. repeat split; auto. by apply MAltR.
  - apply orelse_Some in H as [H | [_ H]].
    + apply IHr in H as (w & rest & cap' & -> & Hm & H).
      exists w, rest, cap'. repeat split; auto. by apply MOptSome.
    + exists [], s, cap. rewrite Nat.add_0_r. repeat split; auto. apply MOptNone.
  - change (star_loop ci r k (S (length s)) pos s cap = Some x) in H.
    by apply (star_loop_sound ci r k IHr) in H.
  - apply IHr in H as (w1 & rest1 & cap1 & -> & Hm1 & H).
    change (star_loop ci r k (S (length rest1)) (pos + length w1) rest1 cap1 = Some x) in H.
    apply (star_loop_sound ci r k IHr) in H as (w2 & rest & cap2 & -> & Hm2 & H).
    exists (w1 ++ w2)%list, rest, cap2. rewrite <- app_assoc. split; [done|]. split.
    + econstructor; eauto.
    + rewrite length_app, Nat.add_assoc. done.
  - apply IHr in H as (w & rest & cap' & -> & Hm & H).
    exists w, rest, (Some w). split; [done|]. split; [by econstructor|].
    replace (pos + length w - pos)%nat with (length w) in H by lia.
    by rewrite take_app_length in H.
  - destruct (Nat.eqb_spec pos 0) as [->|]; [|discriminate].
    exists [], s, cap. repeat split; auto. constructor.
  - destruct s; [|discriminate].
    exists [], [], cap. rewrite Nat.add_0_r. repeat split; auto. constructor.
Qed.

(** A search that succeeds found a match of the pattern somewhere. *)
Lemma search_from_sound ci r s : forall pos m,
  search_from ci r pos s = Some m ->
  exists pre w rest,
    s = (pre ++ w ++ rest)%list
    /\ Match ci r (pos + length pre) w rest None (m_group1 m)
    /\ m_start m = (pos + length pre)%nat
    /\ m_end m = (pos + length pre + length w)%nat.
Proof.
  induction s as [|c s IH]; intros pos m H; simpl in H.
  - destruct (run ci r pos [] None _) eqn:E.
    + injection H as <-. apply run_sound in E as (w & rest & cap' & Hs & Hm & Hk).
      injection Hk as <-. exists [], w, rest. simpl. rewrite Nat.add_0_r. done.
    + discriminate.
  - destruct (run ci r pos (c :: s) None _) eqn:E.
    + injection H as <-. apply run_sound in E as (w & rest & cap' & Hs & Hm & Hk).
      injection Hk as <-. exists [], w, rest. simpl. rewrite Nat.add_0_r. done.
    + apply IH in H as (pre & w & rest & -> & Hm & Hs & He).
      exists (c :: pre), w, rest. simpl.
      replace (pos + S (length pre))%nat with (S pos + length pre)%nat by lia. done.
Qed.

Lemma exec_sound ci r s m :
  exec ci r s = Some m ->
  exists pre w rest,
    Js.chars s = (pre ++ w ++ rest)%list
    /\ Match ci r (length pre) w rest None (m_group1 m)
    /\ m_start m = length pre
    /\ m_end m = (length pre + length w)%nat.
Proof. intros H. by apply search_from_sound in H. Qed.

(** The matcher is complete for existence: when the pattern matches and
    the continuation accepts that match, the run succeeds. *)
Lemma run_complete {R} ci r pos w rest cap cap' :
  Match ci r pos w rest cap cap' ->
  forall k : @cont R,
    is_Some (k (pos + length w)%nat rest cap') ->
    is_Some (run ci r pos (w ++ rest) cap k)
    /\ match r with
       | Star r0 =>
           forall fuel, (length (w ++ rest) < fuel)%nat ->
                        is_Some (star_loop ci r0 k fuel pos (w ++ rest) cap)
       | _ => True
       end.
Proof.
  assert (Hor : forall (a : option R) b, is_Some a \/ is_Some (b tt) -> is_Some (orelse a b)).
  { intros [x|] b [H|H]; simpl; eauto. by destruct H. }
  induction 1; intros k Hk; simpl length in *; rewrite ?Nat.add_0_r, ?Nat.add_1_r in *.
  - done.
  - simpl. by rewrite H.
  - simpl. by rewrite H.
  - simpl. by rewrite H.
  - split; [|done]. rewrite <- app_assoc. simpl.
    apply IHMatch1. apply IHMatch2. by rewrite length_app, Nat.add_assoc in Hk.
  - split; [|done]. simpl. apply Hor. left. by apply IHMatch.
  - split; [|done]. simpl. apply Hor. right. by apply IHMatch.
  - split; [|done]. simpl. apply Hor. left. by apply IHMatch.
  - split; [|done]. simpl. apply Hor. by right.
  - assert (Hf : forall fuel, is_Some (star_loop ci r k fuel pos rest cap)).
    { intros [|fuel]; simpl; [done|]. apply Hor. by right. }
    split; [|by intros]. rewrite run_Star. apply Hf.
  - assert (Hf : forall fuel, (length ((w1 ++ w2) ++ rest) < fuel)%nat ->
              is_Some (star_loop ci r k fuel pos ((w1 ++ w2) ++ rest) cap)).
    { intros [|fuel] Hlt; [lia|]. simpl. apply Hor. left.
      rewrite <- app_assoc. apply IHMatch1.
      destruct (Nat.ltb_spec pos (pos + length w1)) as [_|Hge].
      - apply IHMatch2.
        + by rewrite length_app, Nat.add_assoc in Hk.
        + rewrite !length_app in *. destruct w1; [done|]. simpl in *. lia.
      - destruct w1; [done|]. simpl in Hge. lia. }
    split; [|done]. rewrite run_Star. apply Hf. lia.
  - split; [|done]. rewrite run_Plus, <- app_assoc. apply IHMatch1.
    apply (IHMatch2 k).
    + by rewrite length_app, Nat.add_assoc in Hk.
    + lia.
  - split; [|done]. simpl. apply IHMatch.
    replace (pos + length w - pos)%nat with (length w) by lia.
    by rewrite take_app_length.
  - done.
  - done.
Qed.

(** A leftmost search finds a match when there is one. *)
Lemma search_from_complete ci r pre w rest cap' : forall pos,
  Match ci r (pos + length pre) w rest None cap' ->
  is_Some (search_from ci r pos (pre ++ w ++ rest)).
Proof.
  induction pre as [|c pre IH]; intros pos Hm.
  - simpl in *. rewrite Nat.add_0_r in Hm.
    eapply (run_complete (R:=found)) in Hm as [[m Hm] _]; [|].
    + destruct (w ++ rest)%list; simpl; rewrite Hm; done.
    + done.
  - simpl. destruct (run _ _ _ _ _ _); [done|].
    apply IH. by replace (S pos + length pre)%nat with (pos + length (c :: pre))%nat
      by (simpl; lia).
Qed.

(** A pattern that must see the character [c] matches only text that
    holds it. *)
Lemma must_elem ci c r pos w rest cap cap' :
  Match ci r pos w rest cap cap' -> must ci c r = true ->
  exists c', c' ∈ w /\ same_char ci c c' = true.
Proof.
  induction 1; simpl; intros Hm; try discriminate.
  - exists c'. split; [by apply list_elem_of_singleton|].
    unfold same_char in *. destruct ci.
    + apply Nat.eqb_eq in H, Hm. apply Nat.eqb_eq. congruence.
    + apply Nat.eqb_eq in H, Hm. apply Nat.eqb_eq. congruence.
  - apply orb_true_iff in Hm as [Hm|Hm].
    + destruct (IHMatch1 Hm) as (c' & ? & ?). exists c'. split; [rewrite elem_of_app; auto|done].
    + destruct (IHMatch2 Hm) as (c' & ? & ?). exists c'. split; [rewrite elem_of_app; auto|done].
  - apply andb_true_iff in Hm as [Hm _]. auto.
  - apply andb_true_iff in Hm as [_ Hm]. auto.
  - destruct (IHMatch1 Hm) as (c' & ? & ?). exists c'. split; [rewrite elem_of_app; auto|done].
  - auto.
Qed.

Lemma exec_must ci c r s :
  must ci c r = true ->
  (forall c', c' ∈ Js.chars s -> same_char ci c c' = false) ->
  exec ci r s = None.
Proof.
  intros Hm Hno. destruct (exec ci r s) as [m|] eqn:E; [|done].
  apply exec_sound in E as (pre & w & rest & Hs & HM & _).
  destruct (must_elem _ _ _ _ _ _ _ _ HM Hm) as (c' & Hin & Hc).
  rewrite Hno in Hc; [done|]. rewrite Hs, !elem_of_app. auto.
Qed.

(** Inversion of [Match], one lemma per construct. *)
Lemma Match_Eps_inv ci pos w rest cap cap' :
  Match ci Eps pos w rest cap cap' -> w = [] /\ cap' = cap.
Proof. by inversion 1. Qed.

Lemma Match_Lit_inv ci c pos w rest cap cap' :
  Match ci (Lit c) pos w rest cap cap' ->
  exists c', w = [c'] /\ same_char ci c c' = true /\ cap' = cap.
Proof. inversion 1; subst. by eexists. Qed.

Lemma Match_Class_inv ci p pos w rest cap cap' :
  Match ci (Class p) pos w rest cap cap' ->
  exists c', w = [c'] /\ p c' = true /\ cap' = cap.
Proof. inversion 1; subst. by eexists. Qed.

Lemma Match_Seq_inv ci r1 r2 pos w rest cap cap' :
  Match ci (Seq r1 r2) pos w rest cap cap' ->
  exists w1 w2 cap1,
    w = (w1 ++ w2)%list /\ Match ci r1 pos w1 (w2 ++ rest) cap cap1
    /\ Match ci r2 (pos + length w1) w2 rest cap1 cap'.
Proof. inversion 1; subst. by eexists _, _, _. Qed.

Lemma Match_Alt_inv ci r1 r2 pos w rest cap cap' :
  Match ci (Alt r1 r2) pos w rest cap cap' ->
  Match ci r1 pos w rest cap cap' \/ Match ci r2 pos w rest cap cap'.
Proof. inversion 1; subst; auto. Qed.

Lemma Match_Opt_inv ci r pos w rest cap cap' :
  Match ci (Opt r) pos w rest cap cap' ->
  Match ci r pos w rest cap cap' \/ (w = [] /\ cap' = cap).
Proof. inversion 1; subst; auto. Qed.

Lemma Match_Plus_inv ci r pos w rest cap cap' :
  Match ci (Plus r) pos w rest cap cap' ->
  exists w1 w2 cap1,
    w = (w1 ++ w2)%list /\ Match ci r pos w1 (w2 ++ rest) cap cap1
    /\ Match ci (Star r) (pos + length w1) w2 rest cap1 cap'.
Proof. inversion 1; subst. by eexists _, _, _. Qed.

Lemma Match_Group_inv ci r pos w rest cap cap' :
  Match ci (Group r) pos w rest cap cap' ->
  cap' = Some w /\ exists cap1, Match ci r pos w rest cap cap1.
Proof. inversion 1; subst. split; [done|]. by eexists. Qed.

Lemma Match_Bol_inv ci pos w rest cap cap' :
  Match ci Bol pos w rest cap cap' -> pos = 0%nat /\ w = [] /\ cap' = cap.
Proof. by inversion 1. Qed.

Lemma Match_Eol_inv ci pos w rest cap cap' :
  Match ci Eol pos w rest cap cap' -> w = [] /\ rest = [] /\ cap' = cap.
Proof. by inversion 1. Qed.

Lemma Match_star_class ci p pos w rest cap cap' :
  Match ci (Star (Class p)) pos w rest cap cap' -> forallb p w = true /\ cap' = cap.
Proof.
  remember (Star (Class p)) as r eqn:Er. induction 1; try discriminate.
  - done.
  - injection Er as ->. apply Match_Class_inv in H0 as (c & -> & Hc & ->). simpl.
    destruct (IHMatch2 eq_refl) as [-> ->]. by rewrite Hc.
Qed.

Lemma star_class_Match ci p w : forall pos rest cap,
  forallb p w = true -> Match ci (Star (Class p)) pos w rest cap cap.
Proof.
  induction w as [|c w IH]; intros pos rest cap H; [constructor|].
  simpl in H. apply andb_true_iff in H as [Hc Hw].
  apply (MStarCons ci (Class p) pos [c] w rest cap cap cap); [done| |].
  - by constructor.
  - by apply IH.
Qed.

End RegexFacts.

Module HandleFacts.
Import Regex RegexSpec RegexFacts Client.

Lemma chars_str l : Js.chars (Js.str l) = l.
Proof. apply list_ascii_of_string_of_list_ascii. Qed.

Lemma str_chars s : Js.str (Js.chars s) = s.
Proof. apply string_of_list_ascii_of_string. Qed.

Lemma length_chars s : length (Js.chars s) = String.length s.
Proof. induction s; simpl; auto. Qed.

Lemma chars_app a b : Js.chars (a +:+ b) = (Js.chars a ++ Js.chars b)%list.
Proof. induction a; simpl; [done|]. by rewrite <- IHa. Qed.

Lemma truthy_chars s : Js.truthy s = true <-> Js.chars s <> [].
Proof. destruct s; simpl; split; intros; done. Qed.

Lemma alnum_alnum_dash c : alnum c = true -> alnum_dash c = true.
Proof. unfold alnum_dash. intros ->. done. Qed.

Lemma alnum_not_space c : alnum c = true -> Js.is_space c = false.
Proof.
  unfold alnum, Js.is_space, Js.is_lower, Js.is_upper, Js.is_digit, Js.between.
  intros H. destruct (Js.is_space c) eqn:E; [|done]. unfold Js.is_space, Js.between in E.
  exfalso.
  repeat match goal with
         | H : _ || _ = true |- _ => apply orb_true_iff in H as [H|H]
         | H : _ && _ = true |- _ => apply andb_true_iff in H as [? ?]
         | H : (_ <=? _)%nat = true |- _ => apply Nat.leb_le in H
         | H : (_ =? _)%nat = true |- _ => apply Nat.eqb_eq in H
         end; lia.
Qed.

(** [trim] leaves a text alone whose first and last characters are not
    white space. *)
Lemma trim_fixed c l :
  Js.is_space c = false -> Js.is_space (List.last l c) = false ->
  Js.trim (Js.str (c :: l)) = Js.str (c :: l).
Proof.
  intros Hc Hl. unfold Js.trim. rewrite chars_str. f_equal.
  simpl Js.drop_spaces at 2. rewrite Hc.
  assert (Hr : Js.drop_spaces (rev (c :: l)) = rev (c :: l)).
  { destruct (rev (c :: l)) as [|d l'] eqn:E; [done|].
    assert (Hd : d = List.last l c).
    { apply (f_equal (@rev _)) in E. rewrite rev_involutive in E. simpl in E.
      destruct (rev l') as [|x l''] eqn:E'; simpl in E.
      - injection E as -> ->. done.
      - injection E as -> ->. clear. induction l'' as [|y l'' IH]; [done|].
        simpl. destruct (l'' ++ [d])%list eqn:E; [by destruct l''|]. done. }
    simpl. by rewrite Hd, Hl. }
  rewrite Hr. apply rev_involutive.
Qed.

Lemma wellFormed_spec h :
  wellFormed h = true <->
  exists c l, Js.chars h = c :: l /\ alnum c = true /\ forallb alnum_dash l = true
              /\ alnum (List.last l c) = true /\ (length (c :: l) <= 39)%nat.
Proof.
  unfold wellFormed. destruct (Js.chars h) as [|c l].
  - split; [done|]. by intros (? & ? & ? & _).
  - rewrite !andb_true_iff, Nat.leb_le. split.
    + intros [[[? ?] ?] ?]. by exists c, l.
    + intros (c' & l' & [= <- <-] & ? & ? & ? & ?). done.
Qed.

Lemma trim_wellFormed h : wellFormed h = true -> Js.trim h = h.
Proof.
  intros (c & l & Hh & Hc & _ & Hl & _)%wellFormed_spec.
  rewrite <- (str_chars h), Hh. apply trim_fixed; by apply alnum_not_space.
Qed.

Lemma last_snoc_default {A} (l : list A) (d x : A) : List.last (l ++ [x]) d = x.
Proof. induction l as [|y l IH]; [done|]. simpl. destruct (l ++ [x])%list eqn:E; [by destruct l|]. done. Qed.

Lemma last_cons_default {A} (l : list A) (c d : A) :
  List.last (c :: l) d = List.last l c.
Proof.
  revert c d. induction l as [|y l IH]; intros c d; [done|].
  change (List.last (c :: y :: l) d) with (List.last (y :: l) d).
  by rewrite (IH y d), (IH y c).
Qed.

Lemma forallb_snoc {A} (p : A -> bool) l x :
  forallb p (l ++ [x]) = forallb p l && p x.
Proof. rewrite forallb_app. simpl. by rewrite andb_true_r. Qed.

(** What [username_re] accepts: one letter or digit, then, optionally,
    letters, digits and hyphens ending in a letter or digit. *)
Lemma username_re_test s :
  test false username_re s = true <->
  exists c l, Js.chars s = c :: l /\ alnum c = true /\ forallb alnum_dash l = true
              /\ alnum (List.last l c) = true.
Proof.
  unfold test. split.
  - destruct (exec false username_re s) as [m|] eqn:E; [intros _|done].
    apply exec_sound in E as (pre & w & rest & Hs & HM & _).
    unfold username_re, Cat in HM. simpl in HM.
    apply Match_Seq_inv in HM as (w1 & wA & cap1 & -> & H1 & HM).
    apply Match_Bol_inv in H1 as (Hp & -> & ->). destruct pre; [|done]. simpl in *.
    apply Match_Seq_inv in HM as (w2 & wB & cap2 & -> & H2 & HM).
    apply Match_Class_inv in H2 as (c & -> & Hc & ->). simpl in HM.
    apply Match_Seq_inv in HM as (w3 & wC & cap3 & -> & H3 & HM).
    apply Match_Seq_inv in HM as (w4 & wD & cap4 & -> & H4 & HM).
    apply Match_Eol_inv in H4 as (-> & H4 & ->). apply app_eq_nil in H4 as [_ ->].
    apply Match_Eps_inv in HM as [-> _].
    rewrite !app_nil_r in Hs. exists c, w3. split; [done|]. split; [done|].
    apply Match_Opt_inv in H3 as [H3 | [-> _]]; [|done].
    apply Match_Group_inv in H3 as [_ (cap5 & H3)].
    apply Match_Seq_inv in H3 as (wa & wb & cap6 & -> & Ha & Hb).
    apply Match_star_class in Ha as [Ha ->].
    apply Match_Class_inv in Hb as (d & -> & Hd & _).
    rewrite forallb_snoc, last_snoc_default, Ha. simpl.
    split; [by apply alnum_alnum_dash|done].
  - intros (c & l & Hs & Hc & Hl & Hlast).
    assert (HM : Match false username_re 0 (c :: l) [] None
                       (match l with [] => None | _ => Some l end)).
    { unfold username_re, Cat. simpl.
      apply (MSeq false Bol _ 0 [] (c :: l) [] None None); [constructor|].
      apply (MSeq false (Class alnum) _ 0 [c] l [] None None); [by constructor|].
      replace l with (l ++ [])%list at 1 by apply app_nil_r.
      apply (MSeq false _ _ _ l [] [] None (match l with [] => None | _ => Some l end)).
      - destruct l as [|x l' _] using rev_ind; [apply MOptNone|].
        replace (match (l' ++ [x])%list with [] => None | _ => Some (l' ++ [x])%list end)
          with (Some (l' ++ [x])%list) by (by destruct l').
        apply MOptSome. apply (MGroup false _ _ _ _ None None).
        rewrite forallb_snoc in Hl. apply andb_true_iff in Hl as [Hl' _].
        rewrite last_snoc_default in Hlast.
        apply (MSeq false _ _ _ l' [x] _ None None None).
        + by apply star_class_Match.
        + by constructor.
      - eapply (MSeq false Eol Eps _ [] [] []); constructor. }
    pose proof (search_from_complete false username_re [] (c :: l) [] _ 0 HM) as [m Hm].
    unfold exec. rewrite Hs. simpl app in Hm. rewrite app_nil_r in Hm. by rewrite Hm.
Qed.

Lemma trim_empty s : Js.truthy (Js.trim s) = true -> Js.truthy s = true.
Proof. by destruct s. Qed.

Lemma cleanUsername_spec u h :
  cleanUsername u = Some h <-> h = Js.trim u /\ wellFormed h = true.
Proof.
  unfold cleanUsername. split.
  - destruct (Js.truthy u); [|done]. simpl.
    destruct (test false username_re (Js.trim u)) eqn:Et; [|done]. simpl.
    destruct (_ || _) eqn:El; [done|]. intros [= <-]. split; [done|].
    apply orb_false_iff in El as [_ El]. apply Nat.ltb_ge in El.
    apply username_re_test in Et as (c & l & Hs & Hc & Hl & Hlast).
    apply wellFormed_spec. exists c, l. repeat split; auto.
    rewrite <- length_chars, Hs in El. done.
  - intros [-> Hw]. pose proof Hw as (c & l & Hs & Hc & Hl & Hlast & Hlen)%wellFormed_spec.
    assert (Ht : Js.truthy (Js.trim u) = true) by (apply truthy_chars; by rewrite Hs).
    rewrite (trim_empty _ Ht). simpl.
    assert (Et : test false username_re (Js.trim u) = true).
    { apply username_re_test. by exists c, l. }
    rewrite Et. simpl. rewrite <- length_chars, Hs.
    replace (length (c :: l) =? 0)%nat with false by done.
    apply Nat.ltb_ge in Hlen. by rewrite Hlen.
Qed.

(** The characters of a handle are none of the separators the URL
    patterns and the prefix patterns look for. *)
Lemma alnum_dash_separators ci c :
  alnum_dash c = true ->
  same_char ci "." c = false /\ same_char ci ":" c = false
  /\ same_char ci "/" c = false /\ c <> "@"%char.
Proof.
  destruct ci, c as [[] [] [] [] [] [] [] []]; vm_compute; intros H;
    try discriminate H; repeat split; discriminate.
Qed.

Lemma forallb_elem {A} (p : A -> bool) l x : forallb p l = true -> x ∈ l -> p x = true.
Proof. intros H Hx. rewrite forallb_forall in H. apply H. by apply list_elem_of_In. Qed.

Lemma wellFormed_chars h c :
  wellFormed h = true -> c ∈ Js.chars h -> alnum_dash c = true.
Proof.
  intros (c0 & l & Hh & Hc & Hl & _)%wellFormed_spec. rewrite Hh.
  intros [->|Hin]%elem_of_cons; [by apply alnum_alnum_dash|].
  by apply (forallb_elem _ l).
Qed.

Lemma tryUrlPatterns_wellFormed ps v h :
  tryUrlPatterns ps v = Some (Some h) -> wellFormed h = true.
Proof.
  induction ps as [|p ps IH]; simpl; [done|].
  destruct (exec true p v) as [[? ? [[|c g]|]]|]; auto.
  intros [= H]. by apply cleanUsername_spec in H as [_ H].
Qed.

Lemma extractUsername_wellFormed v h :
  extractUsername v = Some h -> wellFormed h = true.
Proof.
  unfold extractUsername.
  destruct (Js.truthy v); [|done]. cbn [negb].
  destruct (Js.truthy (Js.trim v)); [|done]. cbn [negb].
  destruct (tryUrlPatterns githubUrlPatterns (Js.trim v)) as [r|] eqn:E.
  - intros ->. by apply tryUrlPatterns_wellFormed in E.
  - intros H. by apply cleanUsername_spec in H as [_ H].
Qed.

(** No URL pattern matches a text without a dot. *)
Lemma tryUrlPatterns_no_dot v :
  (forall c, c ∈ Js.chars v -> same_char true "." c = false) ->
  tryUrlPatterns githubUrlPatterns v = None.
Proof.
  intros H. unfold githubUrlPatterns. simpl.
  rewrite !(exec_must true "." _ v); auto.
Qed.

Lemma trim_chars s c l :
  Js.chars s = c :: l -> Js.is_space c = false -> Js.is_space (List.last l c) = false ->
  Js.trim s = s.
Proof.
  intros Hs Hc Hl. rewrite <- (str_chars s), Hs. by apply trim_fixed.
Qed.

(** The direct path of [extractUsername] on a handle: nothing is cut. *)
Lemma direct_path h :
  wellFormed h = true ->
  Js.startsWith "@" h = false
  /\ remove_first true prefix_re h = h
  /\ remove_first false trailing_slashes_re h = h
  /\ remove_first false git_suffix_re h = h
  /\ cleanUsername h = Some h.
Proof.
  intros Hw.
  assert (Hsep : forall ci c, c ∈ Js.chars h ->
            same_char ci "." c = false /\ same_char ci ":" c = false
            /\ same_char ci "/" c = false /\ c <> "@"%char).
  { intros ci c Hc. apply alnum_dash_separators. by apply (wellFormed_chars h). }
  repeat split.
  - destruct h as [|c h']; [done|].
    destruct (Hsep false c) as (_ & _ & _ & Hat); [simpl; by left|].
    unfold Js.startsWith. cbn -[ascii_dec]. destruct (ascii_dec "@" c) as [<-|]; done.
  - unfold remove_first. rewrite (exec_must true ":"); [done|done|].
    intros c Hc. by apply Hsep.
  - unfold remove_first. rewrite (exec_must false "/"); [done|done|].
    intros c Hc. by apply Hsep.
  - unfold remove_first. rewrite (exec_must false "."); [done|done|].
    intros c Hc. by apply Hsep.
  - apply cleanUsername_spec. by rewrite trim_wellFormed.
Qed.

Lemma extractUsername_handle h :
  wellFormed h = true -> extractUsername h = Some h.
Proof.
  intros Hw. destruct (direct_path h Hw) as (Hat & Hp & Hs & _ & Hc).
  unfold extractUsername. rewrite (trim_wellFormed h Hw).
  assert (Ht : Js.truthy h = true).
  { apply wellFormed_spec in Hw as (c & l & Hh & _). apply truthy_chars. by rewrite Hh. }
  rewrite Ht. cbn [negb].
  rewrite tryUrlPatterns_no_dot.
  - by rewrite Hat, Hp, Hs, (trim_wellFormed h Hw).
  - intros c Hin. by apply alnum_dash_separators, (wellFormed_chars h).
Qed.

Lemma extractUsername_at h :
  wellFormed h = true -> extractUsername ("@" +:+ h) = Some h.
Proof.
  intros Hw. destruct (direct_path h Hw) as (Hat & Hp & Hs & _ & Hc).
  pose proof Hw as (c & l & Hh & Hc0 & Hl & Hlast & _)%wellFormed_spec.
  assert (Htrim : Js.trim ("@" +:+ h) = "@" +:+ h).
  { apply (trim_chars _ "@" (c :: l)).
    - simpl. f_equal. exact Hh.
    - done.
    - rewrite last_cons_default. by apply alnum_not_space. }
  unfold extractUsername. rewrite Htrim.
  change (Js.truthy ("@" +:+ h)) with true. cbn [negb].
  rewrite tryUrlPatterns_no_dot.
  - assert (Hst : Js.startsWith "@" ("@" +:+ h) = true).
    { unfold Js.startsWith. cbn -[ascii_dec].
      destruct (ascii_dec "@" "@"); [|done]. by destruct h. }
    rewrite Hst. change (Js.substring1 ("@" +:+ h)) with h.
    by rewrite Hp, Hs, (trim_wellFormed h Hw).
  - intros c' [->|Hin]%elem_of_cons; [done|].
    by apply alnum_dash_separators, (wellFormed_chars h).
Qed.

End HandleFacts.

Module GreedyFacts.
Import Regex RegexSpec RegexFacts Client HandleFacts.

Lemma star_loop_S {R} ci r (k : @cont R) fuel pos s cap :
  star_loop ci r k (S fuel) pos s cap
  = orelse (run ci r pos s cap
                (fun pos' s' cap' =>
                   if (pos <? pos')%nat then star_loop ci r k fuel pos' s' cap' else None))
           (fun _ => k pos s cap).
Proof. reflexivity. Qed.

Lemma run_Class_cons {R} ci p (k : @cont R) pos c s cap :
  run ci (Class p) pos (c :: s) cap k = if p c then k (S pos) s cap else None.
Proof. reflexivity. Qed.

Lemma run_Class_stop {R} ci p (k : @cont R) pos rest cap :
  stops p rest = true -> run ci (Class p) pos rest cap k = None.
Proof.
  destruct rest as [|c rest]; [done|]. simpl. intros H%negb_true_iff. by rewrite H.
Qed.

Lemma star_loop_class_stop {R} ci p (k : @cont R) fuel pos rest cap :
  stops p rest = true ->
  star_loop ci (Class p) k fuel pos rest cap = k pos rest cap.
Proof.
  intros Hs. destruct fuel; [done|]. rewrite star_loop_S.
  by rewrite run_Class_stop.
Qed.

(** A greedy [[...]*] takes every character of the class when the
    continuation accepts that. *)
Lemma star_loop_class_greedy {R} ci p (k : @cont R) w rest cap x :
  forallb p w = true -> stops p rest = true ->
  forall fuel pos,
    (length w <= fuel)%nat ->
    k (pos + length w)%nat rest cap = Some x ->
    star_loop ci (Class p) k fuel pos (w ++ rest) cap = Some x.
Proof.
  intros Hw Hs. induction w as [|a w IH]; intros fuel pos Hf Hk.
  - simpl in *. rewrite Nat.add_0_r in Hk. by rewrite star_loop_class_stop.
  - simpl in Hw. apply andb_true_iff in Hw as [Ha Hw].
    destruct fuel as [|fuel]; [simpl in Hf; lia|].
    rewrite star_loop_S. simpl app. rewrite run_Class_cons, Ha.
    destruct (Nat.ltb_spec pos (S pos)) as [_|]; [|lia].
    rewrite (IH Hw fuel (S pos)); [done| simpl in Hf; lia|].
    simpl in Hk. by replace (S pos + length w)%nat with (pos + S (length w))%nat by lia.
Qed.

Lemma run_plus_class_greedy {R} ci p (k : @cont R) a w rest cap x pos :
  p a = true -> forallb p w = true -> stops p rest = true ->
  k (pos + S (length w))%nat rest cap = Some x ->
  run ci (Plus (Class p)) pos (a :: w ++ rest) cap k = Some x.
Proof.
  intros Ha Hw Hs Hk. rewrite run_Plus, run_Class_cons, Ha.
  apply star_loop_class_greedy; auto.
  - rewrite length_app. lia.
  - by replace (S pos + length w)%nat with (pos + S (length w))%nat by lia.
Qed.

(** [[p]*[q]] with [q] inside [p]: the star gives back one character. *)
Lemma star_class_then_class {R} ci (p q : ascii -> bool) (k : @cont R) l d rest cap x :
  (forall c, q c = true -> p c = true) ->
  forallb p l = true -> q d = true -> stops p rest = true ->
  forall fuel pos,
    (length l < fuel)%nat ->
    k (pos + S (length l))%nat rest cap = Some x ->
    star_loop ci (Class p) (fun pos s cap => run ci (Class q) pos s cap k)
              fuel pos (l ++ d :: rest) cap = Some x.
Proof.
  intros Hqp Hl Hd Hs.
  assert (Hq : forall pos, run ci (Class q) pos rest cap k = None).
  { intros pos. apply run_Class_stop. destruct rest as [|c rest]; [done|]. simpl in *.
    destruct (q c) eqn:E; [|done]. apply Hqp in E. by rewrite E in Hs. }
  induction l as [|a l IH]; intros fuel pos Hf Hk.
  - destruct fuel as [|fuel]; [lia|]. simpl app.
    rewrite star_loop_S, run_Class_cons, (Hqp d Hd).
    destruct (Nat.ltb_spec pos (S pos)) as [_|]; [|lia].
    rewrite star_loop_class_stop by done. rewrite Hq. cbn [orelse].
    rewrite run_Class_cons, Hd. by rewrite Nat.add_1_r in Hk.
  - simpl in Hl. apply andb_true_iff in Hl as [Ha Hl].
    destruct fuel as [|fuel]; [lia|]. simpl app.
    rewrite star_loop_S, run_Class_cons, Ha.
    destruct (Nat.ltb_spec pos (S pos)) as [_|]; [|lia].
    rewrite (IH Hl fuel (S pos)); [done|simpl in Hf; lia|].
    simpl in Hk. by replace (S pos + S (length l))%nat with (pos + S (S (length l)))%nat by lia.
Qed.

Lemma run_Seq {R} ci a b (k : @cont R) pos s cap :
  run ci (Seq a b) pos s cap k
  = run ci a pos s cap (fun pos' s' cap' => run ci b pos' s' cap' k).
Proof. reflexivity. Qed.

Lemma run_Opt {R} ci a (k : @cont R) pos s cap :
  run ci (Opt a) pos s cap k = orelse (run ci a pos s cap k) (fun _ => k pos s cap).
Proof. reflexivity. Qed.

Lemma run_Group {R} ci a (k : @cont R) pos s cap :
  run ci (Group a) pos s cap k
  = run ci a pos s cap (fun pos' s' _ => k pos' s' (Some (firstn (pos' - pos) s))).
Proof. reflexivity. Qed.

Lemma stops_alnum rest : stops alnum_dash rest = true -> stops alnum rest = true.
Proof.
  destruct rest as [|c rest]; [done|]. simpl. intros H%negb_true_iff.
  destruct (alnum c) eqn:E; [|done]. apply alnum_alnum_dash in E. congruence.
Qed.

(** [handle_re] on a well-formed handle takes all of it. *)
Lemma run_handle_re {R} ci (k : @cont R) c l rest cap x pos :
  alnum c = true -> forallb alnum_dash l = true -> alnum (List.last l c) = true ->
  stops alnum_dash rest = true ->
  k (pos + S (length l))%nat rest cap = Some x ->
  run ci handle_re pos (c :: l ++ rest) cap k = Some x.
Proof.
  intros Hc Hl Hlast Hs Hk. unfold handle_re.
  rewrite run_Seq, run_Class_cons, Hc, run_Opt.
  destruct l as [|d l' _] using rev_ind.
  - simpl app. simpl in Hk. rewrite Nat.add_1_r in Hk.
    rewrite run_Seq, run_Star, star_loop_class_stop by done.
    rewrite run_Class_stop by (by apply stops_alnum). done.
  - rewrite forallb_snoc in Hl. apply andb_true_iff in Hl as [Hl' _].
    rewrite last_snoc_default in Hlast.
    rewrite <- app_assoc. simpl app. rewrite run_Seq, run_Star.
    rewrite (star_class_then_class ci alnum_dash alnum k l' d rest cap x);
      auto using alnum_alnum_dash.
    + rewrite length_app. simpl. lia.
    + rewrite length_app in Hk. simpl in Hk.
      by replace (S pos + S (length l'))%nat with (pos + S (length l' + 1))%nat by lia.
Qed.

Lemma search_from_found ci r pos s m :
  run ci r pos s None (fun e _ cap => Some (Found pos e cap)) = Some m ->
  search_from ci r pos s = Some m.
Proof. intros H. destruct s; simpl; by rewrite H. Qed.

Lemma search_from_skip ci r pos c s :
  run ci r pos (c :: s) None (fun e _ cap => Some (Found pos e cap)) = None ->
  search_from ci r pos (c :: s) = search_from ci r (S pos) s.
Proof. intros H. simpl. by rewrite H. Qed.

Lemma run_Lit_cons {R} ci a (k : @cont R) pos b s cap :
  run ci (Lit a) pos (b :: s) cap k = if same_char ci a b then k (S pos) s cap else None.
Proof. reflexivity. Qed.

Lemma run_Lit_nil {R} ci a (k : @cont R) pos cap : run ci (Lit a) pos [] cap k = None.
Proof. reflexivity. Qed.

Lemma run_Eol_nil {R} ci (k : @cont R) pos cap : run ci Eol pos [] cap k = k pos [] cap.
Proof. reflexivity. Qed.

Lemma run_Eol_cons {R} ci (k : @cont R) pos c s cap : run ci Eol pos (c :: s) cap k = None.
Proof. reflexivity. Qed.

Lemma run_Eps {R} ci (k : @cont R) pos s cap : run ci Eps pos s cap k = k pos s cap.
Proof. reflexivity. Qed.

Ltac eval_chars :=
  repeat match goal with
         | |- context [same_char ?ci (Ascii ?a ?b ?c ?d ?e ?f ?g ?h)
                                 (Ascii ?a' ?b' ?c' ?d' ?e' ?f' ?g' ?h')] =>
             let t := constr:(same_char ci (Ascii a b c d e f g h)
                                        (Ascii a' b' c' d' e' f' g' h')) in
             let v := eval vm_compute in t in
             change t with v
         end.

Ltac crunch :=
  repeat first
    [ rewrite run_Seq | rewrite run_Opt | rewrite run_Lit_cons | rewrite run_Lit_nil
    | rewrite run_Eol_nil | rewrite run_Eol_cons | rewrite run_Eps | rewrite run_Group
    | progress eval_chars | progress cbv beta iota | progress cbn [orelse] ].

Lemma take_handle (p : nat) (c : ascii) l rest :
take (p + S (length l) - p) (c :: l ++ rest) = c :: l.
Proof.
replace (p + S (length l) - p)%nat with (S (length l)) by lia.
simpl. by rewrite take_app_length.
Qed.

Lemma exec_profile_url scheme www slash h c l :
scheme ∈ [""; "http://"; "https://"] -> www ∈ [""; "www."] -> slash ∈ [""; "/"] ->
Js.chars h = c :: l ->
alnum c = true -> forallb alnum_dash l = true -> alnum (List.last l c) = true ->
exists e,
  exec true (Cat [scheme_re; Opt (Word "www."); Word "github.com/"; Group handle_re;
         Opt (Lit "/"); Opt (Seq (Lit "?") (Star AnyChar));
         Opt (Seq (Lit "#") (Star AnyChar)); Eol])
       (scheme +:+ www +:+ "github.com/" +:+ h +:+ slash)
  = Some (Found 0 e (Some (c :: l))).
Proof.
intros Hscheme Hwww Hslash Hh Hc Hl Hlast.
assert (Hrh : forall (k : @cont found) cap x pos,
           k (pos + S (length l))%nat (Js.chars slash) cap = Some x ->
           run true handle_re pos (c :: l ++ Js.chars slash) cap k = Some x).
{ intros. apply run_handle_re; auto.
  repeat (apply elem_of_cons in Hslash as [->|Hslash]); try done. by apply elem_of_nil in Hslash. }
set (rh := handle_re) in *. clearbody rh.
unfold exec. rewrite !chars_app, Hh.
repeat match goal with
       | H : _ ∈ _ :: _ |- _ => apply elem_of_cons in H as [->|H]
       | H : _ ∈ [] |- _ => by apply elem_of_nil in H
       end.
  all: eexists; apply search_from_found;
    unfold scheme_re, Cat, Word;
    cbn [fold_right word_of Js.chars list_ascii_of_string app] in *;
    crunch.
  all: try (erewrite Hrh; [|crunch; rewrite take_handle; reflexivity]; crunch; reflexivity).
Qed.

Lemma trim_fixed_snoc a m z :
  Js.is_space a = false -> Js.is_space z = false ->
  Js.trim (Js.str (a :: m ++ [z])) = Js.str (a :: m ++ [z]).
Proof. intros Ha Hz. apply trim_fixed; [done|]. by rewrite last_snoc_default. Qed.

Lemma snoc_last {A} (c : A) l : exists m z, c :: l = (m ++ [z])%list /\ z = List.last l c.
Proof.
  destruct l as [|d l' _] using rev_ind.
  - by exists [], c.
  - exists (c :: l'), d. by rewrite last_snoc_default.
Qed.

(** A profile URL, with or without scheme, [www.] and final slash, is
    read as its handle. *)
Lemma extractUsername_profile_url scheme www slash h :
  scheme ∈ [""; "http://"; "https://"] -> www ∈ [""; "www."] -> slash ∈ [""; "/"] ->
  wellFormed h = true ->
  extractUsername (scheme +:+ www +:+ "github.com/" +:+ h +:+ slash) = Some h.
Proof.
  intros Hscheme Hwww Hslash Hw.
  pose proof Hw as (c & l & Hh & Hc & Hl & Hlast & _)%wellFormed_spec.
  destruct (exec_profile_url scheme www slash h c l Hscheme Hwww Hslash Hh Hc Hl Hlast)
    as [e He].
  destruct (direct_path h Hw) as (_ & _ & _ & Hgit & Hclean).
  set (url := scheme +:+ www +:+ "github.com/" +:+ h +:+ slash) in *.
  assert (Hurl : exists a m z, Js.chars url = a :: m ++ [z]
                               /\ Js.is_space a = false /\ Js.is_space z = false).
  { unfold url. rewrite !chars_app, Hh.
    destruct (snoc_last c l) as (m & z & Hm & Hz). rewrite Hm.
    assert (Hzs : Js.is_space z = false) by (rewrite Hz; by apply alnum_not_space).
    repeat match goal with
           | H : _ ∈ _ :: _ |- _ => apply elem_of_cons in H as [->|H]
           | H : _ ∈ [] |- _ => by apply elem_of_nil in H
           end;
      cbn [Js.chars list_ascii_of_string app];
      match goal with
      | |- exists a m' z', ?a0 :: ?rest = _ /\ _ =>
          first [ exists a0, (removelast rest), z; split; [|done];
                  rewrite ?app_nil_r; f_equal;
                  rewrite ?app_comm_cons, removelast_last; reflexivity
                | exists a0, (removelast rest), "/"%char; split; [|done];
                  f_equal;
                  rewrite ?app_comm_cons, ?app_assoc, removelast_last; reflexivity ]
      end. }
  destruct Hurl as (a & m & z & Hchars & Ha & Hz).
  assert (Htrim : Js.trim url = url).
  { rewrite <- (str_chars url), Hchars. by apply trim_fixed_snoc. }
  assert (Htruthy : Js.truthy url = true) by (apply truthy_chars; by rewrite Hchars).
  unfold extractUsername. rewrite Htrim, Htruthy. cbn [negb].
  unfold githubUrlPatterns. cbn [tryUrlPatterns]. rewrite He.
  rewrite <- Hh, str_chars, Hgit. exact Hclean.
Qed.

End GreedyFacts.

Module ParseFacts.
Import Regex RegexSpec RegexFacts Client HandleFacts GreedyFacts.
Import EngagementRoute EngagementRouteSpec.

Lemma same_char_exact a b : same_char false a b = true <-> a = b.
Proof.
  unfold same_char, Js.code. rewrite Nat.eqb_eq. split; [|by intros ->].
  intros H. by rewrite <- (ascii_nat_embedding a), <- (ascii_nat_embedding b), H.
Qed.

Lemma Match_word_exact a : forall pos w rest cap cap',
  Match false (word_of a) pos w rest cap cap' -> w = a /\ cap' = cap.
Proof.
  induction a as [|c a IH]; intros pos w rest cap cap' H.
  - by apply Match_Eps_inv in H.
  - destruct a as [|c2 a].
    + apply Match_Lit_inv in H as (c' & -> & Hc%same_char_exact & ->). by subst.
    + change (word_of (c :: c2 :: a)) with (Seq (Lit c) (word_of (c2 :: a))) in H.
      apply Match_Seq_inv in H as (w1 & w2 & cap1 & -> & H1 & H2).
      apply Match_Lit_inv in H1 as (c' & -> & Hc%same_char_exact & ->). subst c'.
      apply IH in H2 as [-> ->]. done.
Qed.

Lemma word_Match a : forall pos rest cap, Match false (word_of a) pos a rest cap cap.
Proof.
  induction a as [|c a IH]; intros pos rest cap; [constructor|].
  destruct a as [|c2 a].
  - constructor. by apply same_char_exact.
  - change (word_of (c :: c2 :: a)) with (Seq (Lit c) (word_of (c2 :: a))).
    apply (MSeq false _ _ pos [c] (c2 :: a) rest cap cap cap).
    + constructor. by apply same_char_exact.
    + apply IH.
Qed.

(** [replace(/\.git$/, "")] cuts a final [.git] and nothing else. *)
Lemma remove_dotGit s : remove_first false dotGit_re s = stripGit s.
Proof.
  unfold remove_first, stripGit.
  destruct (exec false dotGit_re s) as [m|] eqn:E.
  - apply exec_sound in E as (pre & w & rest & Hs & HM & Hstart & Hend).
    unfold dotGit_re, Cat, Word in HM. cbn [fold_right] in HM.
    apply Match_Seq_inv in HM as (w1 & w2 & cap1 & -> & H1 & H2).
    apply Match_word_exact in H1 as [-> _].
    apply Match_Seq_inv in H2 as (w3 & w4 & cap2 & -> & H3 & H4).
    apply Match_Eol_inv in H3 as (-> & H3 & _). apply app_eq_nil in H3 as [-> ->].
    rewrite Hs, Hstart, Hend. rewrite !app_nil_r.
    rewrite length_app. change (length (Js.chars ".git")) with 4%nat.
    replace (length pre + 4 - 4)%nat with (length pre) by lia.
    rewrite drop_app_length, take_app_length.
    replace (4 <=? length pre + 4)%nat with true by (symmetry; apply Nat.leb_le; lia).
    rewrite bool_decide_eq_true_2 by done. simpl andb. cbv iota.
    replace (length pre + 4)%nat with (length (pre ++ Js.chars ".git")) by
      (rewrite length_app; done).
    rewrite skipn_all, app_nil_r. done.
  - destruct (_ && _) eqn:Ec; [|done]. exfalso.
    apply andb_true_iff in Ec as [Hlen Hd]. apply Nat.leb_le in Hlen.
    apply bool_decide_eq_true in Hd.
    assert (Hs : Js.chars s = (take (length (Js.chars s) - 4) (Js.chars s)
                               ++ Js.chars ".git" ++ [])%list).
    { rewrite app_nil_r, <- Hd. by rewrite take_drop. }
    assert (HM : Match false dotGit_re
                   (0 + length (take (length (Js.chars s) - 4) (Js.chars s)))
                   (Js.chars ".git") [] None None).
    { unfold dotGit_re, Cat, Word. cbn [fold_right].
      replace (Js.chars ".git") with (Js.chars ".git" ++ [])%list at 2 by apply app_nil_r.
      apply (MSeq false _ _ _ (Js.chars ".git") [] [] None None None).
      - apply word_Match.
      - eapply (MSeq false Eol Eps _ [] [] []); constructor. }
    apply search_from_complete in HM as [m Hm].
    unfold exec in E. rewrite Hs in E. congruence.
Qed.

Lemma stripGit_suffix base : stripGit (base +:+ ".git") = base.
Proof.
  unfold stripGit. rewrite chars_app, length_app.
  change (length (Js.chars ".git")) with 4%nat.
  replace (length (Js.chars base) + 4 - 4)%nat with (length (Js.chars base)) by lia.
  rewrite drop_app_length, take_app_length.
  replace (4 <=? length (Js.chars base) + 4)%nat with true by (symmetry; apply Nat.leb_le; lia).
  rewrite bool_decide_eq_true_2 by done. apply str_chars.
Qed.

(** A search skips the positions where the first literal of the pattern
    does not occur. *)
Lemma search_from_skip_prefix r r2 a pre s : forall pos,
  a ∉ pre ->
  search_from false (Seq (Seq (Lit a) r) r2) pos (pre ++ s)
  = search_from false (Seq (Seq (Lit a) r) r2) (pos + length pre) s.
Proof.
  induction pre as [|c pre IH]; intros pos Hno.
  - simpl. by rewrite Nat.add_0_r.
  - simpl app. rewrite search_from_skip.
    + rewrite IH; [|by intros ?; apply Hno; right]. f_equal. simpl. lia.
    + rewrite !run_Seq, run_Lit_cons.
      destruct (same_char false a c) eqn:E; [|done].
      apply same_char_exact in E as ->. exfalso. apply Hno. by left.
Qed.

Lemma isSegment_spec s :
  isSegment s = true <->
  exists a w, Js.chars s = a :: w /\ notSlash a = true /\ forallb notSlash w = true.
Proof.
  unfold isSegment. destruct (Js.chars s) as [|a w].
  - split; [done|]. by intros (? & ? & ? & _).
  - simpl. rewrite andb_true_iff. split.
    + intros [? ?]. by exists a, w.
    + by intros (? & ? & [= <- <-] & ? & ?).
Qed.

(** Both runs of the pattern find the owner and the name of a URL
    [...github.com/owner/name...]. *)
Lemma exec_repositoryUrl pre a w b v tail :
  "g"%char ∉ pre ->
  notSlash a = true -> forallb notSlash w = true ->
  notSlash b = true -> forallb notSlash v = true ->
  stops notSlash tail = true ->
  let s := Js.str (pre ++ Js.chars "github.com/" ++ (a :: w) ++ "/"%char :: (b :: v) ++ tail) in
  (exists st e, exec false repositoryUrl_group1 s = Some (Found st e (Some (a :: w))))
  /\ (exists st e, exec false repositoryUrl_group2 s = Some (Found st e (Some (b :: v)))).
Proof.
  intros Hg Ha Hw Hb Hv Ht s. unfold exec, s. rewrite chars_str.
  assert (Hslash : forall rest, stops notSlash ("/"%char :: rest) = true) by done.
  split; eexists _, _.
  - unfold repositoryUrl_group1, Cat, Word. cbn [fold_right Js.chars list_ascii_of_string word_of].
    rewrite search_from_skip_prefix by done. apply search_from_found.
    cbn [app]. crunch. unfold segment_re.
    erewrite run_plus_class_greedy; [reflexivity|done|done|apply Hslash|].
    crunch. erewrite run_plus_class_greedy; [|done|done|done|reflexivity].
    rewrite take_handle. reflexivity.
  - unfold repositoryUrl_group2, Cat, Word. cbn [fold_right Js.chars list_ascii_of_string word_of].
    rewrite search_from_skip_prefix by done. apply search_from_found.
    cbn [app]. crunch. unfold segment_re.
    erewrite run_plus_class_greedy; [reflexivity|done|done|apply Hslash|].
    crunch. erewrite run_plus_class_greedy; [reflexivity|done|done|done|].
    crunch. rewrite take_handle. reflexivity.
Qed.

Lemma parseRepositoryUrl_canonical pre owner name tail :
  "g"%char ∉ Js.chars pre ->
  isSegment owner = true -> isSegment name = true ->
  stops notSlash (Js.chars tail) = true ->
  parseRepositoryUrl (pre +:+ "github.com/" +:+ owner +:+ "/" +:+ name +:+ tail)
  = Some {| owner := owner; repo := stripGit name |}.
Proof.
  intros Hg (a & w & Ho & Ha & Hw)%isSegment_spec (b & v & Hn & Hb & Hv)%isSegment_spec Ht.
  destruct (exec_repositoryUrl (Js.chars pre) a w b v (Js.chars tail) Hg Ha Hw Hb Hv Ht)
    as [(st1 & e1 & H1) (st2 & e2 & H2)].
  assert (Hurl : pre +:+ "github.com/" +:+ owner +:+ "/" +:+ name +:+ tail
                 = Js.str (Js.chars pre ++ Js.chars "github.com/" ++ (a :: w)
                           ++ "/"%char :: (b :: v) ++ Js.chars tail)).
  { rewrite <- (str_chars (pre +:+ _)). f_equal.
    rewrite !chars_app, Ho, Hn. done. }
  unfold parseRepositoryUrl. rewrite Hurl, H1, H2.
  rewrite <- Ho, <- Hn, !str_chars, remove_dotGit. done.
Qed.

End ParseFacts.

Module ParseSound.
Import Regex RegexSpec RegexFacts Client HandleFacts GreedyFacts ParseFacts.
Import EngagementRoute EngagementRouteSpec.

Lemma Match_seq_eps ci r pos w rest cap cap' :
  Match ci r pos w rest cap cap' -> Match ci (Seq r Eps) pos w rest cap cap'.
Proof.
  intros H.
  pose proof (MSeq ci r Eps pos w [] rest cap cap' cap' H (MEps ci _ rest cap')) as H'.
  by rewrite app_nil_r in H'.
Qed.

Lemma Match_segment pos w rest cap cap' :
  Match false segment_re pos w rest cap cap' ->
  w <> [] /\ forallb notSlash w = true /\ cap' = cap.
Proof.
  unfold segment_re. intros (w1 & w2 & cap1 & -> & H1 & H2)%Match_Plus_inv.
  apply Match_Class_inv in H1 as (c & -> & Hc & ->).
  apply Match_star_class in H2 as [H2 ->].
  split; [done|]. simpl. by rewrite Hc, H2.
Qed.

Lemma segment_Match pos w rest cap :
  w <> [] -> forallb notSlash w = true -> Match false segment_re pos w rest cap cap.
Proof.
  intros Hne Hw. destruct w as [|c w]; [done|]. simpl in Hw.
  apply andb_true_iff in Hw as [Hc Hw]. unfold segment_re.
  apply (MPlus false (Class notSlash) pos [c] w rest cap cap cap).
  - by constructor.
  - by apply star_class_Match.
Qed.

Lemma Match_group1 pos w rest cap' :
  Match false repositoryUrl_group1 pos w rest None cap' ->
  exists o n, repositoryText w o n /\ cap' = Some o.
Proof.
  unfold repositoryUrl_group1, Cat, Word. cbn [fold_right].
  intros (w1 & wA & c1 & -> & H1 & H)%Match_Seq_inv.
  apply Match_word_exact in H1 as [-> ->].
  apply Match_Seq_inv in H as (w2 & wB & c2 & -> & H2 & H).
  apply Match_Group_inv in H2 as [-> (c2' & H2)].
  apply Match_segment in H2 as (Ho1 & Ho2 & _).
  apply Match_Seq_inv in H as (w3 & wC & c3 & -> & H3 & H).
  apply Match_Lit_inv in H3 as (c & -> & Hc%same_char_exact & ->). subst c.
  apply Match_Seq_inv in H as (w4 & wD & c4 & -> & H4 & H).
  apply Match_segment in H4 as (Hn1 & Hn2 & ->).
  apply Match_Eps_inv in H as [-> ->].
  exists w2, w4. split; [|done]. unfold repositoryText. by rewrite app_nil_r.
Qed.

Lemma Match_group2 pos w rest cap' :
  Match false repositoryUrl_group2 pos w rest None cap' ->
  exists o n, repositoryText w o n /\ cap' = Some n.
Proof.
  unfold repositoryUrl_group2, Cat, Word. cbn [fold_right].
  intros (w1 & wA & c1 & -> & H1 & H)%Match_Seq_inv.
  apply Match_word_exact in H1 as [-> ->].
  apply Match_Seq_inv in H as (w2 & wB & c2 & -> & H2 & H).
  apply Match_segment in H2 as (Ho1 & Ho2 & ->).
  apply Match_Seq_inv in H as (w3 & wC & c3 & -> & H3 & H).
  apply Match_Lit_inv in H3 as (c & -> & Hc%same_char_exact & ->). subst c.
  apply Match_Seq_inv in H as (w4 & wD & c4 & -> & H4 & H).
  apply Match_Group_inv in H4 as [-> (c4' & H4)].
  apply Match_segment in H4 as (Hn1 & Hn2 & _).
  apply Match_Eps_inv in H as [-> ->].
  exists w2, w4. split; [|done]. unfold repositoryText. by rewrite app_nil_r.
Qed.

Lemma group1_Match pos o n rest :
  o <> [] -> forallb notSlash o = true -> n <> [] -> forallb notSlash n = true ->
  Match false repositoryUrl_group1 pos (Js.chars "github.com/" ++ o ++ "/"%char :: n) rest
        None (Some o).
Proof.
  intros Ho1 Ho2 Hn1 Hn2. unfold repositoryUrl_group1, Cat, Word. cbn [fold_right].
  apply (MSeq false _ _ pos (Js.chars "github.com/") (o ++ "/"%char :: n) rest
              None None (Some o)); [apply word_Match|].
  apply (MSeq false _ _ _ o ("/"%char :: n) rest None (Some o) (Some o)).
  { apply (MGroup false _ _ _ _ None None). by apply segment_Match. }
  apply (MSeq false _ _ _ ["/"%char] n rest (Some o) (Some o) (Some o)).
  { constructor. by apply same_char_exact. }
  apply Match_seq_eps. by apply segment_Match.
Qed.

Lemma group2_Match pos o n rest :
  o <> [] -> forallb notSlash o = true -> n <> [] -> forallb notSlash n = true ->
  Match false repositoryUrl_group2 pos (Js.chars "github.com/" ++ o ++ "/"%char :: n) rest
        None (Some n).
Proof.
  intros Ho1 Ho2 Hn1 Hn2. unfold repositoryUrl_group2, Cat, Word. cbn [fold_right].
  apply (MSeq false _ _ pos (Js.chars "github.com/") (o ++ "/"%char :: n) rest
              None None (Some n)); [apply word_Match|].
  apply (MSeq false _ _ _ o ("/"%char :: n) rest None None (Some n)).
  { by apply segment_Match. }
  apply (MSeq false _ _ _ ["/"%char] n rest None None (Some n)).
  { constructor. by apply same_char_exact. }
  apply Match_seq_eps. apply (MGroup false _ _ _ _ None None). by apply segment_Match.
Qed.

(** A search returns the leftmost position where the pattern matches. *)
Lemma search_from_leftmost ci r s : forall pos m pre w rest cap',
  search_from ci r pos s = Some m ->
  s = (pre ++ w ++ rest)%list ->
  Match ci r (pos + length pre) w rest None cap' ->
  (m_start m <= pos + length pre)%nat.
Proof.
  induction s as [|c s IH]; intros pos m pre w rest cap' Hs Heq HM.
  - simpl in Hs. destruct (run ci r pos [] None _) eqn:E; [|done].
    injection Hs as <-. apply run_sound in E as (? & ? & ? & _ & _ & [= <-]). simpl. lia.
  - simpl in Hs. destruct (run ci r pos (c :: s) None _) eqn:E.
    + injection Hs as <-. apply run_sound in E as (? & ? & ? & _ & _ & [= <-]). simpl. lia.
    + destruct pre as [|c' pre].
      * exfalso. simpl in *. rewrite Nat.add_0_r in HM.
        destruct (run_complete (R:=found) ci r pos w rest None cap' HM
                    (fun e _ cap => Some (Found pos e cap))) as [[x Hx] _]; [done|].
        rewrite <- Heq in Hx. congruence.
      * injection Heq as -> ->.
        pose proof (IH (S pos) m pre w rest cap' Hs eq_refl) as H.
        simpl. rewrite Nat.add_succ_r. apply H.
        by replace (S pos + length pre)%nat with (pos + length (c' :: pre))%nat
          by (simpl; lia).
Qed.

Lemma app_same_length {A} (a a' b b' : list A) :
  (a ++ b = a' ++ b')%list -> length a = length a' -> a = a' /\ b = b'.
Proof.
  revert a'. induction a as [|x a IH]; intros [|x' a'] H Hl; try done.
  simpl in *. injection H as -> H. injection Hl as Hl.
  destruct (IH a' H Hl) as [-> ->]. done.
Qed.

(** Up to the first slash, a text is cut in one way. *)
Lemma first_slash (o o' t t' : list ascii) :
  forallb notSlash o = true -> forallb notSlash o' = true ->
  (o ++ "/"%char :: t = o' ++ "/"%char :: t')%list -> o = o' /\ t = t'.
Proof.
  revert o'. induction o as [|c o IH]; intros [|c' o'] Ho Ho' H; simpl in *.
  - by injection H as ->.
  - injection H as <- _. by apply andb_true_iff in Ho' as [? _].
  - injection H as -> _. by apply andb_true_iff in Ho as [? _].
  - injection H as -> H. apply andb_true_iff in Ho as [_ Ho].
    apply andb_true_iff in Ho' as [_ Ho'].
    destruct (IH o' Ho Ho' H) as [-> ->]. done.
Qed.

(** What [parseRepositoryUrl] returns is in the URL: the owner and the
    name are the two path segments that follow [github.com/]. *)
Lemma parseRepositoryUrl_sound url r :
  parseRepositoryUrl url = Some r ->
  exists pre name tail,
    url = pre +:+ "github.com/" +:+ owner r +:+ "/" +:+ name +:+ tail
    /\ isSegment (owner r) = true /\ isSegment name = true
    /\ repo r = stripGit name.
Proof.
  unfold parseRepositoryUrl.
  destruct (exec false repositoryUrl_group1 url) as [[st1 e1 [g1|]]|] eqn:E1; try done.
  destruct (exec false repositoryUrl_group2 url) as [[st2 e2 [g2|]]|] eqn:E2; try done.
  intros [= <-]. simpl.
  pose proof E1 as (pre1 & w1 & rest1 & Hs1 & HM1 & Hst1 & _)%exec_sound.
  pose proof E2 as (pre2 & w2 & rest2 & Hs2 & HM2 & Hst2 & _)%exec_sound.
  simpl in *.
  pose proof HM1 as (o1 & n1 & (-> & Ho1 & Ho1' & Hn1 & Hn1') & [= ->])%Match_group1.
  pose proof HM2 as (o2 & n2 & (-> & Ho2 & Ho2' & Hn2 & Hn2') & [= ->])%Match_group2.
  (* both searches stop at the same position *)
  assert (Hle1 : (st1 <= length pre2)%nat).
  { apply (search_from_leftmost false repositoryUrl_group1 (Js.chars url) 0
             (Found st1 e1 (Some o1)) pre2 _ rest2 (Some o2) E1 Hs2).
    by apply group1_Match. }
  assert (Hle2 : (st2 <= length pre1)%nat).
  { apply (search_from_leftmost false repositoryUrl_group2 (Js.chars url) 0
             (Found st2 e2 (Some n2)) pre1 _ rest1 (Some n1) E2 Hs1).
    by apply group2_Match. }
  assert (Hlen : length pre1 = length pre2) by lia.
  pose proof Hs2 as Hurl2.
  rewrite Hs1 in Hs2. apply app_same_length in Hs2 as [-> Hs2]; [|done].
  rewrite <- !app_assoc in Hs2. apply app_inv_head in Hs2.
  apply first_slash in Hs2 as [-> _]; [|done|done].
  exists (Js.str pre2), (Js.str n2), (Js.str rest2).
  split; [|split; [|split]].
  - rewrite <- (str_chars url), Hurl2. rewrite <- (str_chars (_ +:+ _)). f_equal.
    rewrite !chars_app, !chars_str. by rewrite <- !app_assoc.
  - apply isSegment_spec. rewrite chars_str. destruct o2 as [|c o2]; [done|].
    simpl in Ho2'. apply andb_true_iff in Ho2' as [? ?]. by exists c, o2.
  - apply isSegment_spec. rewrite chars_str. destruct n2 as [|c n2]; [done|].
    simpl in Hn2'. apply andb_true_iff in Hn2' as [? ?]. by exists c, n2.
  - apply remove_dotGit.
Qed.

End ParseSound.

Module LimiterFacts.
Import Server ServerSpec ServerFacts LimiterSpec.
Local Open Scope m_scope.

Lemma sleep_run ms s : sleep ms s = (Returned tt, tick ms s).
Proof. reflexivity. Qed.

(** A fixed-window counter: the checks of one window, whatever the
    limiter, as long as it opens and counts as below. *)
Section Window.
Context {A : Type}.
Variable check : M A.
Variable answer : A -> bool * Z * Z.
Variable max : Z.
Variable ip : string.
Hypothesis max_pos : 1 <= max.
Hypothesis check_opens : forall s,
  noWindow s ip (clock s) ->
  exists a s', check s = (Returned a, s')
    /\ answer a = admission max (clock s + window) 0
    /\ rateLimitMap s' !! ip = Some {| count := 1; resetTime := clock s + window |}
    /\ clock s' = clock s.
Hypothesis check_counts : forall s i T,
  rateLimitMap s !! ip = Some {| count := Z.min i max; resetTime := T |} ->
  1 <= i -> clock s <= T ->
  exists a s', check s = (Returned a, s')
    /\ answer a = admission max T (Z.to_nat i)
    /\ rateLimitMap s' !! ip = Some {| count := Z.min (i + 1) max; resetTime := T |}
    /\ clock s' = clock s.

Lemma requestsAt_counts pauses : forall s i T,
  rateLimitMap s !! ip = Some {| count := Z.min (Z.of_nat i) max; resetTime := T |} ->
  (1 <= i)%nat ->
  Forall (fun ms => 0 <= ms) pauses ->
  clock s + foldr Z.add 0 pauses <= T ->
  exists rs s',
    requestsAt check pauses s = (Returned rs, s')
    /\ map answer rs = map (admission max T) (seq i (length pauses)).
Proof.
  induction pauses as [|ms pauses IH]; intros s i T He Hi Hp Hc.
  - by exists [], s.
  - apply Forall_cons in Hp as [Hms Hp]. simpl in Hc.
    assert (Hsum : 0 <= foldr Z.add 0 pauses).
    { clear -Hp. induction Hp; simpl; lia. }
    destruct (check_counts (tick ms s) (Z.of_nat i) T) as (a & s1 & Hr & Ha & He1 & Hc1).
    { exact He. } { lia. } { simpl. lia. }
    destruct (IH s1 (S i) T) as (rs & s' & Hrs & Hans).
    { rewrite He1. do 2 f_equal. lia. } { lia. } { done. }
    { rewrite Hc1. simpl. lia. }
    exists (a :: rs), s'. split.
    + unfold requestsAt in *. cbn [mapM].
      rewrite (bind_run _ _ s a s1).
      * by rewrite (bind_run _ _ s1 rs s' Hrs).
      * by rewrite (bind_run _ _ s tt (tick ms s) (sleep_run ms s)).
    + simpl. rewrite Ha, Hans, Nat2Z.id. done.
Qed.

Lemma requestsAt_window p0 pauses s :
  noWindow s ip (clock s + p0) ->
  Forall (fun ms => 0 <= ms) pauses ->
  foldr Z.add 0 pauses <= window ->
  exists rs s',
    requestsAt check (p0 :: pauses) s = (Returned rs, s')
    /\ map answer rs
       = map (admission max (clock s + p0 + window)) (seq 0 (S (length pauses))).
Proof.
  intros Hno Hp Hsum.
  destruct (check_opens (tick p0 s)) as (a & s1 & Hr & Ha & He1 & Hc1); [done|].
  destruct (requestsAt_counts pauses s1 1%nat (clock s + p0 + window))
    as (rs & s' & Hrs & Hans).
  { rewrite He1. simpl. do 2 f_equal. lia. } { lia. } { done. }
  { rewrite Hc1. simpl. lia. }
  exists (a :: rs), s'. split.
  - unfold requestsAt in *. cbn [mapM].
    rewrite (bind_run _ _ s a s1).
    + by rewrite (bind_run _ _ s1 rs s' Hrs).
    + by rewrite (bind_run _ _ s tt (tick p0 s) (sleep_run p0 s)).
  - simpl. rewrite Ha, Hans. done.
Qed.
End Window.

Lemma batch_check_opens ip (tok : bool) s :
  noWindow s ip (clock s) ->
  exists a s', Batch.checkRateLimit ip tok s = (Returned a, s')
    /\ batchAnswer a = admission (if tok then 5000 else 60) (clock s + window) 0
    /\ rateLimitMap s' !! ip = Some {| count := 1; resetTime := clock s + window |}
    /\ clock s' = clock s.
Proof.
  intros Hno. unfold noWindow in Hno.
  unfold Batch.checkRateLimit, bind, Date_now, get, modify, ret.
  destruct (rateLimitMap s !! ip) as [e|] eqn:E.
  - destruct (Z.gtb_spec (clock s) (resetTime e)) as [_|]; [|lia].
    eexists _, _. split; [reflexivity|]. simpl.
    rewrite lookup_insert_eq. by destruct tok.
  - eexists _, _. split; [reflexivity|]. simpl.
    rewrite lookup_insert_eq. by destruct tok.
Qed.

Lemma batch_check_counts ip (tok : bool) s i T :
  rateLimitMap s !! ip
  = Some {| count := Z.min i (if tok then 5000 else 60); resetTime := T |} ->
  1 <= i -> clock s <= T ->
  exists a s', Batch.checkRateLimit ip tok s = (Returned a, s')
    /\ batchAnswer a = admission (if tok then 5000 else 60) T (Z.to_nat i)
    /\ rateLimitMap s' !! ip
       = Some {| count := Z.min (i + 1) (if tok then 5000 else 60); resetTime := T |}
    /\ clock s' = clock s.
Proof.
  intros He Hi Hc.
  unfold Batch.checkRateLimit, bind, Date_now, get, modify, ret. rewrite He.
  cbn [resetTime count].
  destruct (Z.gtb_spec (clock s) T) as [|_]; [lia|].
  set (max := if tok then 5000 else 60) in *.
  assert (Hmax : 1 <= max) by (unfold max; destruct tok; lia).
  unfold admission. rewrite Z2Nat.id by lia.
  destruct (Z.geb_spec (Z.min i max) max) as [Hge|Hlt].
  - eexists _, _. split; [reflexivity|]. cbn.
    split; [|split; [|done]].
    + rewrite (proj2 (Z.ltb_ge _ _)) by lia. rewrite Z.max_l by lia. done.
    + rewrite He. do 2 f_equal. lia.
  - eexists _, _. split; [reflexivity|]. cbn.
    split; [|split; [|done]].
    + rewrite (proj2 (Z.ltb_lt _ _)) by lia. rewrite Z.max_r by lia. rewrite Z.min_l by lia. done.
    + rewrite lookup_insert_eq. do 2 f_equal. lia.
Qed.

Lemma plain_check_opens ip s :
  noWindow s ip (clock s) ->
  exists a s', PlainRoute.checkRateLimit ip s = (Returned a, s')
    /\ plainAnswer a = admission 30 (clock s + window) 0
    /\ rateLimitMap s' !! ip = Some {| count := 1; resetTime := clock s + window |}
    /\ clock s' = clock s.
Proof.
  intros Hno. unfold noWindow in Hno.
  unfold PlainRoute.checkRateLimit, bind, Date_now, get, modify, ret.
  destruct (rateLimitMap s !! ip) as [e|] eqn:E.
  - destruct (Z.gtb_spec (clock s) (resetTime e)) as [_|]; [|lia].
    eexists _, _. split; [reflexivity|]. simpl.
    by rewrite lookup_insert_eq.
  - eexists _, _. split; [reflexivity|]. simpl.
    by rewrite lookup_insert_eq.
Qed.

Lemma plain_check_counts ip s i T :
  rateLimitMap s !! ip = Some {| count := Z.min i 30; resetTime := T |} ->
  1 <= i -> clock s <= T ->
  exists a s', PlainRoute.checkRateLimit ip s = (Returned a, s')
    /\ plainAnswer a = admission 30 T (Z.to_nat i)
    /\ rateLimitMap s' !! ip = Some {| count := Z.min (i + 1) 30; resetTime := T |}
    /\ clock s' = clock s.
Proof.
  intros He Hi Hc.
  unfold PlainRoute.checkRateLimit, bind, Date_now, get, modify, ret. rewrite He.
  cbn [resetTime count].
  destruct (Z.gtb_spec (clock s) T) as [|_]; [lia|].
  unfold admission. rewrite Z2Nat.id by lia.
  destruct (Z.geb_spec (Z.min i 30) 30) as [Hge|Hlt].
  - eexists _, _. split; [reflexivity|]. cbn.
    split; [|split; [|done]].
    + rewrite (proj2 (Z.ltb_ge _ _)) by lia. rewrite Z.max_l by lia. done.
    + rewrite He. do 2 f_equal. lia.
  - eexists _, _. split; [reflexivity|]. cbn.
    split; [|split; [|done]].
    + rewrite (proj2 (Z.ltb_lt _ _)) by lia. rewrite Z.max_r by lia. rewrite Z.min_l by lia. done.
    + rewrite lookup_insert_eq. do 2 f_equal. lia.
Qed.

End LimiterFacts.

Module BatchMore.
Import Server ServerSpec ServerFacts Batch BatchSpec BatchFacts RouteSpec.
Local Open Scope m_scope.

Lemma newCalls_app s s' l : calls s' = (calls s ++ l)%list -> newCalls s s' = l.
Proof. unfold newCalls. intros ->. by rewrite drop_app_length. Qed.

(** The GraphQL loop sends one request per batch, in order, until one
    fails. *)
Lemma graphqlBatches_calls remote tok batches : forall acc s,
  exists n,
    calls (graphqlBatches remote tok batches acc s).2
    = (calls s ++ map (fun b => PostGraphQL b tok) (take n batches))%list.
Proof.
  induction batches as [|b rest IH]; intros acc s.
  - exists 0%nat. simpl. by rewrite app_nil_r.
  - simpl. unfold bind at 1. rewrite validateUsernamesGraphQL_run.
    set (s1 := sent remote (PostGraphQL b tok) s).
    destruct (graphqlOutcome remote b tok (length (calls s))) as [rs1|e].
    + unfold bind at 1. rewrite cacheAll_run.
      destruct (IH (acc ++ rs1)%list (set_cache (cachedAll (clock s1) rs1) s1)) as [n Hn].
      exists (S n). rewrite Hn. simpl. rewrite <- app_assoc. done.
    + exists 1%nat. simpl. by destruct rest.
Qed.

Lemma chunk_elem {A} size (l : list A) c x :
  (0 < size)%nat -> c ∈ chunksOf size l -> x ∈ c -> x ∈ l.
Proof.
  intros Hs Hc Hx. rewrite <- (chunksOf_concat size l Hs).
  apply list_elem_of_In, in_concat. exists c. by rewrite <- !list_elem_of_In.
Qed.

(** Whatever path the orchestrator takes, the requests it sends name
    cache misses only. *)
Lemma validateUncached_calls remote method tok misses s :
  exists l,
    calls (validateUncached remote method tok misses s).2 = (calls s ++ l)%list
    /\ forall c u, c ∈ l -> u ∈ handlesOf c -> u ∈ misses.
Proof.
  destruct misses as [|u0 rest].
  - exists []. simpl. split; [by rewrite app_nil_r|]. by intros c u H%elem_of_nil.
  - rewrite validateUncached_unfold. cbv zeta.
    set (misses := u0 :: rest).
    assert (Hrest : forall s0, exists rs s',
               restAndCache remote misses tok s0 = (Returned rs, s')
               /\ calls s' = (calls s0 ++ map (fun u => GetUser u (bearer tok)) misses)%list).
    { intros s0. destruct (restAndCache_spec remote misses tok s0)
        as (rs & s' & Hr & _ & _ & _ & _ & Hc & _). eauto. }
    assert (Hget : forall c u, c ∈ map (fun u => GetUser u (bearer tok)) misses ->
                               u ∈ handlesOf c -> u ∈ misses).
    { intros c u (x & -> & Hx)%list_elem_of_fmap. simpl. by intros ->%list_elem_of_singleton. }
    destruct (batchPathTaken method tok (length misses)).
    + destruct (graphqlBatches_calls remote (default "" tok) (chunksOf 100 misses) [] s)
        as [n Hn].
      assert (Hpost : forall c u,
                 c ∈ map (fun b => PostGraphQL b (default "" tok)) (take n (chunksOf 100 misses)) ->
                 u ∈ handlesOf c -> u ∈ misses).
      { intros c u (b & -> & Hb)%list_elem_of_fmap. simpl. intros Hu.
        apply (chunk_elem 100 misses b); [lia| |done].
        apply elem_of_take in Hb as (i & Hi & _). by apply list_elem_of_lookup_2 in Hi. }
      destruct (graphqlBatches remote (default "" tok) (chunksOf 100 misses) [] s)
        as [[rs|e] s1] eqn:E; simpl in Hn.
      * eexists. split; [exact Hn|done].
      * destruct (useGraphQL method tok (length misses)).
        -- destruct (Hrest s1) as (rs & s' & Hr & Hc). rewrite Hr. simpl.
           eexists. split; [rewrite Hc, Hn, <- app_assoc; reflexivity|].
           intros c u [Hin|Hin]%elem_of_app; eauto.
        -- eexists. split; [exact Hn|done].
    + destruct (Hrest s) as (rs & s' & Hr & Hc). rewrite Hr. simpl.
      eexists. split; [exact Hc|done].
Qed.

Lemma hits_misses_length s us :
  (length (hitsOf s us) + length (missesOf s us))%nat = length us.
Proof.
  unfold hitsOf, missesOf. induction us as [|u us IH]; [done|].
  simpl. destruct (freshResult s u) eqn:E.
  - rewrite filter_cons_False by (rewrite E; done).
    change (list_omap _ _ ?f ?l) with (omap f l). simpl. lia.
  - rewrite filter_cons_True by done.
    change (list_omap _ _ ?f ?l) with (omap f l). simpl. lia.
Qed.

Lemma missesOf_spec s us u : u ∈ missesOf s us <-> u ∈ us /\ freshResult s u = None.
Proof. unfold missesOf. rewrite list_elem_of_filter. tauto. Qed.

(** The requests [POST] does not serve. *)
Lemma POST_rejects remote request s :
  match body request with
  | JsonThrows e =>
      POST remote request s = (Returned (Status500 "Internal server error"), s)
  | JsonValue b =>
      match usernames b with
      | None | Some [] =>
          POST remote request s
          = (Returned (Status400 "Invalid request: usernames array is required"), s)
      | Some us =>
          (5000 < length us)%nat ->
          POST remote request s
          = (Returned (Status400 "Too many usernames. Maximum 5000 per request."), s)
      end
  end.
Proof.
  destruct (body request) as [e|b] eqn:Eb.
  - unfold POST, try_catch, bind. by rewrite Eb.
  - destruct (usernames b) as [[|u us]|] eqn:Eu.
    + unfold POST, try_catch, bind. by rewrite Eb; simpl; rewrite Eu.
    + intros Hlen. apply Nat.ltb_lt in Hlen.
      unfold POST, try_catch, bind. by rewrite Eb; simpl await_json; unfold ret at 1; rewrite Eu, Hlen.
    + unfold POST, try_catch, bind. by rewrite Eb; simpl; rewrite Eu.
Qed.

(** The three ways a request to [POST] ends. *)
Lemma POST_cases remote request s :
  (exists msg, (POST remote request s = (Returned (Status400 msg), s)
                \/ POST remote request s = (Returned (Status500 msg), s))
               /\ forall b us, body request = JsonValue b -> usernames b = Some us ->
                               us = [] \/ (5000 < length us)%nat)
  \/ exists b us rl s1,
       body request = JsonValue b /\ usernames b = Some us
       /\ us <> [] /\ (length us <= 5000)%nat
       /\ checkRateLimit (ipOf request) (truthy (githubToken b)) s = (Returned rl, s1)
       /\ validationCache s1 = validationCache s /\ clock s1 = clock s
       /\ calls s1 = calls s
       /\ ((allowed rl = false /\ s1 = s
            /\ POST remote request s
               = (Returned (Status429 "Rate limit exceeded. Please try again later."
                                      (rl_resetTime rl) (remaining rl)), s))
           \/ (allowed rl = true
               /\ exists rs flag s',
                   validateUncached remote (default MAuto (method b)) (githubToken b)
                                    (missesOf s us) s1 = (Returned (rs, flag), s')
                   /\ POST remote request s
                      = (Returned (Status200 (replyOf b us rl (hitsOf s us) rs flag)), s'))).
Proof.
  pose proof (POST_rejects remote request s) as Hrej.
  destruct (body request) as [e|b] eqn:Eb.
  { left. eexists. split; [right; exact Hrej|]. intros b us [=]. }
  destruct (usernames b) as [[|u0 us]|] eqn:Eus.
  1, 3: left; eexists; split; [left; exact Hrej|]; intros b' us' [= <-]; rewrite Eus;
    intros [=]; auto.
  destruct (Nat.ltb_spec 5000 (length (u0 :: us))) as [Hbig|Hok].
  { left. eexists. split; [left; by apply Hrej|]. intros b' us' [= <-]. rewrite Eus.
    intros [= <-]. by right. }
  right.
  destruct (POST_run remote request b (u0 :: us) s Eb Eus)
    as (rl & s1 & Hrl & Hrest); [done|done|].
  destruct (checkRateLimit_spec (ipOf request) (truthy (githubToken b)) s)
    as (rl' & s1' & Hrl' & Hc & Hk & Hcalls & Hal).
  rewrite Hrl in Hrl'. injection Hrl' as <- <-.
  exists b, (u0 :: us), rl, s1. do 8 (split; [done|]).
  destruct (allowed rl).
  - right. split; [done|]. destruct Hrest as (rs & flag & s' & Hv & Hp).
    exists rs, flag, s'. rewrite <- (hitsOf_same s s1), <- (missesOf_same s s1) by done.
    done.
  - left. subst s1. done.
Qed.

Lemma POST_returns_or_keeps remote request s :
  exists response s',
    POST remote request s = (Returned response, s')
    /\ match response with
       | Status200 _ => True
       | _ => s' = s
       end.
Proof.
  destruct (POST_cases remote request s)
    as [(msg & [H|H] & _)
       | (b & us & rl & s1 & _ & _ & _ & _ & _ & _ & _ & _ & [(_ & _ & H) | (_ & rs & flag & s' & _ & H)])];
    rewrite H; eexists _, _; (split; [reflexivity|done]).
Qed.

Lemma POST_cacheStats remote request s b us reply s' :
  body request = JsonValue b -> usernames b = Some us ->
  POST remote request s = (Returned (Status200 reply), s') ->
  (cached (cacheStats reply) + validated (cacheStats reply))%nat = total (cacheStats reply)
  /\ total (cacheStats reply) = length us
  /\ cached (cacheStats reply) = length (hitsOf s us)
  /\ rateLimitMap s' <> rateLimitMap s.
Proof.
  intros Hb Hus HP.
  destruct (POST_cases remote request s)
    as [(msg & [H|H] & _)
       | (b' & us' & rl & s1 & Hb' & Hus' & _ & _ & Hrl & _ & _ & _
          & [(_ & _ & H) | (Hal & rs & flag & s'' & Hv & H)])];
    rewrite H in HP; try discriminate HP.
  injection HP as <- <-. rewrite Hb in Hb'. injection Hb' as <-.
  rewrite Hus in Hus'. injection Hus' as <-.
  destruct (validateUncached_spec remote (default MAuto (method b)) (githubToken b)
              (missesOf s us) s1) as (rs' & flag' & s3 & Hv' & Hu & _ & Hrm & _).
  rewrite Hv in Hv'. injection Hv' as <- <- <-.
  simpl. split; [|split; [done|split; [done|]]].
  - rewrite <- (length_map username rs), Hu. apply hits_misses_length.
  - rewrite Hrm.
    destruct (checkRateLimit_spec (ipOf request) (truthy (githubToken b)) s)
      as (rl' & s1' & Hrl' & _ & _ & _ & Hchg).
    rewrite Hrl in Hrl'. injection Hrl' as <- <-. by rewrite Hal in Hchg.
Qed.

Lemma POST_calls remote request s c u :
  c ∈ newCalls s (POST remote request s).2 -> u ∈ handlesOf c ->
  freshResult s u = None
  /\ exists b us, body request = JsonValue b /\ usernames b = Some us /\ u ∈ us.
Proof.
  destruct (POST_cases remote request s)
    as [(msg & [H|H] & _)
       | (b & us & rl & s1 & Hb & Hus & _ & _ & Hrl & _ & _ & Hcalls
          & [(_ & _ & H) | (Hal & rs & flag & s' & Hv & H)])];
    rewrite H; simpl.
  1-3: unfold newCalls; rewrite drop_all; by intros ?%elem_of_nil.
  destruct (validateUncached_calls remote (default MAuto (method b)) (githubToken b)
              (missesOf s us) s1) as (l & Hl & Hmiss).
  rewrite Hv in Hl. simpl in Hl. rewrite Hcalls in Hl.
  rewrite (newCalls_app s s' l Hl). intros Hc Hu.
  apply (Hmiss c u Hc) in Hu. apply missesOf_spec in Hu as [Hin Hfresh].
  split; [done|]. by exists b, us.
Qed.

Lemma cache_round_trip u r ms s :
  (setCachedResult u r ;; sleep ms ;; getCachedResult u)%M s
  = (Returned (if ms <? CACHE_DURATION then Some r else None),
     tick ms (set_cache <[u := stored (clock s) r]> s)).
Proof.
  rewrite (bind_run _ _ s tt _ (setCachedResult_run u r s)). cbv beta.
  rewrite (bind_run (sleep ms) _ _ tt (tick ms _) eq_refl).
  rewrite getCachedResult_run. f_equal. unfold freshResult. simpl.
  rewrite lookup_insert_eq. simpl.
  by replace (clock s + ms - clock s) with ms by lia.
Qed.

Lemma aligned_list {A B} (P : A -> B -> Prop) (l : list (option A)) (us : list B) :
  length l = length us ->
  (forall i u, us !! i = Some u -> exists r, l !! i = Some (Some r) /\ P r u) ->
  exists rs, l = map Some rs /\ Forall2 P rs us.
Proof.
  revert us. induction l as [|x l IH]; intros [|u us] Hlen H; try done.
  - by exists [].
  - destruct (H 0%nat u eq_refl) as (r & [= ->] & Hr).
    destruct (IH us) as (rs & -> & Hrs); [simpl in Hlen; lia| |].
    + intros i u' Hi. apply (H (S i) u' Hi).
    + exists (r :: rs). split; [done|]. by constructor.
Qed.

(** The results of a 200 reply: one verdict per handle, in order, none
    missing. *)
Lemma POST_results_aligned remote request s b us reply s' :
  cache_wf s ->
  body request = JsonValue b -> usernames b = Some us ->
  POST remote request s = (Returned (Status200 reply), s') ->
  exists rs, results reply = map Some rs /\ map username rs = us /\ Forall terminal rs.
Proof.
  intros Hwf Hb Hus HP.
  destruct (POST_cases remote request s)
    as [(msg & [H|H] & _)
       | (b' & us' & rl & s1 & Hb' & Hus' & _ & _ & Hrl & _ & _ & _
          & [(_ & _ & H) | (Hal & rs & flag & s'' & Hv & H)])];
    rewrite H in HP; try discriminate HP.
  injection HP as <- <-. rewrite Hb in Hb'. injection Hb' as <-.
  rewrite Hus in Hus'. injection Hus' as <-.
  destruct (validateUncached_spec remote (default MAuto (method b)) (githubToken b)
              (missesOf s us) s1) as (rs' & flag' & s3 & Hv' & Hu & Ht & _).
  rewrite Hv in Hv'. injection Hv' as <- <- <-.
  destruct (aligned_list (fun r u => username r = u /\ terminal r)
              (allResultsOf us (hitsOf s us) rs) us) as (all & Hall & Hf2).
  - unfold allResultsOf. by rewrite length_map.
  - by apply allResultsOf_aligned.
  - exists all. simpl. split; [done|]. clear -Hf2. induction Hf2 as [|r u rs us [Hr Ht] _ [IH1 IH2]].
    + done.
    + split; [simpl; congruence|by constructor].
Qed.

End BatchMore.

Module CacheFacts.
Import Server ServerSpec ServerFacts Batch BatchSpec BatchFacts RouteSpec BatchMore.
Local Open Scope m_scope.

Section Monotone.
Variable remote : Remote.
Hypothesis latency_nonneg : forall n, 0 <= latency remote n.

Lemma clock_sent c s : clock s <= clock (sent remote c s).
Proof. unfold sent. simpl. pose proof (latency_nonneg (length (calls s))). lia. Qed.

Lemma clock_mapM_REST tok us : forall s,
  clock s <= clock (mapM (validateOneREST remote tok) us s).2.
Proof.
  induction us as [|u us IH]; intros s; [simpl; lia|].
  destruct (validateOneREST_spec remote tok u s) as (r & Hr & _).
  cbn [mapM]. rewrite (bind_run _ _ s r _ Hr).
  pose proof (IH (sent remote (GetUser u (bearer tok)) s)) as H.
  destruct (mapM (validateOneREST remote tok) us (sent remote (GetUser u (bearer tok)) s))
    as [[rs|e] s1] eqn:E.
  - rewrite (bind_run _ _ _ rs s1 E). simpl in *.
    pose proof (latency_nonneg (length (calls s))). lia.
  - rewrite (bind_run_throw _ _ _ e s1 E). simpl in *.
    pose proof (latency_nonneg (length (calls s))). lia.
Qed.

Lemma clock_restChunks tok chunks : forall acc s,
  clock s <= clock (restChunks remote tok chunks acc s).2.
Proof.
  induction chunks as [|chunk rest IH]; intros acc s; [simpl; lia|].
  destruct (mapM_validateOneREST remote tok chunk s) as (rs1 & s1 & H1 & _).
  pose proof (clock_mapM_REST tok chunk s) as Hc1. rewrite H1 in Hc1. simpl in Hc1.
  cbn [restChunks]. rewrite (bind_run _ _ s rs1 s1 H1).
  set (s2 := match rest with [] => s1 | _ => tick 100 s1 end).
  assert (Hs2 : (match rest with [] => ret tt | _ :: _ => sleep 100 end) s1
                = (Returned tt, s2)) by (unfold s2; by destruct rest).
  rewrite (bind_run _ _ s1 tt s2 Hs2).
  pose proof (IH (acc ++ rs1)%list s2) as H2.
  assert (clock s1 <= clock s2) by (unfold s2; destruct rest; simpl; lia).
  lia.
Qed.

Lemma clock_restAndCache us tok s :
  clock s <= clock (restAndCache remote us tok s).2.
Proof.
  destruct (validateUsernamesREST_spec remote tok us 20 s)
    as (rs & s1 & H1 & _); [lia|].
  pose proof (clock_restChunks tok (chunksOf 20 us) [] s) as Hc.
  unfold validateUsernamesREST in H1. rewrite H1 in Hc. simpl in Hc.
  unfold restAndCache. unfold validateUsernamesREST.
  rewrite (bind_run _ _ s rs s1 H1).
  rewrite (bind_run _ _ s1 tt _ (cacheAll_run rs s1)). simpl. done.
Qed.

Lemma clock_graphqlBatches tok batches : forall acc s,
  clock s <= clock (graphqlBatches remote tok batches acc s).2.
Proof.
  induction batches as [|b rest IH]; intros acc s; [simpl; lia|].
  simpl. unfold bind at 1. rewrite validateUsernamesGraphQL_run.
  pose proof (clock_sent (PostGraphQL b tok) s) as Hs.
  destruct (graphqlOutcome remote b tok (length (calls s))) as [rs1|e]; [|done].
  unfold bind at 1. rewrite cacheAll_run.
  pose proof (IH (acc ++ rs1)%list
                 (set_cache (cachedAll (clock (sent remote (PostGraphQL b tok) s)) rs1)
                            (sent remote (PostGraphQL b tok) s))) as H.
  unfold sent in *. simpl in *. lia.
Qed.

(** A run of the GraphQL loop that succeeds stamps every handle of its
    batches with a time of the run, and keeps or restamps what was in
    the cache. *)
Lemma graphqlBatches_written tok batches : forall acc s rs s',
  graphqlBatches remote tok batches acc s = (Returned rs, s') ->
  clock s <= clock s'
  /\ (forall u e, validationCache s !! u = Some e ->
        exists e', validationCache s' !! u = Some e'
                   /\ (e' = e \/ clock s <= timestamp e' <= clock s'))
  /\ (forall u, u ∈ concat batches ->
        exists e, validationCache s' !! u = Some e
                  /\ clock s <= timestamp e <= clock s').
Proof.
  induction batches as [|b rest IH]; intros acc s rs s' H.
  - simpl in H. injection H as <- <-. split; [lia|]. split; [eauto|].
    by intros u ?%elem_of_nil.
  - simpl in H. unfold bind at 1 in H. rewrite validateUsernamesGraphQL_run in H.
    pose proof (clock_sent (PostGraphQL b tok) s) as Hs.
    set (s1 := sent remote (PostGraphQL b tok) s) in *.
    destruct (graphqlOutcome remote b tok (length (calls s))) as [rs1|e] eqn:E1; [|done].
    apply graphqlOutcome_usernames in E1 as [Hu1 _].
    unfold bind at 1 in H. rewrite cacheAll_run in H.
    set (s2 := set_cache (cachedAll (clock s1) rs1) s1) in *.
    destruct (IH _ _ _ _ H) as (Hc & Hkeep & Hw).
    assert (Hc2 : clock s2 = clock s1) by done.
    assert (Hstep : forall u e, validationCache s !! u = Some e ->
              exists e2, validationCache s2 !! u = Some e2
                         /\ (e2 = e \/ timestamp e2 = clock s1)).
    { intros u e He. simpl. rewrite cachedAll_lookup.
      destruct (latest u rs1) as [r|]; eauto. }
    assert (Hb : forall u, u ∈ b ->
              exists e2, validationCache s2 !! u = Some e2 /\ timestamp e2 = clock s1).
    { intros u Hu. simpl. rewrite cachedAll_lookup.
      rewrite <- Hu1 in Hu. apply list_elem_of_fmap in Hu as (r & -> & Hr).
      destruct (latest_is_Some (username r) rs1 r Hr eq_refl) as [r' ->]. eauto. }
    split; [lia|]. split.
    + intros u e He. destruct (Hstep u e He) as (e2 & He2 & Hor).
      destruct (Hkeep u e2 He2) as (e' & He' & Hor').
      exists e'. split; [done|].
      destruct Hor' as [->|?]; [|right; lia].
      destruct Hor as [->|?]; [by left|right; lia].
    + intros u Hu. simpl in Hu. apply elem_of_app in Hu as [Hu|Hu].
      * destruct (Hb u Hu) as (e2 & He2 & Ht).
        destruct (Hkeep u e2 He2) as (e' & He' & Hor').
        exists e'. split; [done|]. destruct Hor' as [->|?]; lia.
      * destruct (Hw u Hu) as (e' & He' & Ht). exists e'. split; [done|]. lia.
Qed.

(** The orchestrator stamps every miss with a time of its run. *)
Lemma validateUncached_written method tok misses s rs flag s' :
  validateUncached remote method tok misses s = (Returned (rs, flag), s') ->
  clock s <= clock s'
  /\ forall u, u ∈ misses ->
       exists e, validationCache s' !! u = Some e
                 /\ clock s <= timestamp e <= clock s'
                 /\ latest u rs = Some (result e).
Proof.
  intros Hrun.
  destruct (validateUncached_spec remote method tok misses s)
    as (rs' & flag' & s'' & Hrun' & Hu & _ & _ & _ & Hlate & _).
  rewrite Hrun in Hrun'. injection Hrun' as <- <- <-.
  assert (Hres : forall u e, u ∈ misses -> validationCache s' !! u = Some e ->
                             latest u rs = Some (result e)).
  { intros u e Hin He. rewrite <- Hu in Hin.
    apply list_elem_of_fmap in Hin as (r & -> & Hr).
    destruct (latest_is_Some (username r) rs r Hr eq_refl) as [r' Hr'].
    destruct (Hlate _ _ Hr') as (e' & He' & <-). congruence. }
  destruct misses as [|u0 rest].
  { simpl in Hrun. injection Hrun as <- <- <-. split; [lia|]. by intros u ?%elem_of_nil. }
  rewrite validateUncached_unfold in Hrun. cbv zeta in Hrun.
  set (misses := u0 :: rest) in *.
  assert (Hrest : forall s0 rs0 s0',
             restAndCache remote misses tok s0 = (Returned rs0, s0') ->
             clock s0 <= clock s0'
             /\ forall u, u ∈ misses ->
                  exists e, validationCache s0' !! u = Some e /\ timestamp e = clock s0').
  { intros s0 rs0 s0' Hr.
    pose proof (clock_restAndCache misses tok s0) as Hc. rewrite Hr in Hc.
    split; [done|]. intros u Hin.
    destruct (restAndCache_spec remote misses tok s0)
      as (rs1 & s1 & Hr1 & Hu1 & _ & _ & _ & _ & Hl1 & _).
    rewrite Hr in Hr1. injection Hr1 as <- <-.
    rewrite <- Hu1 in Hin. apply list_elem_of_fmap in Hin as (r & -> & Hr0).
    destruct (latest_is_Some (username r) rs0 r Hr0 eq_refl) as [r' Hr'].
    rewrite (Hl1 _ _ Hr'). eauto. }
  destruct (batchPathTaken method tok (length misses)).
  - pose proof (clock_graphqlBatches (default "" tok) (chunksOf 100 misses) [] s) as Hcg.
    destruct (graphqlBatches remote (default "" tok) (chunksOf 100 misses) [] s)
      as [[rs1|e] s1] eqn:E.
    + injection Hrun as <- <- <-.
      destruct (graphqlBatches_written _ _ _ _ _ _ E) as (Hc & _ & Hw).
      split; [done|]. intros u Hin.
      destruct (Hw u) as (e & He & Ht); [by rewrite chunksOf_concat by lia|].
      exists e. split; [done|]. split; [done|]. by apply Hres.
    + destruct (useGraphQL method tok (length misses)); [|done].
      destruct (restAndCache_spec remote misses tok s1) as (rs1 & s2 & E2 & _).
      rewrite E2 in Hrun. injection Hrun as <- <- <-.
      destruct (Hrest _ _ _ E2) as (Hc & Hw). simpl in Hcg.
      split; [lia|]. intros u Hin. destruct (Hw u Hin) as (e' & He' & Ht).
      exists e'. split; [done|]. split; [lia|]. by apply Hres.
  - destruct (restAndCache_spec remote misses tok s) as (rs1 & s2 & E2 & _).
    rewrite E2 in Hrun. injection Hrun as <- <- <-.
    destruct (Hrest _ _ _ E2) as (Hc & Hw).
    split; [lia|]. intros u Hin. destruct (Hw u Hin) as (e' & He' & Ht).
    exists e'. split; [done|]. split; [lia|]. by apply Hres.
Qed.
End Monotone.

Lemma find_latest u rs :
  NoDup (map username rs) -> findResult u rs = latest u rs.
Proof.
  unfold findResult, latest. induction rs as [|r rs IH]; [done|].
  simpl. intros [Hnot Hnd]%NoDup_cons.
  destruct (String.eqb_spec (username r) u) as [Heq|Hne].
  - rewrite filter_cons_True by done.
    assert (Hnil : filter (fun r0 => username r0 = u) rs = []).
    { destruct (filter (fun r0 => username r0 = u) rs) as [|r' l] eqn:Ef; [done|].
      exfalso. assert (Hin : r' ∈ filter (fun r0 => username r0 = u) rs)
        by (rewrite Ef; by left).
      apply list_elem_of_filter in Hin as [Hu' Hr']. apply Hnot.
      apply list_elem_of_fmap. exists r'. split; [congruence|done]. }
    rewrite Hnil. done.
  - rewrite filter_cons_False by done. by apply IH.
Qed.

Lemma hitsOf_all_miss s us :
  (forall u, u ∈ us -> freshResult s u = None) -> hitsOf s us = [] /\ missesOf s us = us.
Proof.
  unfold hitsOf, missesOf. induction us as [|u us IH]; intros H; [done|].
  destruct IH as [IH1 IH2]; [by intros x Hx; apply H; right|].
  simpl. rewrite (H u) by (by left). rewrite filter_cons_True by (apply H; by left).
  split; [done|]. by f_equal.
Qed.

(** A request repeated within five minutes of the start of the first is
    served from the cache. *)
Lemma repeat_from_cache remote request b us s reply s' ms :
  cache_wf s -> (forall n, 0 <= latency remote n) ->
  body request = JsonValue b -> usernames b = Some us ->
  (forall u, u ∈ us -> freshResult s u = None) ->
  POST remote request s = (Returned (Status200 reply), s') ->
  0 <= ms -> clock s' - clock s + ms < CACHE_DURATION ->
  exists response s2,
    POST remote request (tick ms s') = (Returned response, s2)
    /\ calls s2 = calls s'
    /\ validationCache s2 = validationCache s'
    /\ match response with
       | Status200 reply2 =>
           cacheStats reply2
           = {| cached := length us; validated := 0; total := length us |}
           /\ (NoDup us -> results reply2 = results reply)
       | Status429 _ _ _ => True
       | _ => False
       end.
Proof.
  intros Hwf Hlat Hb Hus Hmiss HP Hms Hage.
  pose proof (POST_preserves_cache_wf remote request s Hwf) as Hwf'.
  rewrite HP in Hwf'. simpl in Hwf'.
  (* the first request *)
  destruct (POST_cases remote request s)
    as [(msg & [H|H] & _)
       | (b1 & us1 & rl & s1 & Hb1 & Hus1 & Hne & Hlen & Hrl & Hc1 & Hk1 & Hcalls1
          & [(_ & _ & H) | (Hal & rs & flag & s'' & Hv & H)])];
    rewrite H in HP; try discriminate HP.
  injection HP as <- ->. rewrite Hb in Hb1. injection Hb1 as <-.
  rewrite Hus in Hus1. injection Hus1 as <-.
  destruct (hitsOf_all_miss s us Hmiss) as [Hhits Hmisses].
  rewrite Hmisses in Hv. rewrite Hhits in H.
  destruct (validateUncached_written remote Hlat _ _ _ _ _ _ _ Hv) as (Hclock & Hw).
  destruct (validateUncached_spec remote (default MAuto (method b)) (githubToken b) us s1)
    as (rs' & flag' & s3 & Hv' & Hu & _).
  rewrite Hv in Hv'. injection Hv' as <- <- <-.
  (* every handle is fresh at the second request *)
  set (t := tick ms s').
  assert (Hfresh : forall u, u ∈ us -> freshResult t u = latest u rs /\ is_Some (latest u rs)).
  { intros u Hin. destruct (Hw u Hin) as (e & He & Ht & Hl).
    unfold freshResult, t. simpl. rewrite He.
    destruct (Z.ltb_spec (clock s' + ms - timestamp e) CACHE_DURATION) as [_|Hge];
      [by rewrite Hl|lia]. }
  assert (Hall : forall u, u ∈ us -> is_Some (freshResult t u)).
  { intros u Hin. destruct (Hfresh u Hin) as [-> ?]. done. }
  assert (Hwft : cache_wf t) by done.
  (* the second request *)
  destruct (POST_cases remote request t)
    as [(msg & _ & Hbad)
       | (b2 & us2 & rl2 & t1 & Hb2 & Hus2 & _ & _ & Hrl2 & Hc2 & Hk2 & Hcalls2
          & [(_ & _ & H2) | (Hal2 & rs2 & flag2 & t2 & Hv2 & H2)])].
  - destruct (Hbad b us Hb Hus) as [->|?]; [done|lia].
  - eexists _, _. split; [exact H2|]. done.
  - rewrite Hb in Hb2. injection Hb2 as <-. rewrite Hus in Hus2. injection Hus2 as <-.
    rewrite (missesOf_all_fresh t us Hall) in Hv2.
    destruct (validateUncached_spec remote (default MAuto (method b)) (githubToken b) [] t1)
      as (rs3 & flag3 & t3 & Hv3 & Hu3 & _ & _ & _ & _ & _ & Hsame).
    rewrite Hv2 in Hv3. injection Hv3 as <- <- <-.
    rewrite (Hsame eq_refl) in *.
    apply map_eq_nil in Hu3 as ->.
    eexists _, _. split; [exact H2|]. split; [by rewrite Hcalls2|]. split; [by rewrite Hc2|].
    simpl. split.
    + by rewrite (hitsOf_length_all_fresh t us Hall).
    + intros Hnd. rewrite (allResultsOf_all_hits t us Hwft Hall).
      unfold allResultsOf. apply map_ext_in. intros u Hin%list_elem_of_In.
      destruct (Hfresh u Hin) as [-> _]. rewrite Hhits. simpl.
      symmetry. apply find_latest. by rewrite Hu.
Qed.

(** After a request that found none of its handles cached and was
    answered 200, every handle is a fresh hit for five minutes from the
    start of that request, and the cached verdicts are those of its
    reply when it lists no handle twice. *)
Lemma fresh_after_fill remote request b us s reply s' ms :
  cache_wf s -> (forall n, 0 <= latency remote n) ->
  body request = JsonValue b -> usernames b = Some us ->
  (forall u, u ∈ us -> freshResult s u = None) ->
  POST remote request s = (Returned (Status200 reply), s') ->
  0 <= ms -> clock s' - clock s + ms < CACHE_DURATION ->
  cache_wf (tick ms s')
  /\ (forall u, u ∈ us -> is_Some (freshResult (tick ms s') u))
  /\ (NoDup us -> map (freshResult (tick ms s')) us = results reply).
Proof.
  intros Hwf Hlat Hb Hus Hmiss HP Hms Hage.
  pose proof (POST_preserves_cache_wf remote request s Hwf) as Hwf'.
  rewrite HP in Hwf'. simpl in Hwf'.
  destruct (POST_cases remote request s)
    as [(msg & [H|H] & _)
       | (b1 & us1 & rl & s1 & Hb1 & Hus1 & Hne & Hlen & Hrl & Hc1 & Hk1 & Hcalls1
          & [(_ & _ & H) | (Hal & rs & flag & s'' & Hv & H)])];
    rewrite H in HP; try discriminate HP.
  injection HP as <- ->. rewrite Hb in Hb1. injection Hb1 as <-.
  rewrite Hus in Hus1. injection Hus1 as <-.
  destruct (hitsOf_all_miss s us Hmiss) as [Hhits Hmisses].
  rewrite Hmisses in Hv.
  destruct (validateUncached_written remote Hlat _ _ _ _ _ _ _ Hv) as (Hclock & Hw).
  destruct (validateUncached_spec remote (default MAuto (method b)) (githubToken b) us s1)
    as (rs' & flag' & s3 & Hv' & Hu & _).
  rewrite Hv in Hv'. injection Hv' as <- <- <-.
  set (t := tick ms s').
  assert (Hfresh : forall u, u ∈ us -> freshResult t u = latest u rs /\ is_Some (latest u rs)).
  { intros u Hin. destruct (Hw u Hin) as (e & He & Ht & Hl).
    unfold freshResult, t. simpl. rewrite He.
    destruct (Z.ltb_spec (clock s' + ms - timestamp e) CACHE_DURATION) as [_|Hge];
      [by rewrite Hl|lia]. }
  split; [done|]. split.
  - intros u Hin. destruct (Hfresh u Hin) as [-> ?]. done.
  - intros Hnd. simpl. unfold allResultsOf. apply map_ext_in. intros u Hin%list_elem_of_In.
    destruct (Hfresh u Hin) as [-> _]. rewrite Hhits. simpl.
    symmetry. apply find_latest. by rewrite Hu.
Qed.

End CacheFacts.

Module CacheClaims.
Import Server ServerSpec ServerFacts Batch BatchSpec BatchFacts RouteSpec BatchMore CacheFacts.
Import Demo MoreDemo.

(** Two lookups that both hit an entry of the same cache return the same
    verdict. *)
Lemma freshResult_agree s later u :
  validationCache later = validationCache s ->
  is_Some (freshResult s u) -> is_Some (freshResult later u) ->
  freshResult later u = freshResult s u.
Proof.
  unfold freshResult. intros ->.
  destruct (validationCache s !! u) as [e|]; [|by intros [? ?]].
  destruct (clock s - timestamp e <? CACHE_DURATION); [|by intros [? ?]].
  destruct (clock later - timestamp e <? CACHE_DURATION); [done|by intros _ [? ?]].
Qed.

(** C1, amended: when every submitted handle is a fresh cache hit, the
    request sends nothing to the remote API and does not touch the cache;
    the only state change is the one made by the limiter check that
    precedes the cache lookup, which consumes one unit of quota per
    admitted request; an admitted request is answered with the cached
    results in input order, a request over quota with 429.  The results
    of an admitted request are those of every other lookup of the same
    handles that hits the unchanged cache, and they are the results of
    the reply that filled the cache, when the request is the repetition,
    less than five minutes after its start, of a request that found no
    handle cached, was answered 200 and lists no handle twice. *)
Theorem C1_hits_skip_network_but_are_counted remote request b us s :
  cache_wf s ->
  body request = JsonValue b -> usernames b = Some us ->
  us <> [] -> (length us <= 5000)%nat ->
  (forall u, u ∈ us -> is_Some (freshResult s u)) ->
  exists rl s1,
    checkRateLimit (ipOf request) (truthy (githubToken b)) s = (Returned rl, s1)
    /\ (POST remote request s).2 = s1
    /\ calls s1 = calls s
    /\ validationCache s1 = validationCache s
    /\ if allowed rl then
         rateLimitMap s1 <> rateLimitMap s
         /\ exists reply,
             (POST remote request s).1 = Returned (Status200 reply)
             /\ results reply = map (freshResult s) us
             /\ cacheStats reply
                = {| cached := length us; validated := 0; total := length us |}
             /\ (forall later,
                   validationCache later = validationCache s ->
                   (forall u, u ∈ us -> is_Some (freshResult later u)) ->
                   map (freshResult later) us = results reply)
             /\ (forall remote0 s0 reply0 s0' ms,
                   cache_wf s0 -> (forall n, 0 <= latency remote0 n) ->
                   (forall u, u ∈ us -> freshResult s0 u = None) ->
                   POST remote0 request s0 = (Returned (Status200 reply0), s0') ->
                   0 <= ms -> clock s0' - clock s0 + ms < CACHE_DURATION ->
                   s = tick ms s0' -> NoDup us ->
                   results reply = results reply0)
       else
         s1 = s
         /\ (POST remote request s).1
            = Returned (Status429 "Rate limit exceeded. Please try again later."
                                  (rl_resetTime rl) (remaining rl)).
Proof.
  intros Hwf Hb Hus Hne Hlen Hfresh.
  destruct (POST_run remote request b us s Hb Hus Hne Hlen) as (rl & s1 & Hrl & Hrest).
  destruct (checkRateLimit_spec (ipOf request) (truthy (githubToken b)) s)
    as (rl' & s1' & Hrl' & Hc & Hk & Hcalls & Hq).
  rewrite Hrl in Hrl'. injection Hrl' as <- <-.
  exists rl, s1. split; [done|].
  destruct (allowed rl).
  - destruct Hrest as (rs & flag & s' & Hv & HP).
    rewrite (missesOf_same s s1 us Hc Hk), (missesOf_all_fresh s us Hfresh) in Hv.
    injection Hv as <- <- <-.
    rewrite HP. simpl. repeat split; try done.
    assert (Hres : allResultsOf us (hitsOf s1 us) [] = map (freshResult s) us).
    { rewrite (hitsOf_same s s1 us Hc Hk). by apply allResultsOf_all_hits. }
    eexists. split; [reflexivity|]. simpl. split; [exact Hres|]. split; [|split].
    + rewrite (hitsOf_same s s1 us Hc Hk). by rewrite hitsOf_length_all_fresh.
    + intros later Hcache Hlater. rewrite Hres.
      apply map_ext_in. intros u Hin%list_elem_of_In.
      apply freshResult_agree; auto.
    + intros remote0 s0 reply0 s0' ms Hwf0 Hlat Hmiss HP0 Hms Hage -> Hnd.
      rewrite Hres.
      by apply (fresh_after_fill remote0 request b us s0 reply0 s0' ms).
  - rewrite Hrest. simpl. repeat split; try done.
Qed.

(** The request [["octocat"; "ghost"]] fills an empty cache and is
    repeated one minute later with the remote side out of reach. *)
Lemma C1_hits_skip_network_but_are_counted_witness :
  match POST graphqlDown (requestOf ["octocat"; "ghost"] None None) emptyState with
  | (Returned (Status200 reply0), s0') =>
      exists reply s1,
        POST unreachable (requestOf ["octocat"; "ghost"] None None) (tick 60000 s0')
        = (Returned (Status200 reply), s1)
        /\ calls s1 = calls s0'
        /\ validationCache s1 = validationCache s0'
        /\ rateLimitMap s1 <> rateLimitMap s0'
        /\ results reply = map (freshResult (tick 60000 s0')) ["octocat"; "ghost"]
        /\ cacheStats reply = {| cached := 2; validated := 0; total := 2 |}
        /\ results reply = results reply0
  | _ => False
  end.
Proof.
  destruct (POST graphqlDown (requestOf ["octocat"; "ghost"] None None) emptyState)
    as [[[reply0|msg|msg t r|msg]|e] s0'] eqn:E;
    try (vm_compute in E; discriminate E).
  assert (Hwf : cache_wf (tick 60000 s0')).
  { pose proof (POST_preserves_cache_wf graphqlDown
                  (requestOf ["octocat"; "ghost"] None None) emptyState
                  (cache_wf_empty emptyState eq_refl)) as H.
    rewrite E in H. exact H. }
  assert (Hfresh : forall u, u ∈ ["octocat"; "ghost"] ->
                             is_Some (freshResult (tick 60000 s0') u)).
  { intros u Hu. change s0' with (snd (Returned (Status200 reply0), s0')). rewrite <- E.
    apply elem_of_cons in Hu as [->|Hu]; [vm_compute; eexists; reflexivity|].
    apply list_elem_of_singleton in Hu as ->. vm_compute; eexists; reflexivity. }
  assert (Hclock : clock s0' = 80).
  { change s0' with (snd (Returned (Status200 reply0), s0')). rewrite <- E.
    vm_compute. reflexivity. }
  destruct (C1_hits_skip_network_but_are_counted
              unreachable (requestOf ["octocat"; "ghost"] None None)
              {| usernames := Some ["octocat"; "ghost"]; githubToken := None;
                 method := None |}
              ["octocat"; "ghost"] (tick 60000 s0') Hwf eq_refl eq_refl)
    as (rl & s1 & Hrl & HP2 & Hcalls & Hcache & Hif).
  - discriminate.
  - simpl. lia.
  - exact Hfresh.
  - assert (Hal : allowed rl = true).
    { change (allowed rl)
        with (match fst (@Returned RateLimitCheck rl, s1) with
              | Returned x => allowed x
              | Threw _ => false
              end).
      rewrite <- Hrl. change s0' with (snd (Returned (Status200 reply0), s0')).
      rewrite <- E. vm_compute. reflexivity. }
    rewrite Hal in Hif.
    destruct Hif as (Hlim & reply & HP1 & Hres & Hstats & _ & Hfill).
    exists reply, s1. split.
    { destruct (POST unreachable (requestOf ["octocat"; "ghost"] None None)
                     (tick 60000 s0')) as [o s2].
      simpl in HP1, HP2. by rewrite HP1, HP2. }
    repeat split; try done.
    apply (Hfill graphqlDown emptyState reply0 s0' 60000 (cache_wf_empty emptyState eq_refl)).
    + intros n. simpl. lia.
    + intros u _. unfold freshResult. simpl. by rewrite lookup_empty.
    + exact E.
    + lia.
    + rewrite Hclock. vm_compute. reflexivity.
    + reflexivity.
    + apply (bool_decide_unpack _). vm_compute. reflexivity.
Defined.

(** The proviso on handles listed twice is needed: a handle listed twice
    is validated twice; the reply shows the first verdict at both
    positions while the cache keeps the last, which the repetition
    returns. *)
Lemma listed_twice_reply_and_repetition_differ :
  match POST firstCallOnly (requestOf ["octocat"; "octocat"] None None) emptyState with
  | (Returned (Status200 reply0), s0') =>
      map (option_map vstatus) (results reply0) = [Some Valid; Some Valid]
      /\ match POST firstCallOnly (requestOf ["octocat"; "octocat"] None None)
                    (tick 1000 s0') with
         | (Returned (Status200 reply), s1) =>
             calls s1 = calls s0'
             /\ map (option_map vstatus) (results reply) = [Some Error; Some Error]
         | _ => False
         end
  | _ => False
  end.
Proof. vm_compute. repeat split. Qed.



End CacheClaims.

Module ChunkFacts.
Import Server ServerFacts.

Lemma ceil_div_small n size : (0 < n)%nat -> (n <= size)%nat -> ((n + size - 1) / size)%nat = 1%nat.
Proof.
  intros Hn Hs. symmetry. apply (Nat.div_unique _ _ _ (n - 1)); lia.
Qed.

Lemma ceil_div_step n size :
  (0 < size)%nat -> (size < n)%nat ->
  ((n + size - 1) / size)%nat = S ((n - size + size - 1) / size)%nat.
Proof.
  intros Hs Hn.
  replace (n + size - 1)%nat with ((n - size + size - 1) + 1 * size)%nat by lia.
  rewrite Nat.div_add by lia. lia.
Qed.

(** The slicing loop makes [ceil (length / size)] slices. *)
Lemma slices_length {A} size : forall fuel (l : list A),
  (0 < size)%nat -> (length l <= fuel)%nat ->
  length (slices fuel size l) = ((length l + size - 1) / size)%nat.
Proof.
  induction fuel as [|fuel IH]; intros l Hs Hf.
  - destruct l; [|simpl in Hf; lia]. simpl. symmetry. apply Nat.div_small. lia.
  - destruct l as [|x l].
    + simpl. symmetry. apply Nat.div_small. lia.
    + change (slices (S fuel) size (x :: l))
        with (take size (x :: l) :: slices fuel size (drop size (x :: l))).
      assert (Hpos : (0 < length (x :: l))%nat) by (simpl; lia).
      remember (x :: l) as l' eqn:El. clear El.
      change (length (?a :: ?b)) with (S (length b)).
      rewrite IH; [|done|rewrite length_drop; lia].
      rewrite length_drop.
      destruct (Nat.le_gt_cases (length l') size) as [Hle|Hgt].
      * rewrite (ceil_div_small (length l') size) by lia.
        replace (length l' - size)%nat with 0%nat by lia.
        rewrite Nat.div_small by lia. done.
      * rewrite (ceil_div_step (length l') size) by lia. done.
Qed.

Lemma chunksOf_length {A} size (l : list A) :
  (0 < size)%nat -> length (chunksOf size l) = ((length l + size - 1) / size)%nat.
Proof. intros Hs. by apply slices_length. Qed.

Lemma chunksOf_bounds {A} size (l : list A) c :
  (0 < size)%nat -> c ∈ chunksOf size l -> c <> [] /\ (length c <= size)%nat.
Proof. intros Hs. by apply slices_nonempty. Qed.

End ChunkFacts.

Module PlainFacts.
Import Server ServerSpec ServerFacts Plain PlainRoute RouteSpec LimiterSpec LimiterFacts.
Local Open Scope m_scope.

(** The plain validator always answers, after one request. *)
Lemma validateGitHubUsername_run remote u tok s :
  exists r, validateGitHubUsername remote u tok s
            = (Returned r, sent remote (GetUser u (tokenHeader tok)) (tick 2500 s))
            /\ username r = u /\ terminal r.
Proof.
  unfold validateGitHubUsername, try_catch, bind, sleep, modify, fetch, sent, json_of,
    await_json, terminal. simpl.
  destruct (getUser remote (length (calls s)) u (tokenHeader tok)) as [e|resp]; simpl.
  - eexists. split; [reflexivity|]. simpl. auto.
  - destruct (status resp =? 200).
    + destruct (json resp); eexists; (split; [reflexivity|]); simpl; auto.
    + destruct (status resp =? 404); [eexists; split; [reflexivity|]; simpl; auto|].
      destruct (status resp =? 403); [|eexists; split; [reflexivity|]; simpl; auto].
      destruct (json resp) as [e|d]; simpl.
      * eexists. split; [reflexivity|]. simpl. auto.
      * destruct (match u_message d with Some m => _ | None => _ end);
          eexists; (split; [reflexivity|]); simpl; auto.
Qed.

Lemma elapsed_S remote from n :
  elapsed remote from (S n) = latency remote from + elapsed remote (S from) n.
Proof. reflexivity. Qed.

(** The loop of the plain [POST]: one request per handle, in order, each
    after a pause of 2500 ms. *)
Lemma mapM_validateGitHubUsername remote tok us : forall s,
  exists rs s',
    mapM (fun u => validateGitHubUsername remote u tok) us s = (Returned rs, s')
    /\ map username rs = us
    /\ Forall terminal rs
    /\ same_maps s s'
    /\ calls s' = (calls s ++ map (fun u => GetUser u (tokenHeader tok)) us)%list
    /\ clock s' = clock s + 2500 * Z.of_nat (length us)
                  + elapsed remote (length (calls s)) (length us).
Proof.
  induction us as [|u us IH]; intros s.
  - exists [], s. simpl. rewrite app_nil_r. unfold elapsed. simpl. repeat split; auto. lia.
  - destruct (validateGitHubUsername_run remote u tok s) as (r & Hr & Hu & Ht).
    set (s1 := sent remote (GetUser u (tokenHeader tok)) (tick 2500 s)) in *.
    destruct (IH s1) as (rs & s' & Hrs & Hus & Hts & [Hm1 Hm2] & Hc & Hk).
    exists (r :: rs), s'. cbn [mapM]. rewrite (bind_run _ _ s r s1 Hr).
    rewrite (bind_run _ _ s1 rs s' Hrs). unfold ret.
    split; [done|]. split; [simpl; congruence|]. split; [by constructor|]. split.
    + split; [by rewrite Hm1|by rewrite Hm2].
    + split.
      * rewrite Hc. unfold s1. rewrite sent_calls. simpl. by rewrite <- app_assoc.
      * rewrite Hk. unfold s1. rewrite sent_calls. unfold sent. simpl.
        rewrite length_app. simpl. rewrite elapsed_S.
        replace (length (calls s) + 1)%nat with (S (length (calls s))) by lia. lia.
Qed.

Lemma checkRateLimit_run ip s :
  exists rl s1, checkRateLimit ip s = (Returned rl, s1)
    /\ validationCache s1 = validationCache s
    /\ clock s1 = clock s
    /\ calls s1 = calls s
    /\ (if allowed rl then rateLimitMap s1 <> rateLimitMap s else s1 = s).
Proof.
  unfold checkRateLimit, bind, Date_now, get, modify, ret.
  assert (Hneq : forall e, rateLimitMap s !! ip <> Some e ->
                           <[ip := e]> (rateLimitMap s) <> rateLimitMap s).
  { intros e Hne Heq. apply Hne. rewrite <- Heq. apply lookup_insert_eq. }
  destruct (rateLimitMap s !! ip) as [e|] eqn:E.
  - destruct (clock s >? resetTime e) eqn:Et.
    + eexists _, _. split; [reflexivity|]. simpl. repeat split; auto.
      apply Hneq. intros [= ->]. simpl in Et. lia.
    + destruct (count e >=? 30) eqn:Ec.
      * eexists _, _. split; [reflexivity|]. simpl. done.
      * eexists _, _. split; [reflexivity|]. simpl. repeat split; auto.
        apply Hneq. destruct e as [c t]. simpl in *. intros [= Hc]. lia.
  - eexists _, _. split; [reflexivity|]. simpl. repeat split; auto.
Qed.

(** The plain [POST], by cases: the limiter is charged first. *)
Lemma plain_POST_run remote request s :
  exists rl s1,
    checkRateLimit (ipOf request) s = (Returned rl, s1)
    /\ if allowed rl then
         match body request with
         | JsonThrows e =>
             POST remote request s = (Returned (Status500 "Internal server error"), s1)
         | JsonValue b =>
             match usernames b with
             | None | Some [] =>
                 POST remote request s
                 = (Returned (Status400 "Invalid request: usernames array is required"), s1)
             | Some us =>
                 if (20 <? length us)%nat then
                   POST remote request s
                   = (Returned (Status400 "Too many usernames. Maximum 20 per request."), s1)
                 else
                   exists rs s',
                     mapM (fun u => validateGitHubUsername remote u (githubToken b)) us s1
                     = (Returned rs, s')
                     /\ POST remote request s
                        = (Returned (Status200
                                       {| results := rs;
                                          r_remaining := remaining rl - Z.of_nat (length us);
                                          r_resetTime := rl_resetTime rl |}), s')
             end
         end
       else
         s1 = s
         /\ POST remote request s
            = (Returned (Status429 "Rate limit exceeded. Please try again later."
                                   (rl_resetTime rl) (remaining rl)), s).
Proof.
  destruct (checkRateLimit_run (ipOf request) s) as (rl & s1 & Hrl & _ & _ & _ & Hal).
  exists rl, s1. split; [done|].
  destruct (allowed rl) eqn:Eal.
  - destruct (body request) as [e|b] eqn:Eb.
    + unfold POST. rewrite Eb.
      rewrite (try_catch_run_throw _ _ s e s1); [reflexivity|].
      rewrite (bind_run _ _ s rl s1 Hrl). cbv beta. rewrite Eal. cbn [negb].
      by apply bind_run_throw.
    + destruct (usernames b) as [[|u0 us]|] eqn:Eus.
      1, 3: unfold POST; rewrite Eb; apply try_catch_run;
        rewrite (bind_run _ _ s rl s1 Hrl); cbv beta; rewrite Eal; cbn [negb];
        rewrite (bind_run _ _ s1 b s1 eq_refl); cbv beta; by rewrite Eus.
      destruct (20 <? length (u0 :: us))%nat eqn:Ebig.
      * unfold POST; rewrite Eb; apply try_catch_run;
        rewrite (bind_run _ _ s rl s1 Hrl); cbv beta; rewrite Eal; cbn [negb];
        rewrite (bind_run _ _ s1 b s1 eq_refl); cbv beta; by rewrite Eus, Ebig.
      * destruct (mapM_validateGitHubUsername remote (githubToken b) (u0 :: us) s1)
          as (rs & s' & Hrs & _).
        exists rs, s'. split; [done|].
        unfold POST; rewrite Eb; apply try_catch_run;
        rewrite (bind_run _ _ s rl s1 Hrl); cbv beta; rewrite Eal; cbn [negb];
        rewrite (bind_run _ _ s1 b s1 eq_refl); cbv beta; rewrite Eus, Ebig.
        by rewrite (bind_run _ _ s1 rs s' Hrs).
  - subst s1. split; [done|].
    unfold POST. apply try_catch_run.
    rewrite (bind_run _ _ s rl s Hrl). cbv beta. by rewrite Eal.
Qed.

End PlainFacts.

Module EngagementMore.
Import Server ServerSpec ServerFacts Engagement EngagementSpec EngagementClaims.
Import EngagementRoute.
Local Open Scope m_scope.

Lemma graphqlEngagement_username t d i u : username (graphqlEngagement t d i u) = u.
Proof. unfold graphqlEngagement. by destruct (_ ≫= _). Qed.

Lemma imap_graphqlEngagement_usernames t d us :
  map username (imap (graphqlEngagement t d) us) = us.
Proof.
  apply list_eq. intros i. rewrite list_lookup_fmap, list_lookup_imap.
  destruct (us !! i); simpl; [|done]. by rewrite graphqlEngagement_username.
Qed.

(** One batch of the GraphQL path: the verdicts of the reply when there
    is one, the REST path for this batch otherwise. *)
Lemma engagementBatch_run remote batch targetOwner targetRepo token s :
  engagementBatch remote batch targetOwner targetRepo token s
  = match listed (postEngagement remote (length (calls s)) batch token) with
    | Some data =>
        (Returned (imap (graphqlEngagement
                           (Js.toLowerCase (targetOwner +:+ "/" +:+ targetRepo)) data)
                        batch),
         sent (rest remote) (PostGraphQL batch token) s)
    | None =>
        checkUsersEngagementREST (rest remote) batch targetOwner targetRepo (Some token)
                                 (sent (rest remote) (PostGraphQL batch token) s)
    end.
Proof.
  set (s1 := sent (rest remote) (PostGraphQL batch token) s).
  destruct (checkUsersEngagementREST_no_error (rest remote) batch targetOwner targetRepo
              (Some token) s1) as (rs & s' & Hrest & _).
  unfold engagementBatch, listed.
  destruct (postEngagement remote (length (calls s)) batch token) as [e|res] eqn:E.
  - rewrite (try_catch_run_throw _ _ s e s1); [done|].
    apply bind_run_throw. unfold fetch. by rewrite E.
  - assert (Hf : fetch (rest remote) (PostGraphQL batch token)
                       (fun n => postEngagement remote n batch token) s
                 = (Returned res, s1)) by (unfold fetch; by rewrite E).
    destruct (ok res) eqn:Eok.
    + destruct (json res) as [e|data] eqn:Ej.
      * rewrite (try_catch_run_throw _ _ s e s1); [done|].
        rewrite (bind_run _ _ s res s1 Hf). cbv beta. rewrite Eok. cbn [negb].
        apply bind_run_throw. unfold json_of. by rewrite Ej.
      * apply try_catch_run.
        rewrite (bind_run _ _ s res s1 Hf). cbv beta. rewrite Eok. cbn [negb].
        rewrite (bind_run _ _ s1 data s1); [done|]. unfold json_of. by rewrite Ej.
    + rewrite Hrest. apply try_catch_run.
      rewrite (bind_run _ _ s res s1 Hf). cbv beta. by rewrite Eok.
Qed.

Lemma engagementBatch_aligned remote batch targetOwner targetRepo token s :
  exists rs s',
    engagementBatch remote batch targetOwner targetRepo token s = (Returned rs, s')
    /\ map username rs = batch.
Proof.
  rewrite engagementBatch_run.
  destruct (listed _) as [data|].
  - eexists _, _. split; [done|]. apply imap_graphqlEngagement_usernames.
  - destruct (checkUsersEngagementREST_no_error (rest remote) batch targetOwner targetRepo
                (Some token) (sent (rest remote) (PostGraphQL batch token) s))
      as (rs & s' & Hrest & Hu & _). eauto.
Qed.

Lemma mapM_engagementBatch remote targetOwner targetRepo token batches : forall s,
  exists rss s',
    mapM (fun batch => engagementBatch remote batch targetOwner targetRepo token) batches s
    = (Returned rss, s')
    /\ map username (concat rss) = concat batches.
Proof.
  induction batches as [|b batches IH]; intros s.
  - by exists [], s.
  - destruct (engagementBatch_aligned remote b targetOwner targetRepo token s)
      as (rs & s1 & Hr & Hu).
    destruct (IH s1) as (rss & s' & Hrs & Hus).
    exists (rs :: rss), s'. cbn [mapM].
    rewrite (bind_run _ _ s rs s1 Hr). rewrite (bind_run _ _ s1 rss s' Hrs).
    split; [done|]. simpl. by rewrite map_app, Hu, Hus.
Qed.

(** The GraphQL path never fails and answers for every handle, in
    order. *)
Lemma checkUsersEngagementGraphQL_aligned remote us targetOwner targetRepo token s :
  exists rs s',
    checkUsersEngagementGraphQL remote us targetOwner targetRepo token s = (Returned rs, s')
    /\ map username rs = us.
Proof.
  unfold checkUsersEngagementGraphQL.
  destruct (mapM_engagementBatch remote targetOwner targetRepo token (chunksOf 30 us) s)
    as (rss & s' & Hr & Hu).
  exists (concat rss), s'. rewrite (bind_run _ _ s rss s' Hr).
  split; [done|]. rewrite Hu. apply chunksOf_concat. lia.
Qed.

Lemma countIf_le p users : (countIf p users <= length users)%nat.
Proof. unfold countIf. apply List.filter_length_le. Qed.

Lemma countIf_none users :
  Forall (fun r => u_error r = None) users ->
  countIf (fun u => truthy (u_error u)) users = 0%nat.
Proof.
  unfold countIf. induction 1 as [|u users Hu _ IH]; [done|].
  simpl. by rewrite Hu.
Qed.

(** The users [POST] computes for a request it accepts. *)
Lemma POST_users remote (token : option string) us targetOwner targetRepo s :
  exists users s',
    (match token with
     | Some t =>
         if Js.truthy t && (length us <=? 100)%nat then
           try_catch
             (checkUsersEngagementGraphQL remote us targetOwner targetRepo t)
             (fun err =>
                checkUsersEngagementREST (rest remote) us targetOwner targetRepo token)
         else checkUsersEngagementREST (rest remote) us targetOwner targetRepo token
     | None => checkUsersEngagementREST (rest remote) us targetOwner targetRepo token
     end) s = (Returned users, s')
    /\ map username users = us
    /\ (truthy token = false -> Forall (fun r => u_error r = None) users).
Proof.
  destruct (checkUsersEngagementREST_no_error (rest remote) us targetOwner targetRepo token s)
    as (rs & s' & Hr & Hu & He).
  destruct token as [t|]; [|by exists rs, s'].
  destruct (Js.truthy t) eqn:Et; simpl andb.
  - destruct (length us <=? 100)%nat.
    + destruct (checkUsersEngagementGraphQL_aligned remote us targetOwner targetRepo t s)
        as (rs' & s'' & Hr' & Hu').
      exists rs', s''. split; [by apply try_catch_run|]. split; [done|].
      simpl. by rewrite Et.
    + by exists rs, s'.
  - by exists rs, s'.
Qed.

(** [POST] by cases. *)
Lemma engagement_POST_run remote request s :
  match request with
  | JsonThrows e =>
      POST remote request s
      = (Returned (Status500 "Internal server error" (messageOf e)), s)
  | JsonValue body =>
      match repositoryUrl body, usernames body with
      | Some url, Some (u0 :: us) =>
          if Js.truthy url then
            match parseRepositoryUrl url with
            | None =>
                POST remote request s
                = (Returned (Status400 ("Invalid GitHub repository URL: " +:+ url)), s)
            | Some parsed =>
                exists users s',
                  POST remote request s
                  = (Returned (Status200 {| repository := parsed; url := url;
                                            users := users;
                                            summary := summaryOf users |}), s')
                  /\ map username users = u0 :: us
                  /\ (truthy (githubToken body) = false ->
                      Forall (fun r => u_error r = None) users)
            end
          else
            POST remote request s
            = (Returned (Status400 "Repository URL and usernames array are required"), s)
      | _, _ =>
          POST remote request s
          = (Returned (Status400 "Repository URL and usernames array are required"), s)
      end
  end.
Proof.
  destruct request as [e|body]; [done|].
  destruct (repositoryUrl body) as [url|] eqn:Eurl.
  2: { unfold POST. apply try_catch_run. simpl await_json.
       rewrite (bind_run _ _ s body s eq_refl). cbv beta. by rewrite Eurl. }
  destruct (usernames body) as [[|u0 us]|] eqn:Eus.
  1, 3: unfold POST; apply try_catch_run; simpl await_json;
    rewrite (bind_run _ _ s body s eq_refl); cbv beta; by rewrite Eurl, Eus.
  destruct (Js.truthy url) eqn:Et.
  2: { unfold POST. apply try_catch_run. simpl await_json.
       rewrite (bind_run _ _ s body s eq_refl). cbv beta. by rewrite Eurl, Eus, Et. }
  destruct (parseRepositoryUrl url) as [parsed|] eqn:Ep.
  2: { unfold POST. apply try_catch_run. simpl await_json.
       rewrite (bind_run _ _ s body s eq_refl). cbv beta. by rewrite Eurl, Eus, Et, Ep. }
  destruct (POST_users remote (githubToken body) (u0 :: us) (owner parsed) (repo parsed) s)
    as (users & s' & Hrun & Hu & He).
  exists users, s'. split; [|done].
  unfold POST. apply try_catch_run. simpl await_json.
  rewrite (bind_run _ _ s body s eq_refl). cbv beta. rewrite Eurl, Eus, Et, Ep.
  cbn [negb]. by rewrite (bind_run _ _ s users s' Hrun).
Qed.

End EngagementMore.

Module RoundFacts.
Import Regex RegexSpec Client ClientSpec ClientFacts HandleFacts ControlLoop RoundSpec.


Lemma set_duplicate_ok u : recordOk u -> status u = Pending -> recordOk (set_duplicate u).
Proof.
  intros [He Hc] Hp. split; [done|]. unfold classified in *. simpl.
  destruct (truthyHandle (username u)); [by right|congruence].
Qed.

Lemma markFirstOccurrence_ok f us :
  Forall recordOk us -> Forall recordOk (markFirstOccurrence f us).
Proof.
  induction 1 as [|u us Hu Hus IH]; [done|]. simpl.
  destruct (index u =? f)%nat; [|by constructor].
  constructor; [|done].
  destruct (Status_eqb (status u) Pending) eqn:E; [|done].
  apply set_duplicate_ok; [done|]. by apply Status_eqb_eq.
Qed.

Lemma newUser_ok v st e i :
  match truthyHandle (extractUsername v) with
  | Some _ => st = Pending \/ st = Duplicate
  | None => st = Invalid
  end ->
  recordOk (newUser v (extractUsername v) st e i).
Proof.
  intros H. split; [by exists v|]. unfold classified. simpl.
  by destruct (truthyHandle (extractUsername v)).
Qed.

Lemma processRow_ok columnIndex st row i :
  Forall recordOk (users st) -> Forall recordOk (users (processRow columnIndex st row i)).
Proof.
  intros H. unfold processRow.
  destruct (truthyHandle (extractUsername (nth columnIndex row ""))) as [h|] eqn:E.
  - destruct (seenUsernames st !! Js.toLowerCase h); simpl.
    + apply Forall_app. split; [by apply markFirstOccurrence_ok|].
      constructor; [|done]. apply newUser_ok. rewrite E. by right.
    + apply Forall_app. split; [done|].
      constructor; [|done]. apply newUser_ok. rewrite E. by left.
  - simpl. apply Forall_app. split; [done|].
    constructor; [|done]. apply newUser_ok. by rewrite E.
Qed.

Lemma processLine_ok st line i :
  Forall recordOk (users st) -> Forall recordOk (users (processLine st line i)).
Proof.
  intros H. unfold processLine. simpl.
  apply Forall_app. split.
  - destruct (truthyHandle (extractUsername (Js.trim line))); [|done].
    by destruct (bool_decide _).
  - constructor; [|done]. apply newUser_ok.
    destruct (truthyHandle (extractUsername (Js.trim line))); auto.
Qed.

Lemma flagDuplicate_ok dups u : recordOk u -> recordOk (flagDuplicate dups u).
Proof.
  intros [He Hc]. unfold flagDuplicate.
  destruct (truthyHandle (username u)) as [h|] eqn:E; [|done].
  destruct (bool_decide _); [|done].
  split; [done|]. unfold classified. simpl. rewrite E. by right.
Qed.

(** Every record either entry point builds was read by
    [extractUsername] and is classified by whether a handle was found. *)
Lemma processed_ok us : processed us -> Forall recordOk us.
Proof.
  intros [(data & col & p & Hp & ->)|(text & Hp)].
  - unfold processUsernames in Hp.
    destruct (negb (Js.truthy col)); [done|].
    destruct (indexOf col (headers data)) as [ci|]; [|done].
    injection Hp as <-.
    apply (forEach_invariant (processRow ci) (fun _ st => Forall recordOk (users st))).
    + intros i x st _. apply processRow_ok.
    + constructor.
  - unfold processManualInput in Hp.
    destruct (negb (Js.truthy (Js.trim text))); [done|].
    injection Hp as <-. apply Forall_fmap.
    eapply Forall_impl; [|intros u Hu; apply (flagDuplicate_ok _ u Hu)].
    apply (forEach_invariant processLine (fun _ st => Forall recordOk (users st))).
    + intros i x st _. apply processLine_ok.
    + constructor.
Qed.

Lemma recordOk_wellFormed u h :
  recordOk u -> truthyHandle (username u) = Some h -> wellFormed h = true.
Proof.
  intros [[v Hv] _] Hh. apply truthyHandle_Some in Hh.
  rewrite Hv in Hh. by apply extractUsername_wellFormed in Hh.
Qed.

(** The test of [usersToValidate], as a function to an optional handle. *)
Lemma usernamesToSubmit_omap us :
  usernamesToSubmit us
  = omap (fun u => if Status_eqb (status u) Pending then truthyHandle (username u) else None) us.
Proof.
  unfold usernamesToSubmit, usersToValidate.
  induction us as [|u us IH]; [done|]. simpl.
  destruct (Status_eqb (status u) Pending) eqn:Es.
  - destruct (truthyHandle (username u)) as [h|] eqn:Eh.
    + rewrite filter_cons_True.
      * simpl. rewrite Eh. by f_equal.
      * rewrite Es. simpl. apply bool_decide_eq_true_2. by eexists.
    + rewrite filter_cons_False; [done|].
      rewrite Es. simpl. rewrite bool_decide_eq_false_2; [done|]. rewrite Eh. by intros [? ?].
  - rewrite filter_cons_False; [done|]. by rewrite Es.
Qed.

Lemma usernamesToSubmit_elem us h :
  h ∈ usernamesToSubmit us <->
  exists i u, us !! i = Some u /\ status u = Pending /\ truthyHandle (username u) = Some h.
Proof.
  rewrite usernamesToSubmit_omap, list_elem_of_omap. split.
  - intros (u & Hu & Hh). apply list_elem_of_lookup in Hu as [i Hi].
    destruct (Status_eqb (status u) Pending) eqn:Es; [|done].
    apply Status_eqb_eq in Es. eauto.
  - intros (i & u & Hi & Hs & Hh). exists u. split; [by eapply list_elem_of_lookup_2|].
    apply Status_eqb_eq in Hs. by rewrite Hs.
Qed.

Lemma NoDup_omap_fmap {A B C} (f : B -> C) (g : A -> option B) (l : list A) :
  (forall i j x y a b, i <> j -> l !! i = Some x -> l !! j = Some y ->
                       g x = Some a -> g y = Some b -> f a <> f b) ->
  NoDup (map f (omap g l)).
Proof.
  induction l as [|x l IH]; intros H; [constructor|].
  assert (IH' : NoDup (map f (omap g l))).
  { apply IH. intros i j x' y' a b Hij Hi Hj. apply (H (S i) (S j)); [lia|done|done]. }
  simpl. destruct (g x) as [a|] eqn:Ea; [|done].
  simpl. constructor; [|done].
  intros (b & Hab & Hb)%list_elem_of_fmap.
  apply list_elem_of_omap in Hb as (y & Hy & Hgy).
  apply list_elem_of_lookup in Hy as [j Hj].
  by apply (H 0%nat (S j) x y a b).
Qed.

(** No handle is submitted twice, not even in another case. *)
Lemma usernamesToSubmit_NoDup us :
  processed us -> NoDup (map Js.toLowerCase (usernamesToSubmit us)).
Proof.
  intros Hp. rewrite usernamesToSubmit_omap. apply NoDup_omap_fmap.
  intros i j x y a b Hij Hi Hj Ha Hb Hl.
  destruct (Status_eqb (status x) Pending) eqn:Es; [|done].
  destruct (Status_eqb (status y) Pending); [|done].
  apply Status_eqb_eq in Es. apply truthyHandle_Some in Ha, Hb.
  pose proof (processed_pair us i j x y a b Hp Hij Hi Hj Ha Hb Hl). congruence.
Qed.

End RoundFacts.

Module TwinFacts.
Import Client ClientSpec ClientFacts RoundSpec RoundFacts.

(** A twin stays a twin when the list changes without touching
    handles. *)
Lemma twin_keeps us us' i :
  twin us i ->
  (forall j u, us !! j = Some u -> exists u', us' !! j = Some u' /\ username u' = username u) ->
  twin us' i.
Proof.
  intros (j & u & u' & h & h' & Hij & Hi & Hj & Hh & Hh' & Hl) Hkeep.
  destruct (Hkeep i u Hi) as (v & Hv & Hvu). destruct (Hkeep j u' Hj) as (v' & Hv' & Hvu').
  exists j, v, v', h, h'. rewrite Hvu, Hvu'. done.
Qed.

Lemma lookup_snoc_keeps (us : list ProcessedUser) x j u :
  us !! j = Some u -> exists u', (us ++ [x])%list !! j = Some u' /\ username u' = username u.
Proof. intros H. exists u. split; [|done]. by apply lookup_app_l_Some. Qed.

Lemma lookup_alter_mark_keeps (us : list ProcessedUser) f x j u :
  us !! j = Some u ->
  exists u', (alter mark f us ++ [x])%list !! j = Some u' /\ username u' = username u.
Proof.
  intros H. destruct (decide (j = f)) as [->|Hne].
  - exists (mark u). split; [|apply mark_fields].
    apply lookup_app_l_Some. by rewrite list_lookup_alter_eq, H.
  - exists u. split; [|done]. apply lookup_app_l_Some.
    by rewrite list_lookup_alter_ne.
Qed.

Section ProcessUsernames.
Variable columnIndex : nat.
Variable rows : list (list string).

Lemma real_step k row st :
  rows !! k = Some row ->
  Inv columnIndex rows k st /\ duplicatesReal (users st) ->
  Inv columnIndex rows (Datatypes.S k) (processRow columnIndex st row k)
  /\ duplicatesReal (users (processRow columnIndex st row k)).
Proof.
  intros Hrow [HI Hreal]. split; [by apply Inv_step|].
  destruct HI as [Hlen Hrec Hseen Hfirst].
  unfold processRow.
  destruct (truthyHandle (extractUsername (nth columnIndex row ""))) as [h|] eqn:Eh.
  - destruct (seenUsernames st !! Js.toLowerCase h) as [f|] eqn:Ef.
    + destruct (Hfirst _ _ Ef) as (u0 & h0 & Hu0 & Hh0 & Hl0 & Hs0).
      assert (Hf : (f < k)%nat) by (rewrite <- Hlen; by eapply lookup_lt_Some).
      assert (Hm : markFirstOccurrence f (users st) = alter mark f (users st)).
      { apply (markFirstOccurrence_alter (users st) 0 f).
        intros i u Hi. by destruct (Hrec i u Hi). }
      rewrite Hm. clear Hm. simpl.
      set (new := newUser (nth columnIndex row "") (extractUsername (nth columnIndex row ""))
                          Duplicate (Some "Duplicate username found") k).
      assert (Hnew : (alter mark f (users st) ++ [new])%list !! k = Some new).
      { rewrite lookup_app_r; rewrite length_alter, Hlen; [|lia].
        by rewrite Nat.sub_diag. }
      assert (Hfst : (alter mark f (users st) ++ [new])%list !! f = Some (mark u0)).
      { apply lookup_app_l_Some. by rewrite list_lookup_alter_eq, Hu0. }
      assert (Hmh : truthyHandle (username (mark u0)) = Some h0).
      { destruct (mark_fields u0) as (-> & _). done. }
      intros i u Hi Hd.
      apply lookup_snoc_inv in Hi as [[Hlt Hi]|[-> ->]].
      * destruct (decide (i = f)) as [->|Hne].
        -- exists k, (mark u0), new, h0, h. rewrite Hl0.
           split; [lia|]. by rewrite Hfst.
        -- rewrite list_lookup_alter_ne in Hi by done.
           apply (twin_keeps (users st)); [by apply (Hreal i u)|].
           intros j u' Hj. by apply lookup_alter_mark_keeps.
      * rewrite length_alter, Hlen.
        exists f, new, (mark u0), h, h0. rewrite Hl0.
        split; [lia|]. by rewrite Hnew.
    + simpl. intros i u Hi Hd.
      apply lookup_snoc_inv in Hi as [[Hlt Hi]|[-> ->]]; [|done].
      apply (twin_keeps (users st)); [by apply (Hreal i u)|].
      intros j u' Hj. by apply lookup_snoc_keeps.
  - simpl. intros i u Hi Hd.
    apply lookup_snoc_inv in Hi as [[Hlt Hi]|[-> ->]]; [|done].
    apply (twin_keeps (users st)); [by apply (Hreal i u)|].
    intros j u' Hj. by apply lookup_snoc_keeps.
Qed.

Lemma real_final :
  duplicatesReal (users (forEach (processRow columnIndex) rows 0 emptyPass)).
Proof.
  apply (forEach_invariant (processRow columnIndex)
           (fun k st => Inv columnIndex rows k st /\ duplicatesReal (users st)) rows).
  - intros i x st Hx. by apply real_step.
  - split; [apply Inv_empty|]. by intros i u.
Qed.
End ProcessUsernames.

Lemma manualReal_step k line st :
  manualReal k st -> manualReal (Datatypes.S k) (processLine st line k).
Proof.
  intros (Hlen & Hnd & Hseen & Hdup).
  set (v := Js.trim line).
  assert (Hkeep1 : forall (us : list ProcessedUser) x i u h,
             us !! i = Some u -> truthyHandle (username u) = Some h ->
             exists i u h', (us ++ [x])%list !! i = Some u
                            /\ truthyHandle (username u) = Some h' /\ h' = h).
  { intros us x i u h Hi Hh. exists i, u, h. split; [by apply lookup_app_l_Some|done]. }
  unfold processLine. fold v.
  destruct (truthyHandle (extractUsername v)) as [h|] eqn:Eh.
  - set (new := newUser v (extractUsername v) Pending None k).
    destruct (bool_decide (Js.toLowerCase h ∈ dom (seenUsernames st))) eqn:Es; simpl.
    + apply bool_decide_eq_true in Es.
      assert (Hnew : (users st ++ [new])%list !! k = Some new).
      { rewrite lookup_app_r by lia. by rewrite Hlen, Nat.sub_diag. }
      unfold manualReal. simpl. split; [rewrite length_app; simpl; lia|]. split.
      { intros i u Hi. apply lookup_snoc_inv in Hi as [[_ Hi]|[_ ->]]; [by eapply Hnd|done]. }
      split.
      { intros l Hl. destruct (Hseen l Hl) as (i & u & h' & Hi & Hh & Hlo).
        exists i, u, h'. split; [by apply lookup_app_l_Some|done]. }
      intros l [->%elem_of_singleton|Hl]%elem_of_union.
      * destruct (Hseen _ Es) as (i & u & h' & Hi & Hh & Hlo).
        exists i, k, u, new, h', h.
        split; [apply lookup_lt_Some in Hi; lia|].
        split; [by apply lookup_app_l_Some|]. done.
      * destruct (Hdup l Hl) as (i & j & ui & uj & hi & hj & Hij & Hi & Hj & H).
        exists i, j, ui, uj, hi, hj.
        split; [done|]. split; [by apply lookup_app_l_Some|].
        split; [by apply lookup_app_l_Some|]. done.
    + assert (Hnew : (users st ++ [new])%list !! k = Some new).
      { rewrite lookup_app_r by lia. by rewrite Hlen, Nat.sub_diag. }
      unfold manualReal. simpl. split; [rewrite length_app; simpl; lia|]. split.
      { intros i u Hi. apply lookup_snoc_inv in Hi as [[_ Hi]|[_ ->]]; [by eapply Hnd|done]. }
      split.
      { intros l. rewrite dom_insert. intros [->%elem_of_singleton|Hl]%elem_of_union.
        - exists k, new, h. done.
        - destruct (Hseen l Hl) as (i & u & h' & Hi & Hh & Hlo).
          exists i, u, h'. split; [by apply lookup_app_l_Some|done]. }
      intros l Hl.
      destruct (Hdup l Hl) as (i & j & ui & uj & hi & hj & Hij & Hi & Hj & H).
      exists i, j, ui, uj, hi, hj.
      split; [done|]. split; [by apply lookup_app_l_Some|].
      split; [by apply lookup_app_l_Some|]. done.
  - unfold manualReal. simpl. split; [rewrite length_app; simpl; lia|]. split.
    { intros i u Hi. apply lookup_snoc_inv in Hi as [[_ Hi]|[_ ->]]; [by eapply Hnd|done]. }
    split.
    { intros l Hl. destruct (Hseen l Hl) as (i & u & h' & Hi & Hh & Hlo).
      exists i, u, h'. split; [by apply lookup_app_l_Some|done]. }
    intros l Hl.
    destruct (Hdup l Hl) as (i & j & ui & uj & hi & hj & Hij & Hi & Hj & H).
    exists i, j, ui, uj, hi, hj.
    split; [done|]. split; [by apply lookup_app_l_Some|].
    split; [by apply lookup_app_l_Some|]. done.
Qed.

Lemma manualReal_final lines :
  manualReal (length lines) (forEach processLine lines 0 emptyPass).
Proof.
  apply (forEach_invariant processLine manualReal lines).
  - intros i x st _. apply manualReal_step.
  - split; [done|]. split; [by intros i u|]. split.
    + intros l. simpl. rewrite dom_empty. by intros ?%elem_of_empty.
    + intros l. simpl. by intros ?%elem_of_empty.
Qed.

Lemma manual_real manualInput us :
  processManualInput manualInput = Some us -> duplicatesReal us.
Proof.
  unfold processManualInput.
  destruct (negb (Js.truthy (Js.trim manualInput))); [done|].
  intros [= <-].
  destruct (manualReal_final (manualLines manualInput)) as (_ & Hnd & _ & Hdup).
  set (st := forEach processLine (manualLines manualInput) 0 emptyPass) in *.
  intros p u Hp Hd. rewrite list_lookup_fmap in Hp.
  destruct (users st !! p) as [u0|] eqn:Ep; [|done].
  simpl in Hp. injection Hp as <-.
  unfold flagDuplicate in Hd.
  destruct (truthyHandle (username u0)) as [h|] eqn:Eh; [|by apply Hnd in Ep].
  destruct (bool_decide (Js.toLowerCase h ∈ duplicateUsernames st)) eqn:Ed;
    [|by apply Hnd in Ep].
  apply bool_decide_eq_true in Ed.
  destruct (Hdup _ Ed) as (i & j & ui & uj & hi & hj & Hij & Hi & Hj & Hhi & Hhj & Hli & Hlj).
  assert (Hget : forall q v, users st !! q = Some v ->
             (flagDuplicate (duplicateUsernames st) <$> users st) !! q
             = Some (flagDuplicate (duplicateUsernames st) v)).
  { intros q v Hq. by rewrite list_lookup_fmap, Hq. }
  destruct (decide (i = p)) as [->|Hip].
  - exists j, (flagDuplicate (duplicateUsernames st) u0),
      (flagDuplicate (duplicateUsernames st) uj), h, hj.
    rewrite !flagDuplicate_username.
    split; [done|]. split; [by apply Hget|]. split; [by apply Hget|].
    split; [done|]. split; [done|]. congruence.
  - exists i, (flagDuplicate (duplicateUsernames st) u0),
      (flagDuplicate (duplicateUsernames st) ui), h, hi.
    rewrite !flagDuplicate_username.
    split; [done|]. split; [by apply Hget|]. split; [by apply Hget|].
    split; [done|]. split; [done|]. congruence.
Qed.

Lemma processed_real us : processed us -> duplicatesReal us.
Proof.
  intros [(data & col & p & Hp & ->)|(text & Hp)].
  - unfold processUsernames in Hp.
    destruct (negb (Js.truthy col)); [done|].
    destruct (indexOf col (headers data)) as [ci|]; [|done].
    injection Hp as <-. apply real_final.
  - by apply (manual_real text).
Qed.

(** A record is flagged [duplicate] exactly when it has a twin. *)
Lemma duplicate_iff_twin us i u :
  processed us -> us !! i = Some u -> (status u = Duplicate <-> twin us i).
Proof.
  intros Hp Hi. split.
  - by apply processed_real.
  - intros (j & v & v' & h & h' & Hji & Hv & Hv' & Hh & Hh' & Hl).
    assert (v = u) as -> by congruence.
    apply truthyHandle_Some in Hh, Hh'.
    apply (processed_pair us i j u v' h h' Hp); auto.
Qed.

End TwinFacts.

Module MergeFacts.
Import Regex RegexSpec Client ClientSpec ClientFacts HandleFacts ControlLoop RoundSpec.
Import RoundFacts.

Lemma includes_elem h l : includes h l = true <-> h ∈ l.
Proof.
  unfold includes. rewrite existsb_exists. split.
  - intros (x & Hx & ->%String.eqb_eq). by apply list_elem_of_In.
  - intros H. exists h. split; [by apply list_elem_of_In|apply String.eqb_refl].
Qed.

Lemma findResult_elem h rs :
  h ∈ map Server.username rs ->
  exists r, Batch.findResult h rs = Some r /\ r ∈ rs /\ Server.username r = h.
Proof.
  intros H. destruct (Batch.findResult h rs) as [r|] eqn:E.
  - apply BatchFacts.findResult_Some in E as [? ?]. eauto.
  - by apply BatchFacts.findResult_None in E.
Qed.

Lemma mergeResult_sameEntry usernames rs data url u :
  sameEntry u (mergeResult usernames rs data url u).
Proof.
  unfold mergeResult, sameEntry.
  destruct (truthyHandle (username u)); [|done].
  destruct (includes _ _); [|done].
  by destruct (Batch.findResult _ _).
Qed.

(** A record that is not pending is not among those submitted, and the
    update leaves it alone. *)
Lemma mergeResult_untouched us rs data url i u :
  processed us -> us !! i = Some u -> Client.status u <> Pending ->
  mergeResult (usernamesToSubmit us) rs data url u = u.
Proof.
  intros Hp Hi Hs. unfold mergeResult.
  destruct (truthyHandle (username u)) as [h|] eqn:Eh; [|done].
  destruct (includes h (usernamesToSubmit us)) eqn:Ei; [|done].
  exfalso. apply includes_elem, usernamesToSubmit_elem in Ei as (j & v & Hj & Hv & Hh).
  destruct (decide (j = i)) as [->|Hji]; [congruence|].
  apply truthyHandle_Some in Eh, Hh.
  pose proof (processed_pair us j i v u h h Hp Hji Hj Hi Hh Eh eq_refl). congruence.
Qed.

(** A pending record takes the verdict of the result for its handle. *)
Lemma mergeResult_pending us rs data url i u :
  processed us -> map Server.username rs = usernamesToSubmit us ->
  us !! i = Some u -> Client.status u = Pending ->
  exists h r,
    username u = Some h /\ r ∈ rs /\ Server.username r = h
    /\ mergeResult (usernamesToSubmit us) rs data url u
       = {| originalValue := originalValue u; username := username u;
            status := Server.vstatus r; error := Server.error r; index := index u;
            profileData := Server.profileData r;
            repositoryEngagement := engagementFor data url r h |}.
Proof.
  intros Hp Hrs Hi Hs.
  pose proof (processed_ok us Hp) as Hok.
  rewrite Forall_lookup in Hok. destruct (Hok i u Hi) as [_ Hc].
  unfold classified in Hc.
  destruct (truthyHandle (username u)) as [h|] eqn:Eh; [|congruence].
  assert (Hin : h ∈ usernamesToSubmit us) by (apply usernamesToSubmit_elem; eauto).
  destruct (findResult_elem h rs) as (r & Hf & Hr & Hu); [by rewrite Hrs|].
  exists h, r. split; [by apply truthyHandle_Some|]. split; [done|]. split; [done|].
  unfold mergeResult. rewrite Eh.
  apply includes_elem in Hin. by rewrite Hin, Hf.
Qed.

Lemma terminal_not_pending r : ServerSpec.terminal r -> Server.vstatus r <> Pending.
Proof. by intros [->|[->| ->]]. Qed.

Lemma merge_round us rs data url i u :
  processed us -> map Server.username rs = usernamesToSubmit us -> Forall ServerSpec.terminal rs ->
  us !! i = Some u ->
  exists u',
    mergeResults (usernamesToSubmit us) rs data url us !! i = Some u'
    /\ sameEntry u u'
    /\ (Client.status u <> Pending -> u' = u)
    /\ (Client.status u = Pending ->
        exists r, r ∈ rs /\ Some (Server.username r) = username u
                  /\ Client.status u' = Server.vstatus r /\ Client.status u' <> Pending
                  /\ Client.error u' = Server.error r
                  /\ Client.profileData u' = Server.profileData r).
Proof.
  intros Hp Hrs Ht Hi.
  exists (mergeResult (usernamesToSubmit us) rs data url u).
  split; [unfold mergeResults; by rewrite list_lookup_fmap, Hi|].
  split; [apply mergeResult_sameEntry|]. split.
  - intros Hs. by apply (mergeResult_untouched us rs data url i u).
  - intros Hs. destruct (mergeResult_pending us rs data url i u Hp Hrs Hi Hs)
      as (h & r & Hh & Hr & Hu & ->).
    exists r. simpl. split; [done|]. split; [congruence|]. split; [done|].
    split; [|done]. apply terminal_not_pending. rewrite Forall_forall in Ht. by apply Ht.
Qed.

(** After the update of a round, no two records with the same handle are
    left unless both are duplicates. *)
Lemma merged_pair us rs data url i j ui uj :
  processed us -> map Server.username rs = usernamesToSubmit us ->
  i <> j ->
  mergeResults (usernamesToSubmit us) rs data url us !! i = Some ui ->
  mergeResults (usernamesToSubmit us) rs data url us !! j = Some uj ->
  is_Some (truthyHandle (username ui)) ->
  username ui = username uj ->
  Client.status uj = Duplicate.
Proof.
  intros Hp Hrs Hij Hi Hj [h Hh] Heq.
  unfold mergeResults in Hi, Hj. rewrite list_lookup_fmap in Hi, Hj.
  destruct (us !! i) as [u|] eqn:Ei; [|done].
  destruct (us !! j) as [v|] eqn:Ej; [|done].
  simpl in Hi, Hj. injection Hi as <-. injection Hj as <-.
  destruct (mergeResult_sameEntry (usernamesToSubmit us) rs data url u) as (_ & Hu & _).
  destruct (mergeResult_sameEntry (usernamesToSubmit us) rs data url v) as (_ & Hv & _).
  rewrite Hu in Hh. rewrite Hu, Hv in Heq. apply truthyHandle_Some in Hh.
  assert (Hd : Client.status v = Duplicate).
  { apply (processed_pair us j i v u h h Hp); [done|done|done|congruence|done|done]. }
  rewrite (mergeResult_untouched us rs data url j v Hp Ej); [done|congruence].
Qed.

Lemma failedUsers_elem us f : f ∈ failedUsers us <-> f ∈ us /\ isFailed f = true.
Proof.
  unfold failedUsers. rewrite !list_elem_of_In, filter_In. done.
Qed.

(** The retry resets the records that failed on the rate limit, and no
    other record. *)
Lemma markForRetry_merged us rs data url :
  processed us -> map Server.username rs = usernamesToSubmit us ->
  let merged := mergeResults (usernamesToSubmit us) rs data url us in
  markForRetry merged = map (fun u => if isFailed u then backToPending u else u) merged.
Proof.
  intros Hp Hrs merged. unfold markForRetry.
  apply list_eq. intros i. rewrite !list_lookup_fmap.
  destruct (merged !! i) as [u|] eqn:Ei; [|done]. simpl. f_equal.
  destruct (isFailed u) eqn:Ef.
  - assert (Hex : existsb (fun f => match username f, username u with
                                    | Some a, Some b => String.eqb a b
                                    | None, None => true
                                    | _, _ => false
                                    end) (failedUsers merged) = true).
    { apply existsb_exists. exists u. split.
      - apply list_elem_of_In, failedUsers_elem. split; [|done].
        by eapply list_elem_of_lookup_2.
      - destruct (username u); [apply String.eqb_refl|done]. }
    by rewrite Hex.
  - destruct (existsb _ (failedUsers merged)) eqn:Hex; [|done]. exfalso.
    apply existsb_exists in Hex as (f & Hf & Hm).
    apply list_elem_of_In, failedUsers_elem in Hf as [Hin Hfail].
    apply list_elem_of_lookup in Hin as [j Hj].
    unfold isFailed in Hfail. apply andb_true_iff in Hfail as [Hfail Herr].
    apply andb_true_iff in Hfail as [Hst Hh]. apply Status_eqb_eq in Hst.
    destruct (truthyHandle (username f)) as [h|] eqn:Eh; [|done].
    pose proof (truthyHandle_Some _ _ Eh) as Hfu. rewrite Hfu in Hm.
    destruct (username u) as [b|] eqn:Eu; [|done]. apply String.eqb_eq in Hm as <-.
    destruct (decide (i = j)) as [->|Hij].
    + assert (u = f) as -> by congruence.
      unfold isFailed in Ef. rewrite Hst, Eh in Ef. simpl in Ef.
      congruence.
    + assert (Hd : Client.status f = Duplicate).
      { apply (merged_pair us rs data url i j u f Hp Hrs Hij Ei Hj).
        - rewrite Eu, <- Hfu, Eh. by eexists.
        - congruence. }
      congruence.
Qed.

End MergeFacts.

Module CompositionFacts.
Import Server ServerSpec ServerFacts RouteSpec.
Import ControlLoop RoundSpec.

(** What the batch endpoint does first with the body the client sends:
    GraphQL exactly when there is a token and at least ten misses. *)
Lemma requestBody_first_call remote usernames githubToken u0 rest s :
  let b := requestBody usernames githubToken in
  let token := Js.trim githubToken in
  exists l,
    calls (Batch.validateUncached remote (default Batch.MAuto (Batch.method b))
                                  (Batch.githubToken b) (u0 :: rest) s).2
    = (calls s
       ++ (if Js.truthy token && (10 <=? length (u0 :: rest))%nat
           then PostGraphQL (take 100 (u0 :: rest)) token
           else GetUser u0 (if Js.truthy token then Some ("Bearer " +:+ token) else None))
          :: l)%list.
Proof.
  intros b token.
  destruct (BatchFacts.validateUncached_first_call remote
              (default Batch.MAuto (Batch.method b)) (Batch.githubToken b) u0 rest s)
    as [l Hl].
  exists l. rewrite Hl. do 2 f_equal.
  unfold b, requestBody, BatchSpec.batchPathTaken, Batch.useGraphQL, Batch.bearer. simpl.
  fold token. destruct (Js.truthy token) eqn:Et; simpl.
  - rewrite Et. simpl. rewrite andb_true_r. by destruct (10 <=? S (length rest))%nat.
  - done.
Qed.

Lemma slices_nil {A} fuel size : slices fuel size (@nil A) = [].
Proof. by destruct fuel. Qed.

(** Below the threshold of the batch API the chunk loop runs once. *)
Lemma plainChunks_single usernames githubToken :
  useBatchAPI usernames githubToken = false -> usernames <> [] ->
  plainChunks usernames = [usernames].
Proof.
  unfold useBatchAPI, plainChunks, chunksOf. intros [Hlen _]%orb_false_iff Hne.
  apply Nat.leb_gt in Hlen.
  destruct usernames as [|u us]; [done|].
  change (slices (length (u :: us)) 20 (u :: us))
    with (take 20 (u :: us) :: slices (length us) 20 (drop 20 (u :: us))).
  rewrite take_ge, drop_ge by lia. by rewrite slices_nil.
Qed.

(** A chunk of the client is never refused for its size by the plain
    endpoint. *)
Lemma plainChunks_accepted remote ip usernames githubToken chunk s :
  chunk ∈ plainChunks usernames ->
  exists response s',
    PlainRoute.POST remote (plainRequest ip chunk githubToken) s = (Returned response, s')
    /\ match response with
       | PlainRoute.Status200 reply =>
           map username (PlainRoute.results reply) = chunk
       | PlainRoute.Status429 _ _ _ => s' = s
       | _ => False
       end.
Proof.
  intros Hc. apply (ChunkFacts.chunksOf_bounds 20 usernames chunk) in Hc as [Hne Hlen]; [|lia].
  destruct (PlainFacts.plain_POST_run remote (plainRequest ip chunk githubToken) s)
    as (rl & s1 & Hrl & H).
  destruct (PlainRoute.allowed rl).
  - simpl in H. destruct chunk as [|u0 chunk]; [done|].
    apply Nat.ltb_ge in Hlen. rewrite Hlen in H.
    destruct H as (rs & s' & Hrs & HP).
    destruct (PlainFacts.mapM_validateGitHubUsername remote
                (PlainRoute.githubToken (plainRequestBody (u0 :: chunk) githubToken))
                (u0 :: chunk) s1) as (rs' & s'' & Hrs' & Hu & _).
    cbn [PlainRoute.githubToken plainRequestBody] in Hrs'.
    rewrite Hrs in Hrs'. injection Hrs' as <- <-.
    eexists _, s'. split; [exact HP|]. done.
  - destruct H as [-> HP]. eexists _, _. split; [exact HP|]. done.
Qed.

(** A round through the batch endpoint: every pending record gets the
    verdict of its handle, every other record is left alone. *)
Lemma batch_round remote ip githubToken data url us s reply s' i u :
  ClientSpec.processed us -> cache_wf s ->
  Batch.POST remote (batchRequest ip (Client.usernamesToSubmit us) githubToken) s
  = (Returned (Batch.Status200 reply), s') ->
  us !! i = Some u ->
  exists rs u',
    Batch.results reply = map Some rs
    /\ mergeResults (Client.usernamesToSubmit us) rs data url us !! i = Some u'
    /\ sameEntry u u'
    /\ (Client.status u <> Pending -> u' = u)
    /\ (Client.status u = Pending ->
        exists r, r ∈ rs /\ Some (username r) = Client.username u
                  /\ Client.status u' = vstatus r /\ Client.status u' <> Pending).
Proof.
  intros Hp Hwf HP Hi.
  destruct (BatchMore.POST_results_aligned remote
              (batchRequest ip (Client.usernamesToSubmit us) githubToken) s
              (requestBody (Client.usernamesToSubmit us) githubToken)
              (Client.usernamesToSubmit us) reply s' Hwf eq_refl eq_refl HP)
    as (rs & Hres & Hu & Ht).
  destruct (MergeFacts.merge_round us rs data url i u Hp Hu Ht Hi)
    as (u' & Hm & Hsame & Hkeep & Hpend).
  exists rs, u'. do 4 (split; [done|]).
  intros Hs. destruct (Hpend Hs) as (r & Hr & Hn & Hst & Hnp & _). eauto.
Qed.

End CompositionFacts.

Module ClientExtras.
Import Regex RegexSpec Client ClientSpec ClientFacts ControlLoop RoundSpec MoreDemo.
Import HandleFacts GreedyFacts RoundFacts TwinFacts MergeFacts CompositionFacts.

(** X1: [cleanUsername] accepts exactly GitHub's handle syntax: it returns
    [h] if and only if [h] is the input without surrounding white space
    and is made of 1 to 39 letters, digits and hyphens with no hyphen at
    either end. *)
Theorem cleanUsername_accepts_exactly_wellformed u h :
  cleanUsername u = Some h <-> h = Js.trim u /\ wellFormed h = true.
Proof. apply cleanUsername_spec. Qed.

(** X2: whatever text [extractUsername] is given, a handle it returns
    obeys GitHub's handle syntax. *)
Theorem extractUsername_yields_wellformed_handle v h :
  extractUsername v = Some h -> wellFormed h = true.
Proof. apply extractUsername_wellFormed. Qed.

Lemma extractUsername_yields_wellformed_handle_witness :
  extractUsername "git@github.com:octocat.git" = Some "octocat"
  /\ wellFormed "octocat" = true.
Proof.
  split; [vm_compute; reflexivity|].
  apply (extractUsername_yields_wellformed_handle "git@github.com:octocat.git" "octocat").
  vm_compute. reflexivity.
Defined.

(** X3: [extractUsername] returns a well-formed handle as it is, with or
    without a leading [@]. *)
Theorem extractUsername_keeps_plain_handle h :
  wellFormed h = true ->
  extractUsername h = Some h /\ extractUsername ("@" +:+ h) = Some h.
Proof. intros H. split; [by apply extractUsername_handle|by apply extractUsername_at]. Qed.

Lemma extractUsername_keeps_plain_handle_witness :
  extractUsername "octo-cat" = Some "octo-cat"
  /\ extractUsername "@octo-cat" = Some "octo-cat".
Proof. apply (extractUsername_keeps_plain_handle "octo-cat"). vm_compute. reflexivity. Defined.

(** X4: [extractUsername] reads the handle of a profile URL
    [github.com/<handle>], with or without [http://] or [https://], with
    or without [www.], with or without a final slash. *)
Theorem extractUsername_reads_profile_url scheme www slash h :
  scheme ∈ [""; "http://"; "https://"] -> www ∈ [""; "www."] -> slash ∈ [""; "/"] ->
  wellFormed h = true ->
  extractUsername (scheme +:+ www +:+ "github.com/" +:+ h +:+ slash) = Some h.
Proof. apply extractUsername_profile_url. Qed.

Lemma extractUsername_reads_profile_url_witness :
  extractUsername "https://www.github.com/octocat/" = Some "octocat".
Proof.
  apply (extractUsername_reads_profile_url "https://" "www." "/" "octocat").
  - repeat constructor.
  - repeat constructor.
  - repeat constructor.
  - vm_compute. reflexivity.
Defined.

(** X5: the handles handed to validation are all well-formed, and no two
    of them are equal, not even up to case. *)
Theorem submitted_handles_wellformed_and_distinct us :
  processed us ->
  Forall (fun h => wellFormed h = true) (usernamesToSubmit us)
  /\ NoDup (map Js.toLowerCase (usernamesToSubmit us)).
Proof.
  intros Hp. split; [|by apply usernamesToSubmit_NoDup].
  apply Forall_forall. intros h (i & u & Hi & _ & Hh)%usernamesToSubmit_elem.
  pose proof (processed_ok us Hp) as Hok. rewrite Forall_lookup in Hok.
  by apply (recordOk_wellFormed u h (Hok i u Hi)).
Qed.

Lemma mixedRecords_processed : processed mixedRecords.
Proof.
  left. exists mixedFile, "login".
  destruct (processUsernames (Some mixedFile) "login") as [p|] eqn:E.
  - exists p. split; [reflexivity|]. unfold mixedRecords. by rewrite E.
  - vm_compute in E. discriminate.
Qed.

Lemma submitted_handles_wellformed_and_distinct_witness :
  usernamesToSubmit mixedRecords = ["octocat"; "defunkt"]
  /\ Forall (fun h => wellFormed h = true) (usernamesToSubmit mixedRecords)
  /\ NoDup (map Js.toLowerCase (usernamesToSubmit mixedRecords)).
Proof.
  split; [vm_compute; reflexivity|].
  apply (submitted_handles_wellformed_and_distinct mixedRecords mixedRecords_processed).
Defined.

(** X6: a record is [invalid] exactly when no handle could be read from
    its text; otherwise its handle is well-formed and the record is
    [pending] or [duplicate]. *)
Theorem records_classified_by_handle us i u :
  processed us -> us !! i = Some u ->
  match truthyHandle (username u) with
  | Some h => wellFormed h = true /\ (status u = Pending \/ status u = Duplicate)
  | None => status u = Invalid
  end.
Proof.
  intros Hp Hi. pose proof (processed_ok us Hp) as Hok. rewrite Forall_lookup in Hok.
  pose proof (Hok i u Hi) as Hu. pose proof Hu as [_ Hc]. unfold classified in Hc.
  destruct (truthyHandle (username u)) as [h|] eqn:Eh; [|done].
  split; [by apply (recordOk_wellFormed u h Hu)|done].
Qed.

Lemma records_classified_by_handle_witness :
  map (fun u => (username u, status u)) mixedRecords
  = [(Some "octocat", Pending); (Some "torvalds", Duplicate); (None, Invalid);
     (Some "Torvalds", Duplicate); (Some "defunkt", Pending)]
  /\ exists u,
      mixedRecords !! 2%nat = Some u
      /\ match truthyHandle (username u) with
         | Some h => wellFormed h = true /\ (status u = Pending \/ status u = Duplicate)
         | None => status u = Invalid
         end.
Proof.
  split; [vm_compute; reflexivity|]. eexists. split; [vm_compute; reflexivity|].
  apply (records_classified_by_handle mixedRecords 2 _ mixedRecords_processed).
  vm_compute. reflexivity.
Defined.

(** X7: a record is flagged [duplicate] exactly when it has a twin,
    another record of the list whose handle is the same up to case: no
    record is flagged without one, none with one is left unflagged. *)
Theorem duplicate_exactly_when_twin us i u :
  processed us -> us !! i = Some u -> (status u = Duplicate <-> twin us i).
Proof. apply duplicate_iff_twin. Qed.

Lemma duplicate_exactly_when_twin_witness :
  exists u,
    mixedRecords !! 1%nat = Some u
    /\ username u = Some "torvalds"
    /\ (status u = Duplicate <-> twin mixedRecords 1).
Proof.
  eexists. split; [vm_compute; reflexivity|]. split; [reflexivity|].
  apply (duplicate_exactly_when_twin mixedRecords 1 _ mixedRecords_processed).
  vm_compute. reflexivity.
Defined.

(** X8: the update of a batch round, given one verdict per submitted
    handle: every record keeps its text, handle and position; a record
    that was not pending is not changed at all; a pending record takes
    status, error and profile of the verdict for its handle and is
    pending no more. *)
Theorem round_update_settles_pending_only us rs data url i u :
  processed us ->
  map Server.username rs = usernamesToSubmit us -> Forall ServerSpec.terminal rs ->
  us !! i = Some u ->
  exists u',
    mergeResults (usernamesToSubmit us) rs data url us !! i = Some u'
    /\ sameEntry u u'
    /\ (status u <> Pending -> u' = u)
    /\ (status u = Pending ->
        exists r, r ∈ rs /\ Some (Server.username r) = username u
                  /\ status u' = Server.vstatus r /\ status u' <> Pending
                  /\ error u' = Server.error r
                  /\ profileData u' = Server.profileData r).
Proof. apply merge_round. Qed.

Lemma mixedVerdicts_terminal : Forall ServerSpec.terminal mixedVerdicts.
Proof.
  unfold mixedVerdicts.
  repeat (apply Forall_cons; split; [unfold ServerSpec.terminal; simpl; auto|]).
  apply Forall_nil_2.
Qed.

Lemma round_update_settles_pending_only_witness :
  map status (mergeResults (usernamesToSubmit mixedRecords) mixedVerdicts None "" mixedRecords)
  = [Valid; Duplicate; Invalid; Duplicate; Error]
  /\ exists u u',
      mixedRecords !! 4%nat = Some u
      /\ mergeResults (usernamesToSubmit mixedRecords) mixedVerdicts None "" mixedRecords
           !! 4%nat = Some u'
      /\ sameEntry u u'
      /\ (status u <> Pending -> u' = u)
      /\ (status u = Pending ->
          exists r, r ∈ mixedVerdicts /\ Some (Server.username r) = username u
                    /\ status u' = Server.vstatus r /\ status u' <> Pending
                    /\ error u' = Server.error r
                    /\ profileData u' = Server.profileData r).
Proof.
  split; [vm_compute; reflexivity|].
  destruct (round_update_settles_pending_only mixedRecords mixedVerdicts None "" 4
              (default (newUser "" None Invalid None 0) (mixedRecords !! 4%nat))
              mixedRecords_processed) as (u' & H).
  - vm_compute. reflexivity.
  - exact mixedVerdicts_terminal.
  - vm_compute. reflexivity.
  - eexists _, u'. split; [vm_compute; reflexivity|]. exact H.
Defined.

(** X9: a round through the batch endpoint, end to end: when the
    endpoint answers 200 to the handles the client submits, its reply has
    a verdict for each of them, and the update leaves no submitted record
    pending and no other record changed. *)
Theorem batch_round_leaves_no_record_pending remote ip githubToken data url us s reply s' i u :
  processed us -> ServerSpec.cache_wf s ->
  Batch.POST remote (batchRequest ip (usernamesToSubmit us) githubToken) s
  = (Server.Returned (Batch.Status200 reply), s') ->
  us !! i = Some u ->
  exists rs u',
    Batch.results reply = map Some rs
    /\ mergeResults (usernamesToSubmit us) rs data url us !! i = Some u'
    /\ sameEntry u u'
    /\ (status u <> Pending -> u' = u)
    /\ (status u = Pending ->
        exists r, r ∈ rs /\ Some (Server.username r) = username u
                  /\ status u' = Server.vstatus r /\ status u' <> Pending).
Proof. apply batch_round. Qed.

Lemma batch_round_leaves_no_record_pending_witness :
  match Batch.POST Demo.graphqlDown (batchRequest None (usernamesToSubmit mixedRecords) "")
                   Demo.emptyState with
  | (Server.Returned (Batch.Status200 reply), _) =>
      exists u rs u',
        mixedRecords !! 0%nat = Some u
        /\ Batch.results reply = map Some rs
        /\ mergeResults (usernamesToSubmit mixedRecords) rs None "" mixedRecords !! 0%nat
           = Some u'
        /\ sameEntry u u'
        /\ (status u <> Pending -> u' = u)
        /\ (status u = Pending ->
            exists r, r ∈ rs /\ Some (Server.username r) = username u
                      /\ status u' = Server.vstatus r /\ status u' <> Pending)
  | _ => False
  end.
Proof.
  destruct (Batch.POST Demo.graphqlDown
              (batchRequest None (usernamesToSubmit mixedRecords) "") Demo.emptyState)
    as [[[reply|msg|msg t r|msg]|e] s'] eqn:E;
    try (vm_compute in E; discriminate E).
  destruct (batch_round_leaves_no_record_pending Demo.graphqlDown None "" None ""
              mixedRecords Demo.emptyState reply s' 0
              (default (newUser "" None Invalid None 0) (mixedRecords !! 0%nat))
              mixedRecords_processed BatchClaims.emptyState_wf E)
    as (rs & u' & H).
  - vm_compute. reflexivity.
  - eexists _, rs, u'. split; [vm_compute; reflexivity|]. exact H.
Defined.

(** X10: after a round, the retry puts back to [pending] the records that
    failed on the rate limit and changes no other record. *)
Theorem retry_resets_rate_limited_records_only us rs data url :
  processed us -> map Server.username rs = usernamesToSubmit us ->
  markForRetry (mergeResults (usernamesToSubmit us) rs data url us)
  = map (fun u => if isFailed u then backToPending u else u)
        (mergeResults (usernamesToSubmit us) rs data url us).
Proof. apply markForRetry_merged. Qed.

Lemma retry_resets_rate_limited_records_only_witness :
  map status
      (markForRetry
         (mergeResults (usernamesToSubmit mixedRecords) mixedVerdicts None "" mixedRecords))
  = [Valid; Duplicate; Invalid; Duplicate; Pending]
  /\ markForRetry
       (mergeResults (usernamesToSubmit mixedRecords) mixedVerdicts None "" mixedRecords)
     = map (fun u => if isFailed u then backToPending u else u)
           (mergeResults (usernamesToSubmit mixedRecords) mixedVerdicts None "" mixedRecords).
Proof.
  split; [vm_compute; reflexivity|].
  apply (retry_resets_rate_limited_records_only mixedRecords mixedVerdicts None ""
           mixedRecords_processed).
  vm_compute. reflexivity.
Defined.

(** X11: the strategy the batch endpoint follows for the body the client
    sends: its first request for the misses is a GraphQL query exactly
    when the client has a token and there are at least ten misses;
    without a token it is a plain REST request, however many handles. *)
Theorem client_request_selects_strategy remote usernames githubToken u0 rest s :
  let b := requestBody usernames githubToken in
  let token := Js.trim githubToken in
  exists l,
    Server.calls (Batch.validateUncached remote (default Batch.MAuto (Batch.method b))
                                         (Batch.githubToken b) (u0 :: rest) s).2
    = (Server.calls s
       ++ (if Js.truthy token && (10 <=? length (u0 :: rest))%nat
           then Server.PostGraphQL (take 100 (u0 :: rest)) token
           else Server.GetUser u0 (if Js.truthy token
                                   then Some ("Bearer " +:+ token) else None))
          :: l)%list.
Proof. apply requestBody_first_call. Qed.

(** X12: no chunk the client cuts for the plain endpoint is refused for
    its size: the endpoint answers 200 with one verdict per handle of the
    chunk, in order, or 429. *)
Theorem plain_chunks_are_accepted remote ip usernames githubToken chunk s :
  chunk ∈ plainChunks usernames ->
  exists response s',
    PlainRoute.POST remote (plainRequest ip chunk githubToken) s
    = (Server.Returned response, s')
    /\ match response with
       | PlainRoute.Status200 reply =>
           map Server.username (PlainRoute.results reply) = chunk
       | PlainRoute.Status429 _ _ _ => s' = s
       | _ => False
       end.
Proof. apply plainChunks_accepted. Qed.

Lemma plain_chunks_are_accepted_witness :
  exists response s',
    PlainRoute.POST Demo.graphqlDown (plainRequest None ["octocat"; "ghost"] "")
                    Demo.emptyState
    = (Server.Returned response, s')
    /\ match response with
       | PlainRoute.Status200 reply =>
           map Server.username (PlainRoute.results reply) = ["octocat"; "ghost"]
       | PlainRoute.Status429 _ _ _ => s' = Demo.emptyState
       | _ => False
       end.
Proof.
  apply (plain_chunks_are_accepted Demo.graphqlDown None ["octocat"; "ghost"] ""
           ["octocat"; "ghost"] Demo.emptyState).
  vm_compute. left.
Defined.

(** X13: when the client takes the plain endpoint (fewer than ten handles
    and no token), the chunk loop has one chunk, the whole list, so the
    pause after a 429, computed from the chunk index, is 30 seconds. *)
Theorem plain_path_has_one_chunk usernames githubToken :
  useBatchAPI usernames githubToken = false -> usernames <> [] ->
  plainChunks usernames = [usernames]
  /\ forall i chunk, plainChunks usernames !! i = Some chunk -> waitTime i = 30000.
Proof.
  intros Hb Hne. rewrite (plainChunks_single usernames githubToken Hb Hne).
  split; [done|]. intros [|i] chunk; [done|]. by destruct i.
Qed.

Lemma plain_path_has_one_chunk_witness :
  plainChunks ["octocat"; "ghost"] = [["octocat"; "ghost"]]
  /\ forall i chunk, plainChunks ["octocat"; "ghost"] !! i = Some chunk -> waitTime i = 30000.
Proof.
  apply (plain_path_has_one_chunk ["octocat"; "ghost"] "  ").
  - vm_compute. reflexivity.
  - discriminate.
Defined.

End ClientExtras.

Module BatchExtras.
Import Server ServerSpec ServerFacts Batch BatchSpec BatchFacts RouteSpec LimiterSpec.
Import LimiterFacts BatchMore CacheFacts ChunkFacts Demo MoreDemo.
Local Open Scope m_scope.

(** X14: the limiter of the batch endpoint is a fixed window: of the
    checks of one client that fall into the hour after its first one,
    exactly the first 60 (5000 with a token) are allowed; check number
    [i] reports [max - (i + 1)] remaining requests, never less than 0,
    and all report the same reset time. *)
Theorem batch_limiter_admits_ceiling_per_window ip (hasToken : bool) p0 pauses s :
  noWindow s ip (clock s + p0) ->
  Forall (fun ms => 0 <= ms) pauses ->
  foldr Z.add 0 pauses <= window ->
  exists rs s',
    requestsAt (checkRateLimit ip hasToken) (p0 :: pauses) s = (Returned rs, s')
    /\ map batchAnswer rs
       = map (admission (if hasToken then 5000 else 60) (clock s + p0 + window))
             (seq 0 (S (length pauses))).
Proof.
  apply (requestsAt_window (checkRateLimit ip hasToken) batchAnswer
           (if hasToken then 5000 else 60) ip).
  - destruct hasToken; lia.
  - intros s0. apply batch_check_opens.
  - intros s0 i T. apply batch_check_counts.
Qed.

Lemma batch_limiter_admits_ceiling_per_window_witness :
  exists rs s',
    requestsAt (checkRateLimit "10.0.0.1" false) (0 :: replicate 61 1000) emptyState
    = (Returned rs, s')
    /\ map batchAnswer rs = map (admission 60 window) (seq 0 62)
    /\ admission 60 window 59 = (true, 0, window)
    /\ admission 60 window 60 = (false, 0, window).
Proof.
  destruct (batch_limiter_admits_ceiling_per_window "10.0.0.1" false 0 (replicate 61 1000)
              emptyState) as (rs & s' & Hr & Ha).
  - vm_compute. exact I.
  - apply Forall_replicate. lia.
  - vm_compute. discriminate.
  - exists rs, s'. split; [exact Hr|]. split; [exact Ha|]. split; reflexivity.
Defined.

(** X15: the batch [POST] on a request whose body is unreadable or has
    the field types of [ValidationRequest] (the handles strings, the
    token a string): it always answers, and it leaves the server state
    (cache, limiter, log) as it was unless it answers 200; such a
    request refused with 400, 429 or 500 is not counted by the
    limiter. *)
Theorem batch_POST_changes_state_only_on_200 remote request s :
  exists response s',
    POST remote request s = (Returned response, s')
    /\ match response with
       | Status200 _ => True
       | _ => s' = s
       end.
Proof. apply POST_returns_or_keeps. Qed.

(** X16: the cache statistics of a 200 reply add up: cached plus
    validated is the total, the total is the number of handles asked,
    cached is the number of fresh cache hits; and a served request is
    always counted by the limiter. *)
Theorem batch_POST_cache_stats_add_up remote request s b us reply s' :
  body request = JsonValue b -> usernames b = Some us ->
  POST remote request s = (Returned (Status200 reply), s') ->
  (cached (cacheStats reply) + validated (cacheStats reply))%nat = total (cacheStats reply)
  /\ total (cacheStats reply) = length us
  /\ cached (cacheStats reply) = length (hitsOf s us)
  /\ rateLimitMap s' <> rateLimitMap s.
Proof. apply POST_cacheStats. Qed.

Lemma batch_POST_cache_stats_add_up_witness :
  match POST graphqlDown (requestOf ["torvalds"; "octocat"; "ghost"] None None) seeded with
  | (Returned (Status200 reply), s') =>
      (cached (cacheStats reply) + validated (cacheStats reply))%nat = total (cacheStats reply)
      /\ total (cacheStats reply) = 3%nat
      /\ cached (cacheStats reply) = 1%nat
      /\ rateLimitMap s' <> rateLimitMap seeded
  | _ => False
  end.
Proof.
  destruct (POST graphqlDown (requestOf ["torvalds"; "octocat"; "ghost"] None None) seeded)
    as [[[reply|msg|msg t r|msg]|e] s'] eqn:E;
    try (vm_compute in E; discriminate E).
  exact (batch_POST_cache_stats_add_up graphqlDown
           (requestOf ["torvalds"; "octocat"; "ghost"] None None) seeded
           _ ["torvalds"; "octocat"; "ghost"] reply s' eq_refl eq_refl E).
Defined.

(** X17: whatever path the batch [POST] takes, every request it sends to
    GitHub names only handles of the request that had no fresh cache
    entry: a handle with a fresh entry is never looked up again. *)
Theorem batch_POST_sends_only_cache_misses remote request s c u :
  c ∈ newCalls s (POST remote request s).2 -> u ∈ handlesOf c ->
  freshResult s u = None
  /\ exists b us, body request = JsonValue b /\ usernames b = Some us /\ u ∈ us.
Proof. apply POST_calls. Qed.

Lemma batch_POST_sends_only_cache_misses_witness :
  newCalls seeded
           (POST graphqlDown (requestOf ["torvalds"; "octocat"] None None) seeded).2
  = [GetUser "octocat" None]
  /\ freshResult seeded "octocat" = None
  /\ exists b us,
      body (requestOf ["torvalds"; "octocat"] None None) = JsonValue b
      /\ usernames b = Some us /\ "octocat" ∈ us.
Proof.
  split; [vm_compute; reflexivity|].
  apply (batch_POST_sends_only_cache_misses graphqlDown
           (requestOf ["torvalds"; "octocat"] None None) seeded
           (GetUser "octocat" None) "octocat").
  - vm_compute. left.
  - vm_compute. left.
Defined.

(** X18: a request repeated for handles that were not cached before is
    served from the cache: when the second request arrives less than
    five minutes after the first one started, it sends nothing to GitHub
    and leaves the cache as it is; it answers 429, or 200 with every
    handle counted as cached, and with the verdicts of the first reply
    when no handle is listed twice.  (The remote side takes no negative
    time to answer.) *)
Theorem repeated_request_is_served_from_cache remote request b us s reply s' ms :
  cache_wf s -> (forall n, 0 <= latency remote n) ->
  body request = JsonValue b -> usernames b = Some us ->
  (forall u, u ∈ us -> freshResult s u = None) ->
  POST remote request s = (Returned (Status200 reply), s') ->
  0 <= ms -> clock s' - clock s + ms < CACHE_DURATION ->
  exists response s2,
    POST remote request (tick ms s') = (Returned response, s2)
    /\ calls s2 = calls s'
    /\ validationCache s2 = validationCache s'
    /\ match response with
       | Status200 reply2 =>
           cacheStats reply2
           = {| cached := length us; validated := 0; total := length us |}
           /\ (NoDup us -> results reply2 = results reply)
       | Status429 _ _ _ => True
       | _ => False
       end.
Proof. apply repeat_from_cache. Qed.

Lemma repeated_request_is_served_from_cache_witness :
  match POST graphqlDown (requestOf ["octocat"; "ghost"] None None) emptyState with
  | (Returned (Status200 reply), s') =>
      calls s' = [GetUser "octocat" None; GetUser "ghost" None]
      /\ exists response s2,
          POST graphqlDown (requestOf ["octocat"; "ghost"] None None) (tick 60000 s')
          = (Returned response, s2)
          /\ calls s2 = calls s'
          /\ validationCache s2 = validationCache s'
          /\ match response with
             | Status200 reply2 =>
                 cacheStats reply2 = {| cached := 2; validated := 0; total := 2 |}
                 /\ (NoDup ["octocat"; "ghost"] -> results reply2 = results reply)
             | Status429 _ _ _ => True
             | _ => False
             end
  | _ => False
  end.
Proof.
  destruct (POST graphqlDown (requestOf ["octocat"; "ghost"] None None) emptyState)
    as [[[reply|msg|msg t r|msg]|e] s'] eqn:E;
    try (vm_compute in E; discriminate E).
  assert (Hcalls : calls s' = [GetUser "octocat" None; GetUser "ghost" None]).
  { change s' with (snd (Returned (Status200 reply), s')). rewrite <- E.
    vm_compute. reflexivity. }
  assert (Hclock : clock s' = 80).
  { change s' with (snd (Returned (Status200 reply), s')). rewrite <- E.
    vm_compute. reflexivity. }
  split; [exact Hcalls|].
  apply (repeated_request_is_served_from_cache graphqlDown
           (requestOf ["octocat"; "ghost"] None None)
           {| usernames := Some ["octocat"; "ghost"]; githubToken := None; method := None |}
           ["octocat"; "ghost"] emptyState reply s' 60000 BatchClaims.emptyState_wf).
  - intros n. simpl. lia.
  - reflexivity.
  - reflexivity.
  - intros u _. unfold freshResult. simpl. by rewrite lookup_empty.
  - exact E.
  - lia.
  - rewrite Hclock. vm_compute. reflexivity.
Defined.

(** X19: [validateUsernamesREST] never fails: it returns one verdict per
    handle, in the order of the handles, sends exactly one [GET] per
    handle in that order, and touches neither the cache nor the
    limiter. *)
Theorem rest_validator_answers_every_handle remote githubToken usernames concurrency s :
  (0 < concurrency)%nat ->
  exists rs s',
    validateUsernamesREST remote usernames githubToken concurrency s = (Returned rs, s')
    /\ map username rs = usernames
    /\ Forall terminal rs
    /\ same_maps s s'
    /\ calls s' = (calls s ++ map (fun u => GetUser u (bearer githubToken)) usernames)%list.
Proof. apply validateUsernamesREST_spec. Qed.

Lemma rest_validator_answers_every_handle_witness :
  exists rs s',
    validateUsernamesREST unreachable handles101 None 20 emptyState = (Returned rs, s')
    /\ map username rs = handles101
    /\ Forall terminal rs
    /\ same_maps emptyState s'
    /\ calls s' = ([] ++ map (fun u => GetUser u None) handles101)%list.
Proof.
  apply (rest_validator_answers_every_handle unreachable None handles101 20 emptyState).
  lia.
Defined.

(** X20: the slicing loop [for (i = 0; i < l.length; i += size)
    push(l.slice(i, i + size))] cuts a list into
    [ceil (length / size)] slices, none empty and none longer than
    [size], whose concatenation is the list. *)
Theorem slicing_loop_partitions {A : Type} (size : nat) (l : list A) :
  (0 < size)%nat ->
  concat (chunksOf size l) = l
  /\ length (chunksOf size l) = ((length l + size - 1) / size)%nat
  /\ forall c, c ∈ chunksOf size l -> c <> [] /\ (length c <= size)%nat.
Proof.
  intros Hs. split; [by apply chunksOf_concat|]. split; [by apply chunksOf_length|].
  intros c. by apply chunksOf_bounds.
Qed.

Lemma slicing_loop_partitions_witness :
  concat (chunksOf 100 handles101) = handles101
  /\ length (chunksOf 100 handles101) = 2%nat
  /\ forall c, c ∈ chunksOf 100 handles101 -> c <> [] /\ (length c <= 100)%nat.
Proof. apply (slicing_loop_partitions 100 handles101). lia. Defined.

End BatchExtras.

Module PlainExtras.
Import Server ServerSpec ServerFacts Plain PlainRoute RouteSpec LimiterSpec.
Import LimiterFacts PlainFacts Demo MoreDemo.
Local Open Scope m_scope.

(** X21: the limiter of the plain endpoint is a fixed window of 30
    requests per hour: of the checks of one client that fall into the
    hour after its first one, exactly the first 30 are allowed. *)
Theorem plain_limiter_admits_30_per_window ip p0 pauses s :
  noWindow s ip (clock s + p0) ->
  Forall (fun ms => 0 <= ms) pauses ->
  foldr Z.add 0 pauses <= window ->
  exists rs s',
    requestsAt (checkRateLimit ip) (p0 :: pauses) s = (Returned rs, s')
    /\ map plainAnswer rs
       = map (admission 30 (clock s + p0 + window)) (seq 0 (S (length pauses))).
Proof.
  apply (requestsAt_window (checkRateLimit ip) plainAnswer 30 ip).
  - lia.
  - intros s0. apply plain_check_opens.
  - intros s0 i T. apply plain_check_counts.
Qed.

Lemma plain_limiter_admits_30_per_window_witness :
  exists rs s',
    requestsAt (checkRateLimit "10.0.0.1") (0 :: replicate 30 60000) emptyState
    = (Returned rs, s')
    /\ map plainAnswer rs = map (admission 30 window) (seq 0 31)
    /\ admission 30 window 29 = (true, 0, window)
    /\ admission 30 window 30 = (false, 0, window).
Proof.
  destruct (plain_limiter_admits_30_per_window "10.0.0.1" 0 (replicate 30 60000) emptyState)
    as (rs & s' & Hr & Ha).
  - vm_compute. exact I.
  - apply Forall_replicate. lia.
  - vm_compute. discriminate.
  - exists rs, s'. split; [exact Hr|]. split; [exact Ha|]. split; reflexivity.
Defined.

(** X22: the plain [POST] consults the limiter before it reads the body:
    a request it rejects with 400 or 500 has been counted all the same,
    and has sent nothing to GitHub. *)
Theorem plain_POST_counts_rejected_requests remote request s response s' :
  POST remote request s = (Returned response, s') ->
  match response with Status400 _ | Status500 _ => True | _ => False end ->
  rateLimitMap s' <> rateLimitMap s /\ calls s' = calls s /\ clock s' = clock s.
Proof.
  intros HP Hr.
  destruct (plain_POST_run remote request s) as (rl & s1 & Hrl & H).
  destruct (checkRateLimit_run (ipOf request) s) as (rl' & s1' & Hrl' & _ & Hk & Hc & Hal).
  rewrite Hrl in Hrl'. injection Hrl' as <- <-.
  destruct (allowed rl).
  - destruct (body request) as [e|b].
    + rewrite H in HP. injection HP as <- <-. done.
    + destruct (usernames b) as [[|u0 us]|].
      1, 3: rewrite H in HP; injection HP as <- <-; done.
      destruct (20 <? length (u0 :: us))%nat.
      * rewrite H in HP. injection HP as <- <-. done.
      * destruct H as (rs & s'' & _ & H). rewrite H in HP. injection HP as <- <-. done.
  - destruct H as [_ H]. rewrite H in HP. injection HP as <- <-. done.
Qed.

Lemma plain_POST_counts_rejected_requests_witness :
  match POST unreachable plainUnreadable emptyState with
  | (Returned (Status500 _), s') =>
      rateLimitMap s' <> rateLimitMap emptyState
      /\ calls s' = calls emptyState /\ clock s' = clock emptyState
  | _ => False
  end.
Proof.
  destruct (POST unreachable plainUnreadable emptyState)
    as [[[reply|msg|msg t r|msg]|e] s'] eqn:E;
    try (vm_compute in E; discriminate E).
  exact (plain_POST_counts_rejected_requests unreachable plainUnreadable emptyState
           (Status500 msg) s' E I).
Defined.

(** X23: a request the plain [POST] serves: it validates the handles one
    after the other, sends one [GET] per handle in the order of the
    request, waits 2500 ms before each, and reports as remaining quota
    the limiter's figure minus the number of handles. *)
Theorem plain_POST_validates_in_order remote request s b us rl s1 :
  body request = JsonValue b -> usernames b = Some us ->
  us <> [] -> (length us <= 20)%nat ->
  checkRateLimit (ipOf request) s = (Returned rl, s1) -> allowed rl = true ->
  exists rs s',
    POST remote request s
    = (Returned (Status200 {| results := rs;
                              r_remaining := remaining rl - Z.of_nat (length us);
                              r_resetTime := rl_resetTime rl |}), s')
    /\ map username rs = us
    /\ Forall terminal rs
    /\ calls s' = (calls s ++ map (fun u => GetUser u (tokenHeader (githubToken b))) us)%list
    /\ clock s' = clock s + 2500 * Z.of_nat (length us)
                  + elapsed remote (length (calls s)) (length us).
Proof.
  intros Hb Hus Hne Hlen Hrl Hal.
  destruct (plain_POST_run remote request s) as (rl' & s1' & Hrl' & H).
  rewrite Hrl in Hrl'. injection Hrl' as <- <-.
  destruct (checkRateLimit_run (ipOf request) s) as (rl' & s1' & Hrl' & _ & Hk & Hc & _).
  rewrite Hrl in Hrl'. injection Hrl' as <- <-.
  rewrite Hal, Hb, Hus in H. destruct us as [|u0 us]; [done|].
  apply Nat.ltb_ge in Hlen. rewrite Hlen in H.
  destruct H as (rs & s' & Hrs & HP).
  destruct (mapM_validateGitHubUsername remote (githubToken b) (u0 :: us) s1)
    as (rs' & s'' & Hrs' & Hu & Ht & _ & Hcalls & Hclock).
  rewrite Hrs in Hrs'. injection Hrs' as <- <-.
  exists rs, s'. split; [done|]. split; [done|]. split; [done|].
  rewrite Hcalls, Hclock, Hc, Hk. done.
Qed.

Lemma plain_POST_validates_in_order_witness :
  exists rs s',
    POST graphqlDown (plainRequestOf ["octocat"; "ghost"]) emptyState
    = (Returned (Status200 {| results := rs; r_remaining := 29 - 2;
                              r_resetTime := 3600000 |}), s')
    /\ map username rs = ["octocat"; "ghost"]
    /\ Forall terminal rs
    /\ calls s' = [GetUser "octocat" None; GetUser "ghost" None]
    /\ clock s' = 0 + 2500 * 2 + (40 + (40 + 0)).
Proof.
  apply (plain_POST_validates_in_order graphqlDown (plainRequestOf ["octocat"; "ghost"])
           emptyState
           {| usernames := Some ["octocat"; "ghost"]; githubToken := None |}
           ["octocat"; "ghost"]
           {| allowed := true; remaining := 29; rl_resetTime := 3600000 |}
           (checkRateLimit "10.0.0.1" emptyState).2).
  - reflexivity.
  - reflexivity.
  - discriminate.
  - simpl. lia.
  - vm_compute. reflexivity.
  - reflexivity.
Defined.

End PlainExtras.

Module EngagementExtras.
Import Server ServerSpec ServerFacts Engagement EngagementSpec.
Import EngagementRoute EngagementRouteSpec RegexSpec.
Import ParseFacts ParseSound EngagementMore Demo MoreDemo.
Local Open Scope m_scope.

(** X24: [replace(/\.git$/, "")], as [parseRepositoryUrl] and
    [extractUsername] use it, removes a final [.git] and changes nothing
    else. *)
Theorem dotGit_replace_strips_final_suffix s :
  Regex.remove_first false dotGit_re s = stripGit s
  /\ stripGit (s +:+ ".git") = s.
Proof. split; [apply remove_dotGit|apply stripGit_suffix]. Qed.

(** X25: [parseRepositoryUrl] reads owner and repository of a URL
    [<prefix>github.com/<owner>/<name><rest>], where the prefix has no
    letter g, owner and name are path segments and the rest is empty or
    starts with a slash: the owner is [<owner>] and the repository is
    [<name>] without a final [.git]. *)
Theorem parseRepositoryUrl_reads_owner_and_name pre owner name tail :
  "g"%char ∉ Js.chars pre ->
  isSegment owner = true -> isSegment name = true ->
  stops notSlash (Js.chars tail) = true ->
  parseRepositoryUrl (pre +:+ "github.com/" +:+ owner +:+ "/" +:+ name +:+ tail)
  = Some {| owner := owner; repo := stripGit name |}.
Proof. apply parseRepositoryUrl_canonical. Qed.

Lemma parseRepositoryUrl_reads_owner_and_name_witness :
  parseRepositoryUrl "https://github.com/vercel/next.js.git/tree/main"
  = Some {| owner := "vercel"; repo := "next.js" |}.
Proof.
  apply (parseRepositoryUrl_reads_owner_and_name "https://" "vercel" "next.js.git"
                                                 "/tree/main").
  - vm_compute. intros H. repeat (apply elem_of_cons in H as [H|H]; [discriminate H|]).
    by apply elem_of_nil in H.
  - vm_compute. reflexivity.
  - vm_compute. reflexivity.
  - vm_compute. reflexivity.
Defined.

(** X26: what [parseRepositoryUrl] returns is in the URL: the URL reads
    [<prefix>github.com/<owner>/<name><rest>] with the returned owner as
    [<owner>], a path segment, and the returned repository is the
    segment [<name>] without a final [.git]. *)
Theorem parseRepositoryUrl_result_is_in_url url r :
  parseRepositoryUrl url = Some r ->
  exists pre name tail,
    url = pre +:+ "github.com/" +:+ owner r +:+ "/" +:+ name +:+ tail
    /\ isSegment (owner r) = true /\ isSegment name = true
    /\ repo r = stripGit name.
Proof. apply parseRepositoryUrl_sound. Qed.

Lemma parseRepositoryUrl_result_is_in_url_witness :
  exists pre name tail,
    "git+https://github.com/vercel/next.js?tab=readme"
    = pre +:+ "github.com/" +:+ "vercel" +:+ "/" +:+ name +:+ tail
    /\ isSegment "vercel" = true /\ isSegment name = true
    /\ "next.js?tab=readme" = stripGit name.
Proof.
  apply (parseRepositoryUrl_result_is_in_url
           "git+https://github.com/vercel/next.js?tab=readme"
           {| owner := "vercel"; repo := "next.js?tab=readme" |}).
  vm_compute. reflexivity.
Defined.

(** X27: one batch of the GraphQL engagement path: when GitHub answers
    the query with a readable 2xx reply, handle number [i] gets the
    verdict of alias [user<i>]; otherwise (rejected request, other
    status, unreadable body) this batch, and only this batch, is checked
    again over REST. *)
Theorem engagement_batch_falls_back_alone remote batch targetOwner targetRepo token s :
  engagementBatch remote batch targetOwner targetRepo token s
  = match listed (postEngagement remote (length (calls s)) batch token) with
    | Some data =>
        (Returned (imap (graphqlEngagement
                           (Js.toLowerCase (targetOwner +:+ "/" +:+ targetRepo)) data)
                        batch),
         sent (rest remote) (PostGraphQL batch token) s)
    | None =>
        checkUsersEngagementREST (rest remote) batch targetOwner targetRepo (Some token)
                                 (sent (rest remote) (PostGraphQL batch token) s)
    end.
Proof. apply engagementBatch_run. Qed.

(** X28: [checkUsersEngagementGraphQL] never fails: whatever GitHub
    answers, it returns one entry per handle, in the order of the
    handles. *)
Theorem engagement_graphql_answers_every_handle remote usernames targetOwner targetRepo token s :
  exists rs s',
    checkUsersEngagementGraphQL remote usernames targetOwner targetRepo token s
    = (Returned rs, s')
    /\ map username rs = usernames.
Proof. apply checkUsersEngagementGraphQL_aligned. Qed.

(** X29: the engagement [POST] on a request whose body is unreadable or
    has the field types of [RepositoryEngagementRequest]: it always
    answers.  A 200 reply was given to a readable body with a handle
    list that is not empty; it repeats the URL of the body, names the
    repository [parseRepositoryUrl] reads in it, holds one entry per
    handle in the order of the list, and its summary counts these
    entries: [totalUsers] is the number of handles and none of
    [starred], [forked], [errors] exceeds it.  Any other reply leaves
    the server state as it was, so nothing was sent to GitHub: 500 is
    given to an unreadable body only, with the message of the error as
    details, and 400 to a readable body only, whose URL or list is
    missing or empty or whose URL does not parse. *)
Theorem engagement_POST_outcome remote request s :
  exists response s',
    POST remote request s = (Returned response, s')
    /\ match response with
       | Status200 reply =>
           exists body,
             request = JsonValue body
             /\ repositoryUrl body = Some (url reply)
             /\ parseRepositoryUrl (url reply) = Some (repository reply)
             /\ usernames body = Some (map username (users reply))
             /\ users reply <> []
             /\ summary reply = summaryOf (users reply)
             /\ totalUsers (summary reply) = length (users reply)
             /\ (starred (summary reply) <= length (users reply))%nat
             /\ (forked (summary reply) <= length (users reply))%nat
             /\ (errors (summary reply) <= length (users reply))%nat
       | Status400 _ =>
           s' = s
           /\ exists body,
               request = JsonValue body
               /\ forall url u0 us,
                    repositoryUrl body = Some url -> usernames body = Some (u0 :: us) ->
                    Js.truthy url = true -> parseRepositoryUrl url = None
       | Status500 _ details =>
           s' = s /\ exists e, request = JsonThrows e /\ details = messageOf e
       end.
Proof.
  pose proof (engagement_POST_run remote request s) as H.
  destruct request as [e|body].
  { eexists _, _. split; [exact H|]. split; [done|]. by exists e. }
  destruct (repositoryUrl body) as [url|] eqn:Eurl.
  2: { eexists _, _. split; [exact H|]. split; [done|]. exists body. split; [done|].
       intros ? ? ? H1 H2 H3. congruence. }
  destruct (usernames body) as [[|u0 us]|] eqn:Eus.
  1, 3: eexists _, _; (split; [exact H|]); (split; [done|]); exists body;
    (split; [done|]); intros ? ? ? H1 H2 H3; congruence.
  destruct (Js.truthy url) eqn:Et.
  2: { eexists _, _. split; [exact H|]. split; [done|]. exists body. split; [done|].
       intros ? ? ? H1 H2 H3. congruence. }
  destruct (parseRepositoryUrl url) as [parsed|] eqn:Ep.
  2: { eexists _, _. split; [exact H|]. split; [done|]. exists body. split; [done|].
       intros ? ? ? H1 H2 H3. congruence. }
  destruct H as (users & s' & HP & Hu & _).
  eexists _, s'. split; [exact HP|]. exists body. simpl.
  assert (Hne : users <> []) by (intros ->; discriminate Hu).
  rewrite Hu. repeat split; try done; apply countIf_le.
Qed.

(** X30: without a token the engagement endpoint reports no error,
    whatever happens: the REST path gives no entry an [error] field, so
    the summary of a 200 reply counts 0 errors. *)
Theorem engagement_without_token_reports_no_error remote body s reply s' :
  truthy (githubToken body) = false ->
  POST remote (JsonValue body) s = (Returned (Status200 reply), s') ->
  errors (summary reply) = 0%nat
  /\ Forall (fun r => u_error r = None) (users reply).
Proof.
  intros Htok HP.
  pose proof (engagement_POST_run remote (JsonValue body) s) as H. cbv beta iota in H.
  destruct (repositoryUrl body) as [url|]; [|by rewrite H in HP].
  destruct (usernames body) as [[|u0 us]|]; [by rewrite H in HP| |by rewrite H in HP].
  destruct (Js.truthy url); [|by rewrite H in HP].
  destruct (parseRepositoryUrl url) as [parsed|]; [|by rewrite H in HP].
  destruct H as (users & s'' & HP' & _ & He).
  rewrite HP' in HP. injection HP as <- <-. simpl.
  split; [apply countIf_none|]; by apply He.
Qed.

Lemma engagement_without_token_reports_no_error_witness :
  match POST engagementUnreachable (engagementRequest None) emptyState with
  | (Returned (Status200 reply), _) =>
      map username (users reply) = ["octocat"; "ghost"]
      /\ errors (summary reply) = 0%nat
      /\ Forall (fun r => u_error r = None) (users reply)
  | _ => False
  end.
Proof.
  destruct (POST engagementUnreachable (engagementRequest None) emptyState)
    as [[[reply|msg|msg d]|e] s'] eqn:E;
    try (vm_compute in E; discriminate E).
  split.
  - vm_compute in E. injection E as <- _. reflexivity.
  - exact (engagement_without_token_reports_no_error engagementUnreachable
             {| repositoryUrl := Some "https://github.com/vercel/next.js";
                usernames := Some ["octocat"; "ghost"];
                githubToken := None |}
             emptyState reply s' eq_refl E).
Defined.

End EngagementExtras.
